(** * Solar dashboard: CME enrichment, cross-event correlation and ranking

    A shallow embedding of the data-processing core of the dashboard
    component ([enhanceCMEData], [isPotentiallyEarthRelevant], the flare
    and shock correlation passes, and the [earthDirectedCMEs] /
    [otherCMEs] partition), together with the properties stated for it. *)

From Stdlib Require Import ZArith NArith String Ascii List Lia.
From Stdlib Require Import Sorting.Permutation Sorting.Sorted.
From Stdlib Require QArith.
From stdpp Require Import gmap strings list fin_maps pretty.

Local Open Scope string_scope.
Local Open Scope list_scope.
Local Open Scope Z_scope.

(** ** JavaScript values used by the component *)

Module Js.

(** Numbers.  The component only subtracts and compares numbers and tests
    them for truthiness; finite values are modelled as integers (scores,
    millisecond timestamps, speeds), next to the two infinities and NaN. *)
Inductive num : Type :=
| Fin (z : Z)
| PInf
| NInf
| NaN.

#[global] Instance num_eq_dec : EqDecision num.
Proof. solve_decision. Defined.

(** [ToBoolean] on a number: [0] and [NaN] are falsy. *)
Definition truthy (n : num) : bool :=
  match n with
  | Fin 0 => false
  | NaN => false
  | _ => true
  end.

(** [a - b]. *)
Definition nsub (a b : num) : num :=
  match a, b with
  | NaN, _ | _, NaN => NaN
  | Fin x, Fin y => Fin (x - y)
  | Fin _, PInf => NInf
  | Fin _, NInf => PInf
  | PInf, PInf => NaN
  | PInf, _ => PInf
  | NInf, NInf => NaN
  | NInf, _ => NInf
  end.

(** [a < b]; every comparison with NaN is false. *)
Definition nlt (a b : num) : bool :=
  match a, b with
  | NaN, _ | _, NaN => false
  | Fin x, Fin y => x <? y
  | Fin _, PInf => true
  | Fin _, NInf => false
  | PInf, _ => false
  | NInf, NInf => false
  | NInf, _ => true
  end.

(** [a === b] on numbers: NaN is not equal to itself. *)
Definition nseq (a b : num) : bool :=
  match a, b with
  | NaN, _ | _, NaN => false
  | _, _ => bool_decide (a = b)
  end.

(** [a <= b]. *)
Definition nle (a b : num) : bool := nlt a b || nseq a b.

(** [a > b]. *)
Definition ngt (a b : num) : bool := nlt b a.

(** [a !== b]. *)
Definition nsne (a b : num) : bool := negb (nseq a b).

(** A possibly [undefined] number: [x || Infinity], [x > k] (where
    [undefined] converts to NaN), [x !== y] and [x === k]. *)
Definition orInfinity (x : option num) : num :=
  match x with
  | Some n => if truthy n then n else PInf
  | None => PInf
  end.

Definition orUndefined (x : option num) : option num :=
  match x with
  | Some n => if truthy n then Some n else None
  | None => None
  end.

Definition ogt (x : option num) (k : num) : bool :=
  match x with
  | Some n => ngt n k
  | None => false
  end.

Definition osne (x y : option num) : bool :=
  match x, y with
  | None, None => false
  | Some a, Some b => nsne a b
  | _, _ => true
  end.

Definition oseq (x : option num) (k : num) : bool :=
  match x with
  | Some n => nseq n k
  | None => false
  end.

(** Strings: [ToBoolean], [toLowerCase] and [includes].  A string is a
    sequence of 8-bit units; [toLowerCase] maps the capitals [A]..[Z] to
    [a]..[z]. *)
Definition truthyStr (s : string) : bool :=
  match s with
  | EmptyString => false
  | String _ _ => true
  end.

Definition truthyOStr (s : option string) : bool :=
  match s with
  | Some s => truthyStr s
  | None => false
  end.

Definition isUpper (c : ascii) : bool :=
  ((65 <=? N_of_ascii c) && (N_of_ascii c <=? 90))%N.

Definition lowerChar (c : ascii) : ascii :=
  if isUpper c then ascii_of_N (N_of_ascii c + 32) else c.

Fixpoint toLowerCase (s : string) : string :=
  match s with
  | EmptyString => EmptyString
  | String c s' => String (lowerChar c) (toLowerCase s')
  end.

Fixpoint startsWith (s p : string) : bool :=
  match p, s with
  | EmptyString, _ => true
  | String a p', String b s' => Ascii.eqb a b && startsWith s' p'
  | String _ _, EmptyString => false
  end.

Fixpoint includes (s needle : string) : bool :=
  startsWith s needle ||
  match s with
  | EmptyString => false
  | String _ s' => includes s' needle
  end.

(** Outcome of a computation that may raise a [TypeError] (a property
    read on [undefined] or [null]). *)
Inductive res (A : Type) : Type :=
| Ok (a : A)
| TypeError.
Arguments Ok {A} a.
Arguments TypeError {A}.

#[global] Instance res_ret : MRet res := fun A a => Ok a.
#[global] Instance res_bind : MBind res := fun A B f m =>
  match m with
  | Ok a => f a
  | TypeError => TypeError
  end.

(** Reading a property of [o]: raises when [o] is [undefined]/[null]. *)
Definition deref {A} (o : option A) : res A :=
  match o with
  | Some a => Ok a
  | None => TypeError
  end.

End Js.

Import Js.

(** ** Feed records (types module) *)

Record LinkedEvent : Type := {
  le_activityID : string
}.

Record EnlilImpact : Type := {
  location : string;
  arrivalTime : string;
  isGlancingBlow : bool
}.

(** The Kp forecasts, [au], [rmin_re], [modelCompletionTime] and [link] of
    a simulation are never read by the component and are left out. *)
Record EnlilSimulation : Type := {
  estimatedShockArrivalTime : option string;
  estimatedDuration : option num;
  isEarthGB : option bool;
  impactList : option (list EnlilImpact)
}.

(** [note] is declared a string, but the component guards every use of
    it against a missing value, so it is kept optional here. *)
Record CMEAnalysis : Type := {
  halfAngle : num;
  speed : num;
  type : string;
  isMostAccurate : bool;
  an_note : option string;
  enlilList : option (list EnlilSimulation)
}.

Record CME : Type := {
  activityID : string;
  startTime : string;
  sourceLocation : string;
  note : string;
  link : string;
  linkedEvents : option (list LinkedEvent);
  cmeAnalyses : option (list CMEAnalysis)
}.

(** [EnhancedCME extends CME]: the spread copy of the raw record plus the
    optional derived fields. *)
Record EnhancedCME : Type := {
  raw : CME;
  earthImpactScore : option num;
  displayAnalysisSpeed : option num;
  displayAnalysisHalfAngle : option num;
  displayAnalysisType : option string;
  displayAnalysisNote : option string;
  displayEnlilArrivalTime : option string;
  displayEnlilDuration : option num;
  displayEnlilImpactLocations : option (list string);
  isPotentiallyEarthDirected : option bool
}.

Record AssociatedCMEInfo : Type := {
  ai_activityID : string;
  ai_startTime : option string;
  ai_note : option string;
  ai_link : option string;
  ai_earthImpactScore : option num
}.

(** Field assignments on the record being enhanced
    ([enhanced.f = v]). *)
Definition set_earthImpactScore (e : EnhancedCME) (v : option num) : EnhancedCME :=
  {| raw := raw e; earthImpactScore := v;
     displayAnalysisSpeed := displayAnalysisSpeed e;
     displayAnalysisHalfAngle := displayAnalysisHalfAngle e;
     displayAnalysisType := displayAnalysisType e;
     displayAnalysisNote := displayAnalysisNote e;
     displayEnlilArrivalTime := displayEnlilArrivalTime e;
     displayEnlilDuration := displayEnlilDuration e;
     displayEnlilImpactLocations := displayEnlilImpactLocations e;
     isPotentiallyEarthDirected := isPotentiallyEarthDirected e |}.

Definition set_displayAnalysis (e : EnhancedCME)
    (sp ha : option num) (ty nt : option string) : EnhancedCME :=
  {| raw := raw e; earthImpactScore := earthImpactScore e;
     displayAnalysisSpeed := sp;
     displayAnalysisHalfAngle := ha;
     displayAnalysisType := ty;
     displayAnalysisNote := nt;
     displayEnlilArrivalTime := displayEnlilArrivalTime e;
     displayEnlilDuration := displayEnlilDuration e;
     displayEnlilImpactLocations := displayEnlilImpactLocations e;
     isPotentiallyEarthDirected := isPotentiallyEarthDirected e |}.

Definition set_displayEnlilArrivalTime (e : EnhancedCME) (v : option string) : EnhancedCME :=
  {| raw := raw e; earthImpactScore := earthImpactScore e;
     displayAnalysisSpeed := displayAnalysisSpeed e;
     displayAnalysisHalfAngle := displayAnalysisHalfAngle e;
     displayAnalysisType := displayAnalysisType e;
     displayAnalysisNote := displayAnalysisNote e;
     displayEnlilArrivalTime := v;
     displayEnlilDuration := displayEnlilDuration e;
     displayEnlilImpactLocations := displayEnlilImpactLocations e;
     isPotentiallyEarthDirected := isPotentiallyEarthDirected e |}.

Definition set_displayEnlilDuration (e : EnhancedCME) (v : option num) : EnhancedCME :=
  {| raw := raw e; earthImpactScore := earthImpactScore e;
     displayAnalysisSpeed := displayAnalysisSpeed e;
     displayAnalysisHalfAngle := displayAnalysisHalfAngle e;
     displayAnalysisType := displayAnalysisType e;
     displayAnalysisNote := displayAnalysisNote e;
     displayEnlilArrivalTime := displayEnlilArrivalTime e;
     displayEnlilDuration := v;
     displayEnlilImpactLocations := displayEnlilImpactLocations e;
     isPotentiallyEarthDirected := isPotentiallyEarthDirected e |}.

Definition set_displayEnlilImpactLocations (e : EnhancedCME) (v : option (list string)) : EnhancedCME :=
  {| raw := raw e; earthImpactScore := earthImpactScore e;
     displayAnalysisSpeed := displayAnalysisSpeed e;
     displayAnalysisHalfAngle := displayAnalysisHalfAngle e;
     displayAnalysisType := displayAnalysisType e;
     displayAnalysisNote := displayAnalysisNote e;
     displayEnlilArrivalTime := displayEnlilArrivalTime e;
     displayEnlilDuration := displayEnlilDuration e;
     displayEnlilImpactLocations := v;
     isPotentiallyEarthDirected := isPotentiallyEarthDirected e |}.

Definition set_isPotentiallyEarthDirected (e : EnhancedCME) (v : option bool) : EnhancedCME :=
  {| raw := raw e; earthImpactScore := earthImpactScore e;
     displayAnalysisSpeed := displayAnalysisSpeed e;
     displayAnalysisHalfAngle := displayAnalysisHalfAngle e;
     displayAnalysisType := displayAnalysisType e;
     displayAnalysisNote := displayAnalysisNote e;
     displayEnlilArrivalTime := displayEnlilArrivalTime e;
     displayEnlilDuration := displayEnlilDuration e;
     displayEnlilImpactLocations := displayEnlilImpactLocations e;
     isPotentiallyEarthDirected := v |}.

(** ** The enrichment engine (dashboard component) *)

Module Enrich.

(** [a.length > 0] behind the guard [a &&], for an optional array. *)
Definition nonEmpty {A} (a : option (list A)) : bool :=
  match a with
  | Some (_ :: _) => true
  | _ => false
  end.

(** [n && n.toLowerCase().includes("earth")]. *)
Definition noteMentionsEarth (n : option string) : bool :=
  match n with
  | Some s => truthyStr s && includes (toLowerCase s) "earth"
  | None => false
  end.

Definition isPotentiallyEarthRelevant (cme : CME) : bool :=
  match cmeAnalyses cme with
  | None => false
  | Some [] => false
  | Some analyses =>
      existsb (fun analysis =>
                 isMostAccurate analysis
                 || nonEmpty (enlilList analysis)
                 || noteMentionsEarth (an_note analysis))
              analyses
  end.

(** The filter predicate of [earthEnlilSimulations]. *)
Definition isEarthEnlil (enlil : EnlilSimulation) : bool :=
  bool_decide (isEarthGB enlil = Some true)
  || match impactList enlil with
     | Some imps => existsb (fun imp => String.eqb (location imp) "Earth") imps
     | None => false
     end.

(** [{ ...cme, earthImpactScore: Infinity }]. *)
Definition spread (cme : CME) : EnhancedCME :=
  {| raw := cme; earthImpactScore := Some PInf;
     displayAnalysisSpeed := None;
     displayAnalysisHalfAngle := None;
     displayAnalysisType := None;
     displayAnalysisNote := None;
     displayEnlilArrivalTime := None;
     displayEnlilDuration := None;
     displayEnlilImpactLocations := None;
     isPotentiallyEarthDirected := None |}.

Definition enhanceCMEData (cme : CME) : res EnhancedCME :=
  let enhanced := spread cme in
  let enhanced :=
    set_isPotentiallyEarthDirected enhanced (Some (isPotentiallyEarthRelevant cme)) in
  let mostAccurateAnalysis := cmeAnalyses cme ≫= List.find isMostAccurate in
  let relevantAnalysis :=
    match mostAccurateAnalysis with
    | Some a => Some a
    | None => cmeAnalyses cme ≫= head
    end in
  match relevantAnalysis with
  | Some relevantAnalysis =>
      let enhanced :=
        set_displayAnalysis enhanced
          (Some (speed relevantAnalysis)) (Some (halfAngle relevantAnalysis))
          (Some (type relevantAnalysis)) (an_note relevantAnalysis) in
      let earthEnlilSimulations :=
        List.filter isEarthEnlil <$> enlilList relevantAnalysis in
      let firstEarthEnlil := earthEnlilSimulations ≫= head in
      match firstEarthEnlil with
      | Some firstEarthEnlil =>
          let enhanced :=
            set_displayEnlilArrivalTime enhanced
              (estimatedShockArrivalTime firstEarthEnlil) in
          let enhanced :=
            set_displayEnlilDuration enhanced (estimatedDuration firstEarthEnlil) in
          let enhanced :=
            set_displayEnlilImpactLocations enhanced
              (Some match impactList firstEarthEnlil with
                    | Some imps => map location imps
                    | None =>
                        if bool_decide (isEarthGB firstEarthEnlil = Some true)
                        then ["Earth Geospace"] else []
                    end) in
          if truthyOStr (estimatedShockArrivalTime firstEarthEnlil)
          then mret (set_earthImpactScore enhanced (Some (Fin 1)))
          else mret (set_earthImpactScore enhanced (Some (Fin 2)))
      | None =>
          if noteMentionsEarth (an_note relevantAnalysis) then
            let anyEnlilWithImpact :=
              enlilList relevantAnalysis
                ≫= List.find (fun e => nonEmpty (impactList e)) in
            enhanced ←
              match anyEnlilWithImpact with
              | Some anyEnlilWithImpact =>
                  if ogt (earthImpactScore enhanced) (Fin 2) then
                    imps ← deref (impactList anyEnlilWithImpact);
                    imp0 ← deref (head imps);
                    mret (set_displayEnlilArrivalTime enhanced
                            (Some (arrivalTime imp0)))
                  else mret enhanced
              | None => mret enhanced
              end;
            if ogt (earthImpactScore enhanced) (Fin 2)
            then mret (set_earthImpactScore enhanced (Some (Fin 3)))
            else mret enhanced
          else if nonEmpty (enlilList relevantAnalysis) then
            if ogt (earthImpactScore enhanced) (Fin 3)
            then mret (set_earthImpactScore enhanced (Some (Fin 4)))
            else mret enhanced
          else mret enhanced
      end
  | None => mret enhanced
  end.

End Enrich.

(** ** Flares and shocks *)

Record SolarFlare : Type := {
  flrID : string;
  beginTime : string;
  classType : string;
  fl_link : string;
  fl_linkedEvents : option (list LinkedEvent);
  associatedCMEs : option positive
}.

Record InterplanetaryShock : Type := {
  ipsID : string;
  eventTime : string;
  ips_link : string;
  ips_linkedEvents : option (list LinkedEvent);
  associatedCMESpeed : option num;
  associatedCMEStartTime : option string;
  associatedCMELink : option string;
  associatedCMEActivityID : option string
}.

(** ** The object store

    Enhanced CMEs are objects shared by reference between the array
    returned by the enrichment pass and the [cmeMap] lookup; the
    [linkedCMEInfos] arrays are allocated and grown in place.  Both live
    in one store, so that what a correlation pass writes is explicit. *)

Module Store.

Inductive cell : Type :=
| CmeObj (c : EnhancedCME)
| InfoArray (a : list AssociatedCMEInfo).

Definition M (A : Type) : Type := gmap positive cell → res (A * gmap positive cell).

#[global] Instance M_ret : MRet M := fun A a σ => Ok (a, σ).
#[global] Instance M_bind : MBind M := fun A B f m σ =>
  match m σ with
  | Ok (a, σ') => f a σ'
  | TypeError => TypeError
  end.

(** A computation of the enrichment engine, run without touching the
    store. *)
Definition lift {A} (r : res A) : M A := fun σ =>
  match r with
  | Ok a => Ok (a, σ)
  | TypeError => TypeError
  end.

(** [new] object or array literal. *)
Definition alloc (c : cell) : M positive := fun σ =>
  let l := fresh (dom σ) in Ok (l, <[l := c]> σ).

(** Reading the fields of the enhanced CME behind a reference. *)
Definition readCME (l : positive) : M EnhancedCME := fun σ =>
  match σ !! l with
  | Some (CmeObj c) => Ok (c, σ)
  | _ => TypeError
  end.

(** Overwriting the object behind a reference. *)
Definition write (l : positive) (c : cell) : M unit := fun σ =>
  Ok (tt, <[l := c]> σ).

(** [arr.push(x)]: the array behind [l] is replaced by the longer one. *)
Definition push (l : positive) (x : AssociatedCMEInfo) : M unit := fun σ =>
  match σ !! l with
  | Some (InfoArray a) => write l (InfoArray (a ++ [x])) σ
  | _ => TypeError
  end.

(** [arr.length]. *)
Definition arrayLength (l : positive) : M nat := fun σ =>
  match σ !! l with
  | Some (InfoArray a) => Ok (length a, σ)
  | _ => TypeError
  end.

(** [arr.map(f)] for an effectful callback. *)
Fixpoint mapM {A B} (f : A → M B) (l : list A) : M (list B) :=
  match l with
  | [] => mret []
  | x :: l' => y ← f x; ys ← mapM f l'; mret (y :: ys)
  end.

End Store.

Import Store.

(** ** The cross-event correlator (dashboard component) *)

Module Correlate.

(** [enhanced.forEach(cme => cmeMap.set(cme.activityID, cme))], the map
    holding references. *)
Fixpoint fillCmeMap (enhanced : list positive) (cmeMap : gmap string positive)
  : M (gmap string positive) :=
  match enhanced with
  | [] => mret cmeMap
  | l :: rest =>
      cme ← readCME l;
      fillCmeMap rest (<[activityID (raw cme) := l]> cmeMap)
  end.

(** [flare.linkedEvents.forEach(le => ...)] of the flare pass. *)
Fixpoint collectLinked (cmeMap : gmap string positive) (linkedCMEInfos : positive)
    (les : list LinkedEvent) : M unit :=
  match les with
  | [] => mret tt
  | le :: rest =>
      match cmeMap !! le_activityID le with
      | Some l =>
          linkedEnhancedCME ← readCME l;
          push linkedCMEInfos
            {| ai_activityID := activityID (raw linkedEnhancedCME);
               ai_startTime := Some (startTime (raw linkedEnhancedCME));
               ai_note := Some (note (raw linkedEnhancedCME));
               ai_link := Some (link (raw linkedEnhancedCME));
               ai_earthImpactScore := earthImpactScore linkedEnhancedCME |};;
          collectLinked cmeMap linkedCMEInfos rest
      | None => collectLinked cmeMap linkedCMEInfos rest
      end
  end.

(** The callback of [solarFlares.map]. *)
Definition correlateFlare (cmeMap : gmap string positive) (flare : SolarFlare)
  : M SolarFlare :=
  linkedCMEInfos ← alloc (InfoArray []);
  match fl_linkedEvents flare with
  | Some les => collectLinked cmeMap linkedCMEInfos les
  | None => mret tt
  end;;
  n ← arrayLength linkedCMEInfos;
  mret {| flrID := flrID flare; beginTime := beginTime flare;
          classType := classType flare; fl_link := fl_link flare;
          fl_linkedEvents := fl_linkedEvents flare;
          associatedCMEs := if (0 <? n)%nat then Some linkedCMEInfos else None |}.

(** The correlation part of [loadFlareAndCorrelateData], from the array
    of enhanced CMEs and the fetched flares up to the final sort by
    [beginTime]. *)
Definition correlateFlares (enhanced : list positive) (solarFlares : list SolarFlare)
  : M (list SolarFlare) :=
  cmeMap ← fillCmeMap enhanced ∅;
  mapM (correlateFlare cmeMap) solarFlares.

(** The four local variables of the shock callback. *)
Record Causative : Type := {
  cSpeed : option num;
  cStartTime : option string;
  cLink : option string;
  cActivityID : option string
}.

(** [for (const le of ips.linkedEvents) { ...; break; }]. *)
Fixpoint firstLinked (cmeMap : gmap string positive) (les : list LinkedEvent)
    (vars : Causative) : M Causative :=
  match les with
  | [] => mret vars
  | le :: rest =>
      match cmeMap !! le_activityID le with
      | Some l =>
          linkedCME ← readCME l;
          mret {| cSpeed := orUndefined (displayAnalysisSpeed linkedCME);
                  cStartTime := Some (startTime (raw linkedCME));
                  cLink := Some (link (raw linkedCME));
                  cActivityID := Some (activityID (raw linkedCME)) |}
      | None => firstLinked cmeMap rest vars
      end
  end.

(** The callback of [ipsEvents.map]. *)
Definition correlateShock (cmeMap : gmap string positive) (ips : InterplanetaryShock)
  : M InterplanetaryShock :=
  let vars := {| cSpeed := None; cStartTime := None;
                 cLink := None; cActivityID := None |} in
  vars ← match ips_linkedEvents ips with
         | Some les => firstLinked cmeMap les vars
         | None => mret vars
         end;
  mret {| ipsID := ipsID ips; eventTime := eventTime ips;
          ips_link := ips_link ips;
          ips_linkedEvents := ips_linkedEvents ips;
          associatedCMESpeed := cSpeed vars;
          associatedCMEStartTime := cStartTime vars;
          associatedCMELink := cLink vars;
          associatedCMEActivityID := cActivityID vars |}.

Definition correlateShocks (enhanced : list positive) (ipsEvents : list InterplanetaryShock)
  : M (list InterplanetaryShock) :=
  cmeMap ← fillCmeMap enhanced ∅;
  mapM (correlateShock cmeMap) ipsEvents.

(** [rawCmes.map(enhanceCMEData)]: every enhanced record is a fresh
    object. *)
Definition enhanceAll (rawCmes : list CME) : M (list positive) :=
  mapM (fun cme => e ← lift (Enrich.enhanceCMEData cme); alloc (CmeObj e)) rawCmes.

End Correlate.

(** ** The ranking and partition engine (dashboard component) *)

Module Rank.

(** [Array.prototype.sort] with a comparator: a stable sort that places
    [x] after [y] only when the comparator is strictly positive (a NaN
    result counts as zero).  For a consistent comparator the result does
    not depend on the algorithm; insertion from the right is used. *)
Section Sort.
Context {A : Type} (comparefn : A → A → num).

Fixpoint insertSorted (x : A) (l : list A) : list A :=
  match l with
  | [] => [x]
  | y :: l' =>
      if ngt (comparefn x y) (Fin 0) then y :: insertSorted x l' else x :: l
  end.

Definition sort (l : list A) : list A := foldr insertSorted [] l.
End Sort.

Section Partition.
(** [new Date(s).getTime()]: milliseconds since the epoch, NaN for a
    string that is not a date. *)
Variable getTime : string → num.

(** The comparator of [earthDirectedCMEs]. *)
Definition compareCMEs (a b : EnhancedCME) : num :=
  if osne (earthImpactScore a) (earthImpactScore b) then
    nsub (orInfinity (earthImpactScore a)) (orInfinity (earthImpactScore b))
  else
    let byStart :=
      nsub (getTime (startTime (raw b))) (getTime (startTime (raw a))) in
    if oseq (earthImpactScore a) (Fin 1) && oseq (earthImpactScore b) (Fin 1) then
      let timeA :=
        match displayEnlilArrivalTime a with
        | Some t => if truthyStr t then getTime t else PInf
        | None => PInf
        end in
      let timeB :=
        match displayEnlilArrivalTime b with
        | Some t => if truthyStr t then getTime t else PInf
        | None => PInf
        end in
      if nsne timeA timeB then nsub timeA timeB else byStart
    else byStart.

Definition earthDirectedCMEs (processedCMEs : list EnhancedCME) : list EnhancedCME :=
  sort compareCMEs
    (List.filter (fun cme => nle (orInfinity (earthImpactScore cme)) (Fin 3))
       processedCMEs).

Definition otherCMEs (processedCMEs : list EnhancedCME) : list EnhancedCME :=
  List.filter
    (fun cme =>
       negb (bool_decide (is_Some
         (List.find (fun edCME => String.eqb (activityID (raw edCME)) (activityID (raw cme)))
            (earthDirectedCMEs processedCMEs)))))
    processedCMEs.

End Partition.

(** A date parser for the UTC form [YYYY-MM-DDTHH:mmZ] used by the feed,
    giving milliseconds since 1970-01-01; every other string is NaN. *)
Definition digit (c : ascii) : option Z :=
  let n := Z.of_N (N_of_ascii c) in
  if (48 <=? n) && (n <=? 57) then Some (n - 48) else None.

Fixpoint digits (cs : list ascii) (acc : Z) : option Z :=
  match cs with
  | [] => Some acc
  | c :: cs' => d ← digit c; digits cs' (10 * acc + d)
  end.

(** Days from the epoch to a civil date of the proleptic Gregorian
    calendar. *)
Definition daysFromCivil (y m d : Z) : Z :=
  let y' := if m <=? 2 then y - 1 else y in
  let era := y' / 400 in
  let yoe := y' - era * 400 in
  let mp := (m + 9) mod 12 in
  let doy := (153 * mp + 2) / 5 + d - 1 in
  let doe := yoe * 365 + yoe / 4 - yoe / 100 + doy in
  era * 146097 + doe - 719468.

Definition isoTime (s : string) : num :=
  match list_ascii_of_string s with
  | [y1; y2; y3; y4; d1; m1; m2; d2; dd1; dd2; t; h1; h2; c; mi1; mi2; z] =>
      if Ascii.eqb d1 "-" && Ascii.eqb d2 "-" && Ascii.eqb t "T"
         && Ascii.eqb c ":" && Ascii.eqb z "Z" then
        match digits [y1; y2; y3; y4] 0, digits [m1; m2] 0, digits [dd1; dd2] 0,
              digits [h1; h2] 0, digits [mi1; mi2] 0 with
        | Some y, Some m, Some d, Some h, Some mi =>
            if (1 <=? m) && (m <=? 12) && (1 <=? d) && (d <=? 31)
               && (h <=? 23) && (mi <=? 59)
            then Fin (((daysFromCivil y m d * 24 + h) * 60 + mi) * 60000)
            else NaN
        | _, _, _, _, _ => NaN
        end
      else NaN
  | _ => NaN
  end.

End Rank.

(** ** The stated behaviour, in the words of the specification *)

Module Spec.

(** [x] is the first element of [l], in order, that satisfies [P]. *)
Definition FirstSuch {A} (P : A → Prop) (l : list A) (x : A) : Prop :=
  ∃ pre post, l = pre ++ x :: post ∧ P x ∧ Forall (fun y => ¬ P y) pre.

Definition analysesOf (cme : CME) : list CMEAnalysis :=
  default [] (cmeAnalyses cme).

Definition simulationsOf (a : CMEAnalysis) : list EnlilSimulation :=
  default [] (enlilList a).

Definition impactsOf (s : EnlilSimulation) : list EnlilImpact :=
  default [] (impactList s).

(** The relevant analysis: the first analysis flagged most accurate,
    else the first analysis in feed order. *)
Definition RelevantAnalysis (cme : CME) (a : CMEAnalysis) : Prop :=
  FirstSuch (fun x => isMostAccurate x = true) (analysesOf cme) a
  ∨ (Forall (fun x => isMostAccurate x = false) (analysesOf cme)
     ∧ head (analysesOf cme) = Some a).

(** An Earth-flagged simulation. *)
Definition EarthFlagged (s : EnlilSimulation) : Prop :=
  isEarthGB s = Some true
  ∨ ∃ imp, imp ∈ impactsOf s ∧ location imp = "Earth".

(** The primary Earth simulation of an analysis. *)
Definition PrimaryEarthSim (a : CMEAnalysis) (s : EnlilSimulation) : Prop :=
  FirstSuch EarthFlagged (simulationsOf a) s.

(** Two characters that are the same letter up to case. *)
Definition sameLetter (a b : ascii) : Prop :=
  a = b
  ∨ (isUpper a = true ∧ (N_of_ascii a + 32 = N_of_ascii b)%N)
  ∨ (isUpper b = true ∧ (N_of_ascii b + 32 = N_of_ascii a)%N).

Inductive caseless : string → string → Prop :=
| caseless_nil : caseless EmptyString EmptyString
| caseless_cons a b s t :
    sameLetter a b → caseless s t → caseless (String a s) (String b t).

(** [s] contains [needle] as a case-insensitive substring. *)
Definition ContainsCaseless (needle s : string) : Prop :=
  ∃ pre mid post, s = (pre ++ mid ++ post)%string ∧ caseless mid needle.

Definition MentionsEarth (n : option string) : Prop :=
  ∃ s, n = Some s ∧ ContainsCaseless "earth" s.

(** The relevance flag of step 1. *)
Definition EarthRelevant (cme : CME) : Prop :=
  ∃ a, a ∈ analysesOf cme
       ∧ (isMostAccurate a = true
          ∨ simulationsOf a ≠ []
          ∨ MentionsEarth (an_note a)).

(** The ordered decision list of step 5, as a function of the raw
    record.  [rule3] is the condition of the third rule. *)
Definition relevantAnalysis (cme : CME) : option CMEAnalysis :=
  match List.find isMostAccurate (analysesOf cme) with
  | Some a => Some a
  | None => head (analysesOf cme)
  end.

Definition earthFlagged (s : EnlilSimulation) : bool :=
  bool_decide (isEarthGB s = Some true)
  || existsb (fun imp => String.eqb (location imp) "Earth") (impactsOf s).

Definition primaryEarthSim (a : CMEAnalysis) : option EnlilSimulation :=
  List.find earthFlagged (simulationsOf a).

Definition ruleTier (rule3 : CMEAnalysis → bool) (cme : CME) : num :=
  match relevantAnalysis cme with
  | None => PInf
  | Some a =>
      match primaryEarthSim a with
      | Some s =>
          match estimatedShockArrivalTime s with
          | Some _ => Fin 1
          | None => Fin 2
          end
      | None =>
          if rule3 a then Fin 3
          else match simulationsOf a with
               | _ :: _ => Fin 4
               | [] => PInf
               end
      end
  end.

(** Rule 3 as written: the note mentions "earth" and some simulation has
    a non-empty impact list. *)
Definition rule3Stated (a : CMEAnalysis) : bool :=
  Enrich.noteMentionsEarth (an_note a)
  && existsb (fun s => match impactsOf s with _ :: _ => true | [] => false end)
       (simulationsOf a).

(** Rule 3 without its impact-list condition. *)
Definition rule3NoteOnly (a : CMEAnalysis) : bool :=
  Enrich.noteMentionsEarth (an_note a).

(** Some ENLIL simulation of some analysis of the CME is Earth-flagged
    and bears a non-null arrival time. *)
Definition HasEarthArrival (cme : CME) : Prop :=
  ∃ a s t, a ∈ analysesOf cme ∧ s ∈ simulationsOf a
           ∧ EarthFlagged s ∧ estimatedShockArrivalTime s = Some t.

(** The summary of an enhanced CME attached to a flare. *)
Definition summary (c : EnhancedCME) : AssociatedCMEInfo :=
  {| ai_activityID := activityID (raw c);
     ai_startTime := Some (startTime (raw c));
     ai_note := Some (note (raw c));
     ai_link := Some (link (raw c));
     ai_earthImpactScore := earthImpactScore c |}.

(** The enhanced CME an activity ID resolves to: the last one of the set
    carrying that ID. *)
Definition resolve (cs : list EnhancedCME) (id : string) : option EnhancedCME :=
  last (List.filter (fun c => String.eqb (activityID (raw c)) id) cs).

Definition linksOf (les : option (list LinkedEvent)) : list string :=
  le_activityID <$> default [] les.

(** The summaries of the linked IDs that resolve, in reference order. *)
Definition resolvedSummaries (cs : list EnhancedCME) (ids : list string)
  : list AssociatedCMEInfo :=
  omap (fun id => summary <$> resolve cs id) ids.

(** The causative CME of a shock: the first linked ID that resolves. *)
Definition causative (cs : list EnhancedCME) (ids : list string)
  : option EnhancedCME :=
  head (omap (resolve cs) ids).

(** No enhanced CME of the store is changed or removed. *)
Definition PreservesCMEs (σ σ' : gmap positive cell) : Prop :=
  ∀ l c, σ !! l = Some (CmeObj c) → σ' !! l = Some (CmeObj c).

(** The store holds the enhanced CMEs [cs] behind the references
    [refs]. *)
Definition Holds (σ : gmap positive cell) (refs : list positive)
    (cs : list EnhancedCME) : Prop :=
  Forall2 (fun l c => σ !! l = Some (CmeObj c)) refs cs.

(** The lookup [m] sends an activity ID to a reference to the enhanced
    CME the ID resolves to. *)
Definition Indexes (σ : gmap positive cell) (m : gmap string positive)
    (cs : list EnhancedCME) : Prop :=
  ∀ id, match m !! id with
        | Some l => ∃ c, σ !! l = Some (CmeObj c) ∧ resolve cs id = Some c
        | None => resolve cs id = None
        end.

(** [flare'] is [flare] annotated against the enhanced CMEs [cs]: the
    summaries of the resolvable links, in order, or no annotation when
    none resolves. *)
Definition FlareAnnotated (cs : list EnhancedCME) (σ : gmap positive cell)
    (flare flare' : SolarFlare) : Prop :=
  flrID flare' = flrID flare
  ∧ beginTime flare' = beginTime flare
  ∧ classType flare' = classType flare
  ∧ fl_link flare' = fl_link flare
  ∧ fl_linkedEvents flare' = fl_linkedEvents flare
  ∧ match associatedCMEs flare' with
    | Some arr =>
        σ !! arr
        = Some (InfoArray (resolvedSummaries cs (linksOf (fl_linkedEvents flare))))
        ∧ resolvedSummaries cs (linksOf (fl_linkedEvents flare)) ≠ []
    | None => resolvedSummaries cs (linksOf (fl_linkedEvents flare)) = []
    end.

(** [ips'] is [ips] annotated with its causative CME: the display speed
    when it is a non-zero number, the start time, the link and the
    activity ID; nothing when no link resolves. *)
Definition ShockAnnotated (cs : list EnhancedCME)
    (ips ips' : InterplanetaryShock) : Prop :=
  ipsID ips' = ipsID ips
  ∧ eventTime ips' = eventTime ips
  ∧ ips_link ips' = ips_link ips
  ∧ ips_linkedEvents ips' = ips_linkedEvents ips
  ∧ match causative cs (linksOf (ips_linkedEvents ips)) with
    | Some c =>
        associatedCMESpeed ips' = orUndefined (displayAnalysisSpeed c)
        ∧ associatedCMEStartTime ips' = Some (startTime (raw c))
        ∧ associatedCMELink ips' = Some (link (raw c))
        ∧ associatedCMEActivityID ips' = Some (activityID (raw c))
    | None =>
        associatedCMESpeed ips' = None
        ∧ associatedCMEStartTime ips' = None
        ∧ associatedCMELink ips' = None
        ∧ associatedCMEActivityID ips' = None
    end.

(** The ranking order of the Earth-directed partition. *)
Section Order.
Variable getTime : string → num.

Definition ValidDate (t : string) : Prop :=
  t ≠ EmptyString ∧ ∃ z, getTime t = Fin z.

(** The start time is a date, and so is the arrival time of an entry
    scoring 1, when present. *)
Definition ValidTimes (c : EnhancedCME) : Prop :=
  ValidDate (startTime (raw c))
  ∧ (earthImpactScore c = Some (Fin 1) →
     ∀ t, displayEnlilArrivalTime c = Some t → ValidDate t).

Definition arrivalKey (c : EnhancedCME) : num :=
  match displayEnlilArrivalTime c with
  | Some t => getTime t
  | None => PInf
  end.

Definition startKey (c : EnhancedCME) : num := getTime (startTime (raw c)).

(** An entry that passes the filter of the Earth-directed partition and
    has valid times. *)
Definition Rankable (c : EnhancedCME) : Prop :=
  ValidTimes c ∧ nle (orInfinity (earthImpactScore c)) (Fin 3) = true.

(** [a] is ranked no later than [b]. *)
Definition RankedBefore (a b : EnhancedCME) : Prop :=
  ∃ sa sb, earthImpactScore a = Some sa ∧ earthImpactScore b = Some sb ∧
    (nlt sa sb = true
     ∨ (sa = sb ∧
        ((sa = Fin 1 ∧ nlt (arrivalKey a) (arrivalKey b) = true)
         ∨ ((sa = Fin 1 → arrivalKey a = arrivalKey b)
            ∧ nle (startKey b) (startKey a) = true)))).
End Order.

(** The score invariant of the data model. *)
Definition ScoreInRange (c : EnhancedCME) : Prop :=
  earthImpactScore c = None
  ∨ earthImpactScore c ∈ [Some (Fin 1); Some (Fin 2); Some (Fin 3); Some (Fin 4); Some PInf].

(** [earthImpactScore ≤ 3]. *)
Definition ScoreAtMost3 (c : EnhancedCME) : Prop :=
  ∃ s, earthImpactScore c = Some s ∧ nle s (Fin 3) = true.

End Spec.

(** ** Sample records *)

Module Examples.

Definition sim (arrival : option string) (earthGB : option bool)
    (imps : option (list EnlilImpact)) : EnlilSimulation :=
  {| estimatedShockArrivalTime := arrival; estimatedDuration := Some (Fin 18);
     isEarthGB := earthGB; impactList := imps |}.

Definition analysis (accurate : bool) (nt : option string)
    (sims : option (list EnlilSimulation)) : CMEAnalysis :=
  {| halfAngle := Fin 35; speed := Fin 820; type := "C";
     isMostAccurate := accurate; an_note := nt; enlilList := sims |}.

Definition cme (id start : string) (analyses : option (list CMEAnalysis)) : CME :=
  {| activityID := id; startTime := start; sourceLocation := "N12E08";
     note := "halo"; link := "https://kauai.ccmc.gsfc.nasa.gov/DONKI/view/CME/1";
     linkedEvents := None; cmeAnalyses := analyses |}.

(** CME [A]: a most-accurate analysis with one Earth-geomagnetic
    simulation that carries an arrival time. *)
Definition simA : EnlilSimulation := sim (Some "2024-03-01T12:00Z") (Some true) None.
Definition anA : CMEAnalysis := analysis true (Some EmptyString) (Some [simA]).
Definition cmeA : CME := cme "A" "2024-02-28T06:00Z" (Some [anA]).

(** CME [B]: no [cmeAnalyses] field. *)
Definition cmeB : CME := cme "B" "2024-02-27T03:00Z" None.

(** An Earth-geomagnetic simulation whose arrival time is the empty
    string. *)
Definition simE : EnlilSimulation := sim (Some EmptyString) (Some true) None.
Definition anE : CMEAnalysis := analysis true (Some EmptyString) (Some [simE]).
Definition cmeE : CME := cme "E" "2024-02-26T03:00Z" (Some [anE]).

(** Two Earth-flagged simulations, only the second with an arrival
    time. *)
Definition simNoArrival : EnlilSimulation := sim None (Some true) None.
Definition anX : CMEAnalysis := analysis true (Some EmptyString) (Some [simNoArrival; simA]).
Definition cmeX : CME := cme "X" "2024-02-25T03:00Z" (Some [anX]).

(** An analysis whose note mentions Earth, without any simulation. *)
Definition anY : CMEAnalysis := analysis false (Some "Possible Earth-directed component") None.
Definition cmeY : CME := cme "Y" "2024-02-24T03:00Z" (Some [anY]).

(** A most-accurate analysis with nothing else. *)
Definition anZ : CMEAnalysis := analysis true (Some "far side event") None.
Definition cmeZ : CME := cme "Z" "2024-02-23T03:00Z" (Some [anZ]).

(** Enhanced records for the ranking engine. *)
Definition enhanced (c : CME) (score : option num) (arrival : option string)
  : EnhancedCME :=
  {| raw := c; earthImpactScore := score;
     displayAnalysisSpeed := Some (Fin 820);
     displayAnalysisHalfAngle := Some (Fin 35);
     displayAnalysisType := Some "C"; displayAnalysisNote := Some EmptyString;
     displayEnlilArrivalTime := arrival; displayEnlilDuration := Some (Fin 18);
     displayEnlilImpactLocations := Some ["Earth Geospace"];
     isPotentiallyEarthDirected := Some true |}.

(** Two CMEs scoring 1, arriving at 10:00 and at 08:00. *)
Definition late : EnhancedCME :=
  enhanced (cme "L" "2023-12-30T02:00Z" None) (Some (Fin 1)) (Some "2024-01-01T10:00Z").
Definition early : EnhancedCME :=
  enhanced (cme "K" "2023-12-29T22:00Z" None) (Some (Fin 1)) (Some "2024-01-01T08:00Z").

(** What [enhanceCMEData] returns for [cmeA], and for a second record
    of the feed that carries the same activity ID and no analyses. *)
Definition hitA : EnhancedCME :=
  enhanced cmeA (Some (Fin 1)) (Some "2024-03-01T12:00Z").
Definition cmeA2 : CME := cme "A" "2024-02-20T00:00Z" None.
Definition missA : EnhancedCME :=
  {| raw := cmeA2; earthImpactScore := Some PInf;
     displayAnalysisSpeed := None; displayAnalysisHalfAngle := None;
     displayAnalysisType := None; displayAnalysisNote := None;
     displayEnlilArrivalTime := None; displayEnlilDuration := None;
     displayEnlilImpactLocations := None;
     isPotentiallyEarthDirected := Some false |}.

(** A store holding two enhanced CMEs, and a flare that links to three
    activity IDs of which ["Q"] is outside the fetch window. *)
Definition zedZ : EnhancedCME := enhanced cmeZ (Some PInf) None.

Definition store0 : gmap positive cell :=
  <[1%positive := CmeObj hitA]> (<[2%positive := CmeObj zedZ]> ∅).

Definition flareF : SolarFlare :=
  {| flrID := "F"; beginTime := "2024-02-28T05:10Z"; classType := "M1.2";
     fl_link := "https://kauai.ccmc.gsfc.nasa.gov/DONKI/view/FLR/1";
     fl_linkedEvents :=
       Some [ {| le_activityID := "A" |}; {| le_activityID := "Q" |};
              {| le_activityID := "Z" |} ];
     associatedCMEs := None |}.

(** A CME whose analysis reports speed 0, as [enhanceCMEData] returns
    it, and a shock linked to it. *)
Definition anS : CMEAnalysis :=
  {| halfAngle := Fin 20; speed := Fin 0; type := "S"; isMostAccurate := true;
     an_note := Some EmptyString; enlilList := None |}.
Definition cmeS : CME := cme "S" "2024-02-22T03:00Z" (Some [anS]).
Definition slowS : EnhancedCME :=
  {| raw := cmeS; earthImpactScore := Some PInf;
     displayAnalysisSpeed := Some (Fin 0);
     displayAnalysisHalfAngle := Some (Fin 20);
     displayAnalysisType := Some "S"; displayAnalysisNote := Some EmptyString;
     displayEnlilArrivalTime := None; displayEnlilDuration := None;
     displayEnlilImpactLocations := None;
     isPotentiallyEarthDirected := Some true |}.

Definition storeS : gmap positive cell := <[1%positive := CmeObj slowS]> ∅.

Definition shockI : InterplanetaryShock :=
  {| ipsID := "I"; eventTime := "2024-02-24T10:00Z";
     ips_link := "https://kauai.ccmc.gsfc.nasa.gov/DONKI/view/IPS/1";
     ips_linkedEvents := Some [ {| le_activityID := "S" |} ];
     associatedCMESpeed := None; associatedCMEStartTime := None;
     associatedCMELink := None; associatedCMEActivityID := None |}.

(** A flare whose only link is CME [A]. *)
Definition flareA : SolarFlare :=
  {| flrID := "G"; beginTime := "2024-02-28T05:40Z"; classType := "C4.0";
     fl_link := "https://kauai.ccmc.gsfc.nasa.gov/DONKI/view/FLR/2";
     fl_linkedEvents := Some [ {| le_activityID := "A" |} ];
     associatedCMEs := None |}.

End Examples.


(** ** The HTTP service (service module) *)

Module Service.

(** Errors thrown by the service: the custom [NonRetryableError] and the
    plain [Error], each with its message. *)
Inductive JsError : Type :=
| NonRetryableError (message : string)
| Error (message : string).

Definition errorMessageOf (e : JsError) : string :=
  match e with
  | NonRetryableError m => m
  | Error m => m
  end.

(** The JSON body of an error response, as far as it is read:
    [errorData.message] and [errorData.error], the latter with its own
    [message] when it is an object. *)
Record ErrorData : Type := {
  ed_message : option string;
  ed_error : option (option string)
}.

(** What one call of [fetch] does: it rejects (network failure), or
    resolves to a response.  For a response with [ok] set, [json()]
    resolves to the data or rejects; for one without, the status, the
    status text and the error body ([None] when [json()] rejects). *)
Inductive Attempt (T : Type) : Type :=
| Rejects (message : string)
| RespondsOk (json : T + string)
| RespondsError (status : Z) (statusText : string) (errorData : option ErrorData).
Arguments Rejects {T} message.
Arguments RespondsOk {T} json.
Arguments RespondsError {T} status statusText errorData.

(** What a run of [fetchData] did: its result, the number of calls of
    [fetch], and the delays it waited, in order. *)
Record Outcome (T : Type) : Type := {
  result : T + JsError;
  requests : nat;
  slept : list Z
}.
Arguments result {T} o.
Arguments requests {T} o.
Arguments slept {T} o.

(** [errorData.message || (errorData.error && errorData.error.message)
    || response.statusText], with [statusText] kept when [json()]
    rejects. *)
Definition errorMessage (statusText : string) (errorData : option ErrorData) : string :=
  match errorData with
  | None => statusText
  | Some d =>
      match ed_message d with
      | Some m => if truthyStr m then m else
          match ed_error d with
          | Some (Some m') => if truthyStr m' then m' else statusText
          | _ => statusText
          end
      | None =>
          match ed_error d with
          | Some (Some m') => if truthyStr m' then m' else statusText
          | _ => statusText
          end
      end
  end.

Section FetchData.
Context {T : Type}.
Variable url : string.
Variable maxRetries initialDelayMs : Z.
(** The [n]-th call of [fetch] (counting from 0) behaves as [world n]. *)
Variable world : nat → Attempt T.

Definition httpErrorMessage (status : Z) (statusText : string)
    (errorData : option ErrorData) : string :=
  ("API Error (" ++ pretty status ++ ") from " ++ url ++ ": "
   ++ errorMessage statusText errorData)%string.

(** [initialDelayMs * Math.pow(2, attempt)]. *)
Definition backoff (attempt : Z) : Z := initialDelayMs * 2 ^ attempt.

(** The error thrown by the [catch] clause on the last attempt. *)
Definition finalError (lastMessage : string) : JsError :=
  if includes (toLowerCase lastMessage) "failed to fetch" then
    Error ("Could not connect to " ++ url ++ " after " ++ pretty (maxRetries + 1)
           ++ " attempts. This may be due to network issues, CORS restrictions, browser extensions, or the service being offline. (Details: "
           ++ lastMessage ++ ")")%string
  else
    Error ("Failed to fetch data from " ++ url ++ " after " ++ pretty (maxRetries + 1)
           ++ " attempts." ++ " Last error: " ++ lastMessage)%string.

(** The code after the loop. *)
Definition afterLoop (lastError : option JsError) : JsError :=
  match lastError with
  | Some e => e
  | None =>
      Error ("Exhausted retries for " ++ url
             ++ " but no definitive error was captured.")%string
  end.

(** The loop [for (attempt = 0; attempt <= maxRetries; attempt++)], with
    [n] iterations left to run. *)
Fixpoint attemptsFrom (n : nat) (attempt : Z) (calls : nat)
    (lastError : option JsError) (waited : list Z) : Outcome T :=
  match n with
  | O => {| result := inr (afterLoop lastError); requests := calls; slept := waited |}
  | S n' =>
      (* the [catch] clause, for an error that is not a
         [NonRetryableError] *)
      let caught (message : string) : Outcome T :=
        if attempt =? maxRetries then
          {| result := inr (finalError message); requests := S calls;
             slept := waited |}
        else
          attemptsFrom n' (attempt + 1) (S calls) (Some (Error message))
            (waited ++ [backoff attempt]) in
      match world calls with
      | Rejects message => caught message
      | RespondsOk (inl data) =>
          {| result := inl data; requests := S calls; slept := waited |}
      | RespondsOk (inr message) => caught message
      | RespondsError status statusText errorData =>
          let message := httpErrorMessage status statusText errorData in
          if (400 <=? status) && (status <? 500) then
            {| result := inr (NonRetryableError message); requests := S calls;
               slept := waited |}
          else if attempt <? maxRetries then
            attemptsFrom n' (attempt + 1) (S calls) (Some (Error message))
              (waited ++ [backoff attempt])
          else caught message
      end
  end.

Definition fetchData : Outcome T :=
  attemptsFrom (Z.to_nat (maxRetries + 1)) 0 0 None [].

End FetchData.

(** A DONKI response body, as [getDonkiData] tells the cases apart:
    an array, another truthy value, or a falsy one. *)
Inductive DonkiJson (T : Type) : Type :=
| JsonArray (items : list T)
| JsonSingle (item : T)
| JsonFalsy.
Arguments JsonArray {T} items.
Arguments JsonSingle {T} item.
Arguments JsonFalsy {T}.

Section Donki.
(** The two constants of the constants module that go into the URL. *)
Variables DONKI_API_BASE_URL NASA_API_KEY : string.
Context {T : Type}.

Definition donkiUrl (endpoint : string) (startDate endDate : option string) : string :=
  let url := (DONKI_API_BASE_URL ++ "/" ++ endpoint ++ "?api_key=" ++ NASA_API_KEY)%string in
  let url := match startDate with
             | Some d => if truthyStr d then (url ++ "&startDate=" ++ d)%string else url
             | None => url
             end in
  match endDate with
  | Some d => if truthyStr d then (url ++ "&endDate=" ++ d)%string else url
  | None => url
  end.

(** [fetchData] is called with its defaults: 2 retries, 1000 ms. *)
Definition getDonkiData (endpoint : string) (startDate endDate : option string)
    (world : nat → Attempt (DonkiJson T)) : Outcome (list T) :=
  let o := fetchData (donkiUrl endpoint startDate endDate) 2 1000 world in
  {| result := match result o with
               | inl (JsonArray items) => inl items
               | inl (JsonSingle item) => inl [item]
               | inl JsonFalsy => inl []
               | inr e => inr e
               end;
     requests := requests o; slept := slept o |}.

End Donki.

(** NOAA flux points. *)
Record XRayFluxDataPoint : Type := {
  x_time_tag : string;
  x_flux : QArith_base.Q;
  observed_flux : QArith_base.Q;
  x_energy : string
}.

Record ProtonFluxDataPoint : Type := {
  p_time_tag : string;
  p_flux : QArith_base.Q;
  p_energy : string
}.

Section Flux.
Variable getTime : string → num.
Variables NOAA_XRAY_FLUX_URL NOAA_PROTON_FLUX_URL : string.

(** The [filter], [map] and [sort] of [getXRayFlux]. *)
Definition xrayPoints (data : list XRayFluxDataPoint) : list XRayFluxDataPoint :=
  Rank.sort (fun a b => nsub (getTime (x_time_tag a)) (getTime (x_time_tag b)))
    (map (fun d => {| x_time_tag := x_time_tag d; x_flux := x_flux d;
                      observed_flux := x_flux d; x_energy := x_energy d |})
       (List.filter (fun d => String.eqb (x_energy d) "0.1-0.8nm") data)).

Definition getXRayFlux (world : nat → Attempt (list XRayFluxDataPoint))
  : Outcome (list XRayFluxDataPoint) :=
  let o := fetchData NOAA_XRAY_FLUX_URL 2 1000 world in
  {| result := match result o with
               | inl data => inl (xrayPoints data)
               | inr e => inr e
               end;
     requests := requests o; slept := slept o |}.

(** The [filter] and [sort] of [getProtonFlux]. *)
Definition protonPoints (data : list ProtonFluxDataPoint) : list ProtonFluxDataPoint :=
  Rank.sort (fun a b => nsub (getTime (p_time_tag a)) (getTime (p_time_tag b)))
    (List.filter (fun d => String.eqb (p_energy d) ">=10 MeV") data).

Definition getProtonFlux (world : nat → Attempt (list ProtonFluxDataPoint))
  : Outcome (list ProtonFluxDataPoint) :=
  let o := fetchData NOAA_PROTON_FLUX_URL 2 1000 world in
  {| result := match result o with
               | inl data => inl (protonPoints data)
               | inr e => inr e
               end;
     requests := requests o; slept := slept o |}.

End Flux.

End Service.


(** ** Loading and presenting (dashboard and display components) *)

Module Loaders.
Import Service Correlate.

(** What a loader stores as its error: the message of the error caught,
    the message of a [TypeError] of the engine being left open. *)
Inductive LoadError : Type :=
| Message (m : string)
| EngineTypeError.

Record CmeState : Type := {
  processedCMEs : list EnhancedCME;
  cmeError : option LoadError;
  cmeIsLoading : bool
}.

Record FlareState : Type := {
  processedFlares : list SolarFlare;
  flaresError : option LoadError;
  flaresIsLoading : bool
}.

Record IpsState : Type := {
  processedIPS : list InterplanetaryShock;
  ipsError : option LoadError;
  ipsIsLoading : bool
}.

(** A loader run: the component state it leaves, the store, and the
    number of calls of [fetch] for the CME feed and for the event feed. *)
Record Run (S : Type) : Type := {
  state : S;
  store : gmap positive cell;
  cmeCalls : nat;
  eventCalls : nat
}.
Arguments state {S} r.
Arguments store {S} r.
Arguments cmeCalls {S} r.
Arguments eventCalls {S} r.

(** [donkiCMEs.map(enhanceCMEData)] on values. *)
Fixpoint mapRes {A B} (f : A → res B) (l : list A) : res (list B) :=
  match l with
  | [] => mret []
  | x :: l' => y ← f x; ys ← mapRes f l'; mret (y :: ys)
  end.

(** The highlight condition of the Earth-directed list:
    [(cme.earthImpactScore || Infinity) <= 2]. *)
Definition highlightCondition (cme : EnhancedCME) : bool :=
  nle (orInfinity (earthImpactScore cme)) (Fin 2).

Section Loaders.
Variable getTime : string → num.
Variables DONKI_API_BASE_URL NASA_API_KEY : string.
(** The three dates computed when the component renders. *)
Variables today sevenDaysAgo tenDaysAgo : string.

(** The comparator [new Date(b.t).getTime() - new Date(a.t).getTime()]. *)
Definition byTimeDesc {A} (time : A → string) (a b : A) : num :=
  nsub (getTime (time b)) (getTime (time a)).

Definition getCMEs (startDate endDate : string) (world : nat → Attempt (DonkiJson CME))
  : Outcome (list CME) :=
  getDonkiData DONKI_API_BASE_URL NASA_API_KEY "CME" (Some startDate) (Some endDate) world.

Definition getSolarFlares (startDate endDate : string)
    (world : nat → Attempt (DonkiJson SolarFlare)) : Outcome (list SolarFlare) :=
  getDonkiData DONKI_API_BASE_URL NASA_API_KEY "FLR" (Some startDate) (Some endDate) world.

Definition getInterplanetaryShocks (startDate endDate : string)
    (world : nat → Attempt (DonkiJson InterplanetaryShock))
  : Outcome (list InterplanetaryShock) :=
  getDonkiData DONKI_API_BASE_URL NASA_API_KEY "IPS" (Some startDate) (Some endDate) world.

Definition loadCMEData (world : nat → Attempt (DonkiJson CME)) : CmeState :=
  match result (getCMEs sevenDaysAgo today world) with
  | inl donkiCMEs =>
      match mapRes Enrich.enhanceCMEData donkiCMEs with
      | Ok enhancedCMEs =>
          {| processedCMEs :=
               Rank.sort (byTimeDesc (fun e => startTime (raw e))) enhancedCMEs;
             cmeError := None; cmeIsLoading := false |}
      | TypeError =>
          {| processedCMEs := []; cmeError := Some EngineTypeError;
             cmeIsLoading := false |}
      end
  | inr err =>
      {| processedCMEs := []; cmeError := Some (Message (errorMessageOf err));
         cmeIsLoading := false |}
  end.

Definition flaresFailed (e : LoadError) : FlareState :=
  {| processedFlares := []; flaresError := Some e; flaresIsLoading := false |}.

Definition loadFlareAndCorrelateData
    (cmeWorld : nat → Attempt (DonkiJson CME))
    (flareWorld : nat → Attempt (DonkiJson SolarFlare))
    (σ : gmap positive cell) : Run FlareState :=
  let oc := getCMEs sevenDaysAgo today cmeWorld in
  match result oc with
  | inr err =>
      {| state := flaresFailed (Message (errorMessageOf err)); store := σ;
         cmeCalls := requests oc; eventCalls := 0 |}
  | inl rawCmesForCorrelation =>
      match (refs ← enhanceAll rawCmesForCorrelation; fillCmeMap refs ∅) σ with
      | TypeError =>
          {| state := flaresFailed EngineTypeError; store := σ;
             cmeCalls := requests oc; eventCalls := 0 |}
      | Ok (cmeMap, σ1) =>
          let ofl := getSolarFlares sevenDaysAgo today flareWorld in
          match result ofl with
          | inr err =>
              {| state := flaresFailed (Message (errorMessageOf err)); store := σ1;
                 cmeCalls := requests oc; eventCalls := requests ofl |}
          | inl solarFlares =>
              match mapM (correlateFlare cmeMap) solarFlares σ1 with
              | TypeError =>
                  {| state := flaresFailed EngineTypeError; store := σ1;
                     cmeCalls := requests oc; eventCalls := requests ofl |}
              | Ok (annotated, σ2) =>
                  {| state :=
                       {| processedFlares := Rank.sort (byTimeDesc beginTime) annotated;
                          flaresError := None; flaresIsLoading := false |};
                     store := σ2;
                     cmeCalls := requests oc; eventCalls := requests ofl |}
              end
          end
      end
  end.

Definition ipsFailed (e : LoadError) : IpsState :=
  {| processedIPS := []; ipsError := Some e; ipsIsLoading := false |}.

Definition loadIPSAndCorrelateData
    (cmeWorld : nat → Attempt (DonkiJson CME))
    (ipsWorld : nat → Attempt (DonkiJson InterplanetaryShock))
    (σ : gmap positive cell) : Run IpsState :=
  let oc := getCMEs tenDaysAgo today cmeWorld in
  match result oc with
  | inr err =>
      {| state := ipsFailed (Message (errorMessageOf err)); store := σ;
         cmeCalls := requests oc; eventCalls := 0 |}
  | inl rawCmesForIPSCorrelation =>
      match (refs ← enhanceAll rawCmesForIPSCorrelation; fillCmeMap refs ∅) σ with
      | TypeError =>
          {| state := ipsFailed EngineTypeError; store := σ;
             cmeCalls := requests oc; eventCalls := 0 |}
      | Ok (cmeMap, σ1) =>
          let oi := getInterplanetaryShocks sevenDaysAgo today ipsWorld in
          match result oi with
          | inr err =>
              {| state := ipsFailed (Message (errorMessageOf err)); store := σ1;
                 cmeCalls := requests oc; eventCalls := requests oi |}
          | inl ipsEvents =>
              match mapM (correlateShock cmeMap) ipsEvents σ1 with
              | TypeError =>
                  {| state := ipsFailed EngineTypeError; store := σ1;
                     cmeCalls := requests oc; eventCalls := requests oi |}
              | Ok (annotated, σ2) =>
                  {| state :=
                       {| processedIPS := Rank.sort (byTimeDesc eventTime) annotated;
                          ipsError := None; ipsIsLoading := false |};
                     store := σ2;
                     cmeCalls := requests oc; eventCalls := requests oi |}
              end
          end
      end
  end.

End Loaders.

End Loaders.

Module Widgets.
Import Service.

(** *** Event card *)

(** [truncateText]; [substring(0, maxLength)] of a longer text is its
    first [maxLength] units, none when [maxLength] is negative. *)
Definition truncateText (text : string) (maxLength : option Z) : string :=
  match maxLength with
  | None => text
  | Some m =>
      if Z.of_nat (String.length text) <=? m then text
      else (substring 0 (Z.to_nat m) text ++ "...")%string
  end.

(** What [a && b && <p>...</p>] renders for a number [a]: nothing, the
    number itself when it is [0] or [NaN], or the element. *)
Inductive Conditional (A : Type) : Type :=
| Nothing
| StrayNumber (n : num)
| Shown (a : A).
Arguments Nothing {A}.
Arguments StrayNumber {A} n.
Arguments Shown {A} a.

Record ScoreBadge : Type := {
  badgeScore : num;
  higherConcern : bool
}.

(** The "Earth Impact Score" line of a card. *)
Definition scoreBadge (e : EnhancedCME) : Conditional ScoreBadge :=
  match earthImpactScore e with
  | None => Nothing
  | Some n =>
      if truthy n then
        if nsne n PInf
        then Shown {| badgeScore := n; higherConcern := nle n (Fin 2) |}
        else Nothing
      else StrayNumber n
  end.

(** One entry of "Associated CMEs" on a flare card. *)
Record AssociatedView : Type := {
  av_highlighted : bool;
  av_id : string;
  av_start : option string;
  av_scoreLabel : Conditional num;
  av_note : option string;
  av_link : option string
}.

Section Card.
(** [formatDate], which relies on the platform's date formatting. *)
Variable formatDate : string → string.

Definition associatedView (cmeInfo : AssociatedCMEInfo) : AssociatedView :=
  let isEarthDirectedCME :=
    match ai_earthImpactScore cmeInfo with
    | Some n => nle n (Fin 2)
    | None => false
    end in
  {| av_highlighted := isEarthDirectedCME;
     av_id := ai_activityID cmeInfo;
     av_start := match ai_startTime cmeInfo with
                 | Some t => if truthyStr t then Some (formatDate t) else None
                 | None => None
                 end;
     av_scoreLabel :=
       if isEarthDirectedCME then
         match ai_earthImpactScore cmeInfo with
         | Some n => if truthy n then Shown n else StrayNumber n
         | None => Nothing
         end
       else Nothing;
     av_note := match ai_note cmeInfo with
                | Some n => if truthyStr n then Some (truncateText n (Some 70)) else None
                | None => None
                end;
     av_link := match ai_link cmeInfo with
                | Some l => if truthyStr l then Some l else None
                | None => None
                end |}.
End Card.

(** *** Event list *)

(** [l.slice(0, e)]. *)
Definition sliceTo {A} (l : list A) (e : Z) : list A :=
  let len := Z.of_nat (length l) in
  take (Z.to_nat (if e <? 0 then Z.max (len + e) 0 else Z.min e len)) l.

(** What the list renders: one of four placeholders, or the cards with
    an optional spinner and error banner above them. *)
Inductive View (T : Type) : Type :=
| LoadingSpinner
| ErrorOnly (message : string)
| NoEventsFound
| DataNotAvailable
| Listing (updating : bool) (banner : option string) (cards : list (T * bool)).
Arguments LoadingSpinner {T}.
Arguments ErrorOnly {T} message.
Arguments NoEventsFound {T}.
Arguments DataNotAvailable {T}.
Arguments Listing {T} updating banner cards.

Section EventList.
Context {T : Type}.

(** The part of [EventList] after its state is settled:
    [currentEvents], [isLoading] and [error] are the external props or
    the internal state. *)
Definition render (currentEvents : option (list T)) (isLoading : bool)
    (error : option string) (customFilter : option (T → bool)) (maxItems : Z)
    (highlightCondition : option (T → bool)) : View T :=
  let displayableEvents := default [] currentEvents in
  let displayableEvents :=
    match customFilter with
    | Some f => List.filter f displayableEvents
    | None => displayableEvents
    end in
  let displayableEvents := sliceTo displayableEvents maxItems in
  let empty := (length displayableEvents =? 0)%nat in
  let hasError := truthyOStr error in
  if isLoading && empty && negb hasError then LoadingSpinner
  else if hasError && empty then ErrorOnly (default EmptyString error)
  else if empty && negb isLoading && negb hasError then NoEventsFound
  else if negb (bool_decide (is_Some currentEvents)) && negb isLoading && negb hasError
  then DataNotAvailable
  else
    Listing (isLoading && negb empty)
      (if hasError && negb empty then error else None)
      (map (fun event =>
              (event, match highlightCondition with
                      | Some h => h event
                      | None => false
                      end))
         displayableEvents).

(** The props and the internal state, combined as the component does. *)
Definition eventList (externalEvents : option (list T))
    (externalIsLoading : option bool) (externalError : option string)
    (internalEvents : list T) (internalIsLoading : bool)
    (internalError : option string)
    (customFilter : option (T → bool)) (maxItems : Z)
    (highlightCondition : option (T → bool)) : View T :=
  match externalEvents with
  | Some events =>
      render (Some events) (default false externalIsLoading) externalError
        customFilter maxItems highlightCondition
  | None =>
      render (Some internalEvents) internalIsLoading internalError
        customFilter maxItems highlightCondition
  end.

End EventList.

(** *** Proton flux display and X-ray chart *)

Record ProtonFluxScaleLevel : Type := {
  level : string;
  threshold : QArith_base.Q;
  description : string;
  color : string
}.

Definition PROTON_FLUX_S_SCALE : list ProtonFluxScaleLevel :=
  [ {| level := "S5"; threshold := QArith_base.Qmake 100000 1;
       description := "Extreme"; color := "#FF00FF" |};
    {| level := "S4"; threshold := QArith_base.Qmake 10000 1;
       description := "Severe"; color := "#FF0000" |};
    {| level := "S3"; threshold := QArith_base.Qmake 1000 1;
       description := "Strong"; color := "#FFA500" |};
    {| level := "S2"; threshold := QArith_base.Qmake 100 1;
       description := "Moderate"; color := "#FFFF00" |};
    {| level := "S1"; threshold := QArith_base.Qmake 10 1;
       description := "Minor"; color := "#90EE90" |} ].

(** [for (const level of PROTON_FLUX_S_SCALE) if (flux >= level.threshold)
    { sScaleLevel = level; break; }]. *)
Definition sScaleLevel (flux : QArith_base.Q) : option ProtonFluxScaleLevel :=
  List.find (fun l => QArith_base.Qle_bool (threshold l) flux) PROTON_FLUX_S_SCALE.

(** [fluxData[fluxData.length - 1]], or null for no data. *)
Definition currentFlux (fluxData : list ProtonFluxDataPoint)
  : option ProtonFluxDataPoint :=
  last fluxData.

Record XRayFluxThreshold : Type := {
  name : string;
  value : QArith_base.Q;
  t_color : string
}.

Definition XRAY_FLUX_THRESHOLDS : list XRayFluxThreshold :=
  [ {| name := "X"; value := QArith_base.Qmake 1 10000; t_color := "#FF00FF" |};
    {| name := "M"; value := QArith_base.Qmake 1 100000; t_color := "#FF0000" |};
    {| name := "C"; value := QArith_base.Qmake 1 1000000; t_color := "#FFA500" |};
    {| name := "B"; value := QArith_base.Qmake 1 10000000; t_color := "#FFFF00" |};
    {| name := "A"; value := QArith_base.Qmake 1 100000000; t_color := "#ADD8E6" |} ].

(** The tooltip's loop [for (i = length - 1; i >= 0; i--)], which stops
    at the first threshold the flux reaches. *)
Definition classification (flux : QArith_base.Q) : string :=
  match List.find (fun t => QArith_base.Qle_bool (value t) flux)
          (rev XRAY_FLUX_THRESHOLDS) with
  | Some t => name t
  | None => "A"
  end.

(** The colour of the tooltip's class line. *)
Definition classColor (flux : QArith_base.Q) : string :=
  match List.find (fun t => String.eqb (name t) (classification flux))
          XRAY_FLUX_THRESHOLDS with
  | Some t => if truthyStr (t_color t) then t_color t else "#FFFFFF"
  | None => "#FFFFFF"
  end.

(** [fluxData.slice(-120)]: the chart's data. *)
Definition chartData {A} (fluxData : list A) : list A :=
  drop (length fluxData - 120) fluxData.

End Widgets.


(** ** Vocabulary for the statements about the service *)

Module ServiceSpec.
Import Service.

(** An attempt after which [fetchData] tries again (when attempts are
    left): a rejected [fetch], a body that does not parse, or an error
    status outside 400..499. *)
Definition retryable {T} (a : Attempt T) : bool :=
  match a with
  | Rejects _ => true
  | RespondsOk (inl _) => false
  | RespondsOk (inr _) => true
  | RespondsError status _ _ => negb ((400 <=? status) && (status <? 500))
  end.

(** The message of the error such an attempt leaves behind. *)
Definition failureMessage {T} (url : string) (a : Attempt T) : string :=
  match a with
  | Rejects m => m
  | RespondsOk (inl _) => EmptyString
  | RespondsOk (inr m) => m
  | RespondsError status statusText errorData =>
      httpErrorMessage url status statusText errorData
  end.

(** The first [k] delays of the exponential backoff. *)
Definition backoffs (initialDelayMs : Z) (k : nat) : list Z :=
  map (fun i : nat => initialDelayMs * 2 ^ Z.of_nat i) (List.seq 0 k).

Definition total (delays : list Z) : Z := foldr Z.add 0 delays.


(** An outcome of [fetchData] that the responses account for: between
    [lo] (exclusive) and [hi] calls were made, the delays waited are the
    backoff schedule up to the last call, and the result is what the
    last call decided: its data, the [NonRetryableError] of its 4xx
    status, or, after the [hi]-th call failed in a retryable way, the
    final error built from that failure. *)
Definition Explained {T} (url : string) (maxRetries initialDelayMs : Z)
    (world : nat → Attempt T) (lo hi : nat) (o : Outcome T) : Prop :=
  (lo < requests o ≤ hi)%nat
  ∧ slept o = backoffs initialDelayMs (requests o - 1)
  ∧ match result o with
    | inl data => world (requests o - 1)%nat = RespondsOk (inl data)
    | inr (NonRetryableError message) =>
        ∃ status statusText errorData,
          world (requests o - 1)%nat = RespondsError status statusText errorData
          ∧ 400 ≤ status < 500
          ∧ message = httpErrorMessage url status statusText errorData
    | inr (Error message) =>
        requests o = hi
        ∧ retryable (world (requests o - 1)%nat) = true
        ∧ Error message
          = finalError url maxRetries
              (failureMessage url (world (requests o - 1)%nat))
    end.

End ServiceSpec.


(** ** Sample responses *)

Module ServiceExamples.
Import Service.

(** A server error, then a network failure, then an answer. *)
Definition flaky (n : nat) : Attempt (list string) :=
  match n with
  | O => RespondsError 503 "Service Unavailable" None
  | S O => Rejects "Failed to fetch"
  | _ => RespondsOk (inl ["a"; "b"])
  end.

(** A network failure, then "404 Not Found" with a JSON error body. *)
Definition missing (n : nat) : Attempt (list string) :=
  match n with
  | O => Rejects "Failed to fetch"
  | _ => RespondsError 404 "Not Found"
           (Some {| ed_message := Some "No data"; ed_error := None |})
  end.

(** The service is unreachable. *)
Definition down (n : nat) : Attempt (list string) := Rejects "Failed to fetch".

End ServiceExamples.

(** ** Sample feeds *)

Module LoaderExamples.
Import Service.

(** A CME whose first analysis is not the most accurate one. *)
Definition cmeYA : CME :=
  Examples.cme "W" "2024-02-21T03:00Z" (Some [Examples.anY; Examples.anA]).

(** The CME feed answering with two records, and unreachable. *)
Definition cmeFeed (n : nat) : Attempt (DonkiJson CME) :=
  RespondsOk (inl (JsonArray [Examples.cmeB; Examples.cmeA])).

Definition cmeFeedDown (n : nat) : Attempt (DonkiJson CME) :=
  Rejects "Failed to fetch".

Definition flareFeed (n : nat) : Attempt (DonkiJson SolarFlare) :=
  RespondsOk (inl (JsonArray [Examples.flareF; Examples.flareA])).

(** A shock linked to CME [A], delivered as a single object after one
    server error. *)
Definition shockA : InterplanetaryShock :=
  {| ipsID := "J"; eventTime := "2024-03-01T11:40Z";
     ips_link := "https://kauai.ccmc.gsfc.nasa.gov/DONKI/view/IPS/2";
     ips_linkedEvents := Some [ {| le_activityID := "Q" |}; {| le_activityID := "A" |} ];
     associatedCMESpeed := None; associatedCMEStartTime := None;
     associatedCMELink := None; associatedCMEActivityID := None |}.

Definition shockFeed (n : nat) : Attempt (DonkiJson InterplanetaryShock) :=
  match n with
  | O => RespondsError 500 "Internal Server Error" None
  | _ => RespondsOk (inl (JsonSingle shockA))
  end.

(** Proton and X-ray samples of the NOAA feeds. *)
Definition protonLate : ProtonFluxDataPoint :=
  {| p_time_tag := "2024-03-01T12:05Z"; p_flux := QArith_base.Qmake 1250 1;
     p_energy := ">=10 MeV" |}.

Definition protons : list ProtonFluxDataPoint :=
  [ protonLate;
    {| p_time_tag := "2024-03-01T12:10Z"; p_flux := QArith_base.Qmake 3 10;
       p_energy := ">=50 MeV" |};
    {| p_time_tag := "2024-03-01T12:00Z"; p_flux := QArith_base.Qmake 980 1;
       p_energy := ">=10 MeV" |} ].

Definition xrays : list XRayFluxDataPoint :=
  [ {| x_time_tag := "2024-03-01T12:01Z"; x_flux := QArith_base.Qmake 3 1000000;
       observed_flux := QArith_base.Qmake 0 1; x_energy := "0.1-0.8nm" |};
    {| x_time_tag := "2024-03-01T12:01Z"; x_flux := QArith_base.Qmake 2 10000000;
       observed_flux := QArith_base.Qmake 0 1; x_energy := "0.05-0.4nm" |};
    {| x_time_tag := "2024-03-01T12:00Z"; x_flux := QArith_base.Qmake 25 10000000;
       observed_flux := QArith_base.Qmake 0 1; x_energy := "0.1-0.8nm" |} ].

End LoaderExamples.

(** ** Sample records with an unparsable start time *)

Module RankExamples.

(** Three CMEs scoring 2; the start time of the second is not a date. *)
Definition firstDay : EnhancedCME :=
  Examples.enhanced (Examples.cme "P" "2024-01-01T00:00Z" None) (Some (Fin 2)) None.
Definition badStart : EnhancedCME :=
  Examples.enhanced (Examples.cme "R" "bad" None) (Some (Fin 2)) None.
Definition secondDay : EnhancedCME :=
  Examples.enhanced (Examples.cme "T" "2024-01-02T00:00Z" None) (Some (Fin 2)) None.

(** A CME outside the Earth-directed partition whose start time is not a
    date. *)
Definition unrankedBad : EnhancedCME :=
  {| raw := Examples.cme "U" "bad" None; earthImpactScore := Some PInf;
     displayAnalysisSpeed := None; displayAnalysisHalfAngle := None;
     displayAnalysisType := None; displayAnalysisNote := None;
     displayEnlilArrivalTime := None; displayEnlilDuration := None;
     displayEnlilImpactLocations := None;
     isPotentiallyEarthDirected := Some false |}.

End RankExamples.


(** * Properties *)

(** ** Strings *)

Module StringFacts.

Lemma N_of_ascii_inj a b : N_of_ascii a = N_of_ascii b → a = b.
Proof.
  intros H. rewrite <- (ascii_N_embedding a), <- (ascii_N_embedding b).
  now rewrite H.
Qed.

Lemma isUpper_range c :
  isUpper c = true ↔ (65 <= N_of_ascii c ∧ N_of_ascii c <= 90)%N.
Proof.
  unfold isUpper. rewrite andb_true_iff, !N.leb_le. tauto.
Qed.

Lemma lowerChar_code c :
  N_of_ascii (lowerChar c)
  = if isUpper c then (N_of_ascii c + 32)%N else N_of_ascii c.
Proof.
  unfold lowerChar. destruct (isUpper c) eqn:E; [|reflexivity].
  apply isUpper_range in E. apply N_ascii_embedding. lia.
Qed.

Lemma lowerChar_sameLetter a b :
  lowerChar a = lowerChar b ↔ Spec.sameLetter a b.
Proof.
  unfold Spec.sameLetter. split.
  - intros H. apply (f_equal N_of_ascii) in H. rewrite !lowerChar_code in H.
    destruct (isUpper a) eqn:Ea, (isUpper b) eqn:Eb.
    + left. apply N_of_ascii_inj. lia.
    + right. left. split; [reflexivity | exact H].
    + right. right. split; [reflexivity | now symmetry].
    + left. now apply N_of_ascii_inj.
  - intros [-> | [[Ha H] | [Hb H]]]; [reflexivity | |];
      apply N_of_ascii_inj; rewrite !lowerChar_code.
    + rewrite Ha. apply isUpper_range in Ha.
      destruct (isUpper b) eqn:Eb; [|exact H].
      apply isUpper_range in Eb. lia.
    + rewrite Hb. apply isUpper_range in Hb.
      destruct (isUpper a) eqn:Ea; [|now symmetry].
      apply isUpper_range in Ea. lia.
Qed.

Lemma toLowerCase_caseless s t :
  toLowerCase s = toLowerCase t ↔ Spec.caseless s t.
Proof.
  split.
  - revert t. induction s as [|a s IH]; intros [|b t] H; simpl in H;
      try discriminate; [constructor|].
    injection H as Hc Hs. constructor; [now apply lowerChar_sameLetter | auto].
  - induction 1 as [|a b s t Hab _ IH]; simpl; [reflexivity|].
    f_equal; [now apply lowerChar_sameLetter | exact IH].
Qed.

Lemma toLowerCase_app s t :
  toLowerCase (s ++ t)%string = (toLowerCase s ++ toLowerCase t)%string.
Proof. induction s as [|a s IH]; simpl; [reflexivity | now rewrite IH]. Qed.

Lemma toLowerCase_split s x y :
  toLowerCase s = (x ++ y)%string →
  ∃ a b, s = (a ++ b)%string ∧ toLowerCase a = x ∧ toLowerCase b = y.
Proof.
  revert s. induction x as [|c x IH]; intros s H; simpl in H.
  - exists EmptyString, s. auto.
  - destruct s as [|d s]; simpl in H; [discriminate|].
    injection H as Hc Hs. destruct (IH _ Hs) as (a & b & -> & Ha & Hb).
    exists (String d a), b. simpl. now rewrite Hc, Ha.
Qed.

Lemma startsWith_spec s p :
  startsWith s p = true ↔ ∃ post, s = (p ++ post)%string.
Proof.
  revert s. induction p as [|a p IH]; intros s; simpl.
  - split; [intros _; now exists s | intros _; now destruct s].
  - destruct s as [|b s].
    + split; [discriminate | intros [post H]; discriminate].
    + simpl. rewrite andb_true_iff, Ascii.eqb_eq, IH. split.
      * intros [-> [post ->]]. now exists post.
      * intros [post H]. injection H as -> ->. split; [reflexivity | now exists post].
Qed.

Lemma includes_spec s needle :
  includes s needle = true ↔ ∃ pre post, s = (pre ++ needle ++ post)%string.
Proof.
  induction s as [|c s IH].
  - change (includes EmptyString needle)
      with (startsWith EmptyString needle || false).
    rewrite orb_true_iff, startsWith_spec. split.
    + intros [[post H] | H]; [|discriminate]. now exists EmptyString, post.
    + intros (pre & post & H). left. destruct pre; [now exists post|discriminate].
  - change (includes (String c s) needle)
      with (startsWith (String c s) needle || includes s needle).
    rewrite orb_true_iff, startsWith_spec, IH. split.
    + intros [[post H] | (pre & post & ->)].
      * now exists EmptyString, post.
      * now exists (String c pre), post.
    + intros (pre & post & H). destruct pre as [|d pre]; simpl in H.
      * left. now exists post.
      * right. injection H as -> ->. now exists pre, post.
Qed.

(** [toLowerCase] followed by [includes] looks for a case-insensitive
    substring, whenever the needle is already in lower case. *)
Lemma includes_lower_caseless s needle :
  toLowerCase needle = needle →
  includes (toLowerCase s) needle = true ↔ Spec.ContainsCaseless needle s.
Proof.
  intros Hn. rewrite includes_spec. unfold Spec.ContainsCaseless. split.
  - intros (pre & post & H).
    apply toLowerCase_split in H as (a & b & -> & Ha & Hb).
    apply toLowerCase_split in Hb as (m & c & -> & Hm & Hc).
    exists a, m, c. split; [reflexivity|].
    apply toLowerCase_caseless. now rewrite Hm, Hn.
  - intros (pre & mid & post & -> & Hc).
    apply toLowerCase_caseless in Hc. rewrite Hn in Hc.
    exists (toLowerCase pre), (toLowerCase post).
    now rewrite !toLowerCase_app, Hc.
Qed.

Lemma noteMentionsEarth_spec n :
  Enrich.noteMentionsEarth n = true ↔ Spec.MentionsEarth n.
Proof.
  unfold Enrich.noteMentionsEarth, Spec.MentionsEarth. destruct n as [s|].
  - rewrite andb_true_iff, (includes_lower_caseless s "earth" eq_refl). split.
    + intros [_ H]. now exists s.
    + intros (s' & [= <-] & H). split; [|exact H].
      destruct s; [|reflexivity].
      destruct H as (pre & mid & post & H & Hc).
      destruct pre; [|discriminate]. inversion Hc; subst; discriminate.
  - split; [discriminate | intros (s & H & _); discriminate].
Qed.

End StringFacts.

(** ** The enrichment engine *)

Module EnrichFacts.
Import Enrich.

Lemma find_FirstSuch {A} (f : A → bool) l x :
  List.find f l = Some x ↔ Spec.FirstSuch (fun y => f y = true) l x.
Proof.
  unfold Spec.FirstSuch. induction l as [|y l IH]; simpl.
  - split; [discriminate | intros (pre & post & H & _); now destruct pre].
  - destruct (f y) eqn:E.
    + split.
      * intros [= ->]. exists [], l. auto.
      * intros (pre & post & H & Hx & Hpre). destruct pre as [|z pre].
        -- now injection H as ->.
        -- injection H as -> _. inversion Hpre; subst. congruence.
    + rewrite IH. split.
      * intros (pre & post & -> & Hx & Hpre). exists (y :: pre), post.
        repeat split; [exact Hx|]. constructor; [congruence | exact Hpre].
      * intros (pre & post & H & Hx & Hpre). destruct pre as [|z pre].
        -- injection H as -> _. congruence.
        -- injection H as -> ->. inversion Hpre; subst. now exists pre, post.
Qed.

Lemma FirstSuch_iff {A} (P Q : A → Prop) l x :
  (∀ y, P y ↔ Q y) → Spec.FirstSuch P l x ↔ Spec.FirstSuch Q l x.
Proof.
  intros H. unfold Spec.FirstSuch.
  split; intros (pre & post & -> & Hx & Hpre); exists pre, post;
    (repeat split; [now apply H|]);
    (eapply Forall_impl; [exact Hpre|]); intros y Hy Hn; apply Hy, H, Hn.
Qed.

Lemma FirstSuch_unique {A} (P : A → Prop) l x y :
  Spec.FirstSuch P l x → Spec.FirstSuch P l y → x = y.
Proof.
  intros (p1 & q1 & -> & Hx & H1) (p2 & q2 & E & Hy & H2).
  revert p2 E H2. induction p1 as [|a p1 IH]; intros [|b p2] E H2;
    simpl in E.
  - now injection E.
  - injection E as -> _. now inversion H2.
  - injection E as -> _. now inversion H1.
  - injection E as -> E. inversion H1; inversion H2; subst. eauto.
Qed.

Lemma find_none_Forall {A} (f : A → bool) l :
  List.find f l = None ↔ Forall (fun y => f y = false) l.
Proof.
  induction l as [|y l IH]; simpl; [split; [constructor | reflexivity]|].
  destruct (f y) eqn:E.
  - split; [discriminate | intros H; inversion H; congruence].
  - rewrite IH. split; [now constructor | intros H; now inversion H].
Qed.

Lemma head_filter_find {A} (f : A → bool) l :
  head (List.filter f l) = List.find f l.
Proof.
  induction l as [|y l IH]; simpl; [reflexivity|]. now destruct (f y).
Qed.

Lemma isEarthEnlil_earthFlagged s : isEarthEnlil s = Spec.earthFlagged s.
Proof.
  unfold isEarthEnlil, Spec.earthFlagged, Spec.impactsOf.
  now destruct (impactList s).
Qed.

Lemma earthFlagged_spec s : Spec.earthFlagged s = true ↔ Spec.EarthFlagged s.
Proof.
  unfold Spec.earthFlagged, Spec.EarthFlagged.
  rewrite orb_true_iff, bool_decide_eq_true, existsb_exists.
  split; (intros [H | (imp & Hin & Hloc)]; [now left | right; exists imp]).
  - apply list_elem_of_In in Hin. now apply String.eqb_eq in Hloc.
  - apply list_elem_of_In in Hin. split; [exact Hin | now apply String.eqb_eq].
Qed.

Lemma primaryEarthSim_spec a s :
  Spec.primaryEarthSim a = Some s ↔ Spec.PrimaryEarthSim a s.
Proof.
  unfold Spec.primaryEarthSim, Spec.PrimaryEarthSim.
  rewrite find_FirstSuch. apply FirstSuch_iff, earthFlagged_spec.
Qed.

Lemma relevantAnalysis_spec cme a :
  Spec.relevantAnalysis cme = Some a ↔ Spec.RelevantAnalysis cme a.
Proof.
  unfold Spec.relevantAnalysis, Spec.RelevantAnalysis.
  destruct (List.find isMostAccurate (Spec.analysesOf cme)) as [b|] eqn:E.
  - split.
    + intros [= <-]. left. now apply find_FirstSuch.
    + intros [H | [H _]].
      * apply find_FirstSuch in H. congruence.
      * apply find_none_Forall in H. congruence.
  - split.
    + intros H. right. split; [now apply find_none_Forall | exact H].
    + intros [H | [_ H]]; [|exact H].
      apply find_FirstSuch in H. congruence.
Qed.

Lemma relevantAnalysis_elem cme a :
  Spec.relevantAnalysis cme = Some a → a ∈ Spec.analysesOf cme.
Proof.
  unfold Spec.relevantAnalysis.
  destruct (List.find isMostAccurate (Spec.analysesOf cme)) as [b|] eqn:E.
  - intros [= <-]. apply find_some in E as [E _]. now apply list_elem_of_In.
  - destruct (Spec.analysesOf cme); [discriminate|].
    intros [= <-]. constructor.
Qed.

(** The relevant analysis and the primary Earth simulation, as the
    component computes them. *)
Lemma code_relevantAnalysis cme :
  match cmeAnalyses cme ≫= List.find isMostAccurate with
  | Some a => Some a
  | None => cmeAnalyses cme ≫= head
  end = Spec.relevantAnalysis cme.
Proof.
  unfold Spec.relevantAnalysis, Spec.analysesOf.
  now destruct (cmeAnalyses cme).
Qed.

Lemma code_primaryEarthSim a :
  (List.filter isEarthEnlil <$> enlilList a) ≫= head = Spec.primaryEarthSim a.
Proof.
  unfold Spec.primaryEarthSim, Spec.simulationsOf.
  destruct (enlilList a) as [l|]; simpl; [|reflexivity].
  rewrite head_filter_find. induction l as [|x l IH]; simpl; [reflexivity|].
  now rewrite isEarthEnlil_earthFlagged, IH.
Qed.

(** What [enhanceCMEData] returns, case by case on the relevant analysis
    and its primary Earth simulation. *)
Lemma enhance_no_analysis cme :
  Spec.relevantAnalysis cme = None →
  enhanceCMEData cme
  = Ok {| raw := cme; earthImpactScore := Some PInf;
          displayAnalysisSpeed := None; displayAnalysisHalfAngle := None;
          displayAnalysisType := None; displayAnalysisNote := None;
          displayEnlilArrivalTime := None; displayEnlilDuration := None;
          displayEnlilImpactLocations := None;
          isPotentiallyEarthDirected := Some (isPotentiallyEarthRelevant cme) |}.
Proof.
  intros H. unfold enhanceCMEData. cbv zeta.
  now rewrite code_relevantAnalysis, H.
Qed.

Lemma enhance_primary cme a s :
  Spec.relevantAnalysis cme = Some a →
  Spec.primaryEarthSim a = Some s →
  enhanceCMEData cme
  = Ok {| raw := cme;
          earthImpactScore :=
            Some (if truthyOStr (estimatedShockArrivalTime s) then Fin 1 else Fin 2);
          displayAnalysisSpeed := Some (speed a);
          displayAnalysisHalfAngle := Some (halfAngle a);
          displayAnalysisType := Some (type a);
          displayAnalysisNote := an_note a;
          displayEnlilArrivalTime := estimatedShockArrivalTime s;
          displayEnlilDuration := estimatedDuration s;
          displayEnlilImpactLocations :=
            Some match impactList s with
                 | Some imps => map location imps
                 | None => if bool_decide (isEarthGB s = Some true)
                           then ["Earth Geospace"] else []
                 end;
          isPotentiallyEarthDirected := Some (isPotentiallyEarthRelevant cme) |}.
Proof.
  intros Ha Hs. unfold enhanceCMEData. cbv zeta.
  rewrite code_relevantAnalysis, Ha, code_primaryEarthSim, Hs.
  now destruct (truthyOStr (estimatedShockArrivalTime s)).
Qed.

(** The [find] of the third branch returns a simulation whose impact
    list has a first entry, so the two property reads succeed. *)
Lemma find_nonEmpty_impact sims e :
  List.find (fun e => nonEmpty (impactList e)) sims = Some e →
  ∃ imp imps, impactList e = Some (imp :: imps).
Proof.
  intros H. apply find_some in H as [_ H]. unfold nonEmpty in H.
  destruct (impactList e) as [[|imp imps]|]; try discriminate. eauto.
Qed.

Lemma enhance_note cme a :
  Spec.relevantAnalysis cme = Some a →
  Spec.primaryEarthSim a = None →
  noteMentionsEarth (an_note a) = true →
  enhanceCMEData cme
  = Ok {| raw := cme; earthImpactScore := Some (Fin 3);
          displayAnalysisSpeed := Some (speed a);
          displayAnalysisHalfAngle := Some (halfAngle a);
          displayAnalysisType := Some (type a);
          displayAnalysisNote := an_note a;
          displayEnlilArrivalTime :=
            e ← List.find (fun e => nonEmpty (impactList e)) (Spec.simulationsOf a);
            arrivalTime <$> head (Spec.impactsOf e);
          displayEnlilDuration := None;
          displayEnlilImpactLocations := None;
          isPotentiallyEarthDirected := Some (isPotentiallyEarthRelevant cme) |}.
Proof.
  intros Ha Hs Hn. unfold enhanceCMEData. cbv zeta.
  rewrite code_relevantAnalysis, Ha, code_primaryEarthSim, Hs, Hn.
  unfold Spec.simulationsOf. destruct (enlilList a) as [sims|]; simpl; [|reflexivity].
  destruct (List.find _ sims) as [e|] eqn:E; simpl; [|reflexivity].
  apply find_nonEmpty_impact in E as (imp & imps & E).
  unfold Spec.impactsOf. now rewrite E.
Qed.

Lemma enhance_plain cme a :
  Spec.relevantAnalysis cme = Some a →
  Spec.primaryEarthSim a = None →
  noteMentionsEarth (an_note a) = false →
  enhanceCMEData cme
  = Ok {| raw := cme;
          earthImpactScore :=
            Some (if nonEmpty (enlilList a) then Fin 4 else PInf);
          displayAnalysisSpeed := Some (speed a);
          displayAnalysisHalfAngle := Some (halfAngle a);
          displayAnalysisType := Some (type a);
          displayAnalysisNote := an_note a;
          displayEnlilArrivalTime := None;
          displayEnlilDuration := None;
          displayEnlilImpactLocations := None;
          isPotentiallyEarthDirected := Some (isPotentiallyEarthRelevant cme) |}.
Proof.
  intros Ha Hs Hn. unfold enhanceCMEData. cbv zeta.
  rewrite code_relevantAnalysis, Ha, code_primaryEarthSim, Hs, Hn.
  now destruct (nonEmpty (enlilList a)).
Qed.

Lemma isPotentiallyEarthRelevant_spec cme :
  isPotentiallyEarthRelevant cme = true ↔ Spec.EarthRelevant cme.
Proof.
  unfold isPotentiallyEarthRelevant, Spec.EarthRelevant, Spec.analysesOf.
  destruct (cmeAnalyses cme) as [[|a0 l]|]; simpl default.
  - split; [discriminate | intros (a & Hin & _); inversion Hin].
  - rewrite existsb_exists. split.
    + intros (a & Hin & H). exists a. split; [now apply list_elem_of_In|].
      rewrite !orb_true_iff in H. destruct H as [[H | H] | H].
      * now left.
      * right. left. unfold Spec.simulationsOf, nonEmpty in *.
        destruct (enlilList a) as [[|]|]; simpl; congruence.
      * right. right. now apply StringFacts.noteMentionsEarth_spec.
    + intros (a & Hin & H). exists a. split; [now apply list_elem_of_In|].
      rewrite !orb_true_iff. destruct H as [H | [H | H]].
      * now left; left.
      * left. right. unfold Spec.simulationsOf, nonEmpty in *.
        destruct (enlilList a) as [[|]|]; simpl in *; congruence.
      * right. now apply StringFacts.noteMentionsEarth_spec.
  - split; [discriminate | intros (a & Hin & _); inversion Hin].
Qed.

End EnrichFacts.

(** ** Statements about the enrichment engine *)

Module EnrichClaims.
Import Enrich EnrichFacts.

Lemma enhance_flag_ok cme :
  ∃ e, enhanceCMEData cme = Ok e
       ∧ raw e = cme
       ∧ isPotentiallyEarthDirected e = Some (isPotentiallyEarthRelevant cme).
Proof.
  destruct (Spec.relevantAnalysis cme) as [a|] eqn:Ha.
  - destruct (Spec.primaryEarthSim a) as [s|] eqn:Hs.
    + eexists. split; [now apply (enhance_primary cme a s)|]. now split.
    + destruct (noteMentionsEarth (an_note a)) eqn:Hn.
      * eexists. split; [now apply (enhance_note cme a)|]. now split.
      * eexists. split; [now apply (enhance_plain cme a)|]. now split.
  - eexists. split; [now apply enhance_no_analysis|]. now split.
Qed.

Lemma no_analyses_no_relevant cme :
  Spec.analysesOf cme = [] → Spec.relevantAnalysis cme = None.
Proof. unfold Spec.relevantAnalysis. now intros ->. Qed.

Lemma no_analyses_not_relevant cme :
  Spec.analysesOf cme = [] → isPotentiallyEarthRelevant cme = false.
Proof.
  unfold Spec.analysesOf, isPotentiallyEarthRelevant.
  destruct (cmeAnalyses cme) as [[|]|]; simpl; congruence.
Qed.

(** C1 (as amended): when the primary Earth simulation of the relevant
    analysis carries an arrival time that is neither null nor the empty
    string, [enhanceCMEData] scores the CME 1 and copies the arrival time,
    the duration and the impact locations of that simulation, the
    locations being [["Earth Geospace"]] when the simulation has no impact
    list. *)
Theorem primary_arrival_scores_one cme a s t :
  Spec.RelevantAnalysis cme a →
  Spec.PrimaryEarthSim a s →
  estimatedShockArrivalTime s = Some t →
  t ≠ EmptyString →
  ∃ e, enhanceCMEData cme = Ok e
       ∧ earthImpactScore e = Some (Fin 1)
       ∧ displayEnlilArrivalTime e = Some t
       ∧ displayEnlilDuration e = estimatedDuration s
       ∧ displayEnlilImpactLocations e
         = Some match impactList s with
                | Some imps => map location imps
                | None => ["Earth Geospace"]
                end.
Proof.
  intros Ha Hs Ht Hne.
  apply relevantAnalysis_spec in Ha. pose proof Hs as Hp.
  apply primaryEarthSim_spec in Hs.
  eexists. split; [now apply (enhance_primary cme a s)|]. simpl.
  rewrite Ht. repeat split.
  - destruct t; [congruence | reflexivity].
  - destruct (impactList s) as [imps|] eqn:Ei; [reflexivity|].
    destruct Hp as (_ & _ & _ & [Hgb | (imp & Hin & _)] & _).
    + now rewrite bool_decide_eq_true_2.
    + unfold Spec.impactsOf in Hin. rewrite Ei in Hin. inversion Hin.
Qed.

Lemma primary_arrival_scores_one_witness :
  ∃ e, enhanceCMEData Examples.cmeA = Ok e
       ∧ earthImpactScore e = Some (Fin 1)
       ∧ displayEnlilArrivalTime e = Some "2024-03-01T12:00Z"
       ∧ displayEnlilDuration e = Some (Fin 18)
       ∧ displayEnlilImpactLocations e = Some ["Earth Geospace"].
Proof.
  apply (primary_arrival_scores_one Examples.cmeA Examples.anA Examples.simA
           "2024-03-01T12:00Z").
  - left. exists [], []. repeat split. constructor.
  - exists [], []. repeat split; [now left | constructor].
  - reflexivity.
  - discriminate.
Defined.

(** C1 (as stated) fails: the arrival time of the primary Earth
    simulation of [cmeE] is the empty string, which is not null, and the
    CME scores 2. *)
Lemma empty_arrival_scores_two :
  Spec.RelevantAnalysis Examples.cmeE Examples.anE
  ∧ Spec.PrimaryEarthSim Examples.anE Examples.simE
  ∧ estimatedShockArrivalTime Examples.simE = Some EmptyString
  ∧ ∃ e, enhanceCMEData Examples.cmeE = Ok e
         ∧ earthImpactScore e = Some (Fin 2)
         ∧ earthImpactScore e ≠ Some (Fin 1).
Proof.
  split; [left; exists [], []; repeat split; constructor|].
  split; [exists [], []; repeat split; [now left | constructor]|].
  split; [reflexivity|].
  eexists. split; [reflexivity|]. split; [reflexivity | discriminate].
Qed.

Lemma nle_refl_fin z : nle (Fin z) (Fin z) = true.
Proof.
  unfold nle, nseq. rewrite bool_decide_eq_true_2 by reflexivity.
  apply orb_true_r.
Qed.

(** The score, against the decision list whose third rule asks only for
    a note that mentions "earth". *)
Lemma score_not_below_tier cme :
  ∃ e sc, enhanceCMEData cme = Ok e
          ∧ earthImpactScore e = Some sc
          ∧ nle (Spec.ruleTier Spec.rule3NoteOnly cme) sc = true.
Proof.
  unfold Spec.ruleTier, Spec.rule3NoteOnly.
  destruct (Spec.relevantAnalysis cme) as [a|] eqn:Ha.
  - destruct (Spec.primaryEarthSim a) as [s|] eqn:Hs.
    + eexists _, _. split; [now apply (enhance_primary cme a s)|].
      split; [reflexivity|].
      now destruct (estimatedShockArrivalTime s) as [[|c t]|].
    + destruct (noteMentionsEarth (an_note a)) eqn:Hn.
      * eexists _, _. split; [now apply (enhance_note cme a)|]. now split.
      * eexists _, _. split; [now apply (enhance_plain cme a)|].
        split; [reflexivity|]. unfold Spec.simulationsOf, nonEmpty.
        now destruct (enlilList a) as [[|]|].
  - eexists _, _. split; [now apply enhance_no_analysis|]. now split.
Qed.

(** C2 (as amended): a CME whose primary Earth simulation (the first
    Earth-flagged simulation of the relevant analysis) bears an arrival
    time that is neither null nor empty scores exactly 1; and no CME
    scores numerically lower than the tier of the first matching rule of
    the decision list in which rule 3 only asks that the note of the
    relevant analysis mentions "earth". *)
Theorem score_tiers :
  (∀ cme a s t,
     Spec.RelevantAnalysis cme a →
     Spec.PrimaryEarthSim a s →
     estimatedShockArrivalTime s = Some t →
     t ≠ EmptyString →
     ∃ e, enhanceCMEData cme = Ok e ∧ earthImpactScore e = Some (Fin 1))
  ∧ (∀ cme,
       ∃ e sc, enhanceCMEData cme = Ok e
               ∧ earthImpactScore e = Some sc
               ∧ nle (Spec.ruleTier Spec.rule3NoteOnly cme) sc = true).
Proof.
  split; [|exact score_not_below_tier].
  intros cme a s t Ha Hs Ht Hne.
  apply relevantAnalysis_spec in Ha. apply primaryEarthSim_spec in Hs.
  eexists. split; [now apply (enhance_primary cme a s)|]. simpl.
  rewrite Ht. destruct t; [congruence | reflexivity].
Qed.

Lemma score_tiers_witness :
  (∃ e, enhanceCMEData Examples.cmeA = Ok e ∧ earthImpactScore e = Some (Fin 1))
  ∧ (∃ e sc, enhanceCMEData Examples.cmeY = Ok e
             ∧ earthImpactScore e = Some sc
             ∧ nle (Spec.ruleTier Spec.rule3NoteOnly Examples.cmeY) sc = true).
Proof.
  split.
  - apply (proj1 score_tiers Examples.cmeA Examples.anA Examples.simA
             "2024-03-01T12:00Z").
    + left. exists [], []. repeat split. constructor.
    + exists [], []. repeat split; [now left | constructor].
    + reflexivity.
    + discriminate.
  - apply (proj2 score_tiers Examples.cmeY).
Defined.

(** C2 (as stated) fails on both counts: [cmeX] has an Earth-flagged
    simulation with an arrival time and scores 2, because an earlier
    Earth-flagged simulation of the same analysis has none; and [cmeY]
    scores 3 on its note alone, although no rule of the stated list
    matches it (its tier is ∞). *)
Lemma score_tiers_as_stated_fail :
  (Spec.HasEarthArrival Examples.cmeX
   ∧ ∃ e, enhanceCMEData Examples.cmeX = Ok e ∧ earthImpactScore e = Some (Fin 2))
  ∧ (∃ e, enhanceCMEData Examples.cmeY = Ok e
          ∧ earthImpactScore e = Some (Fin 3)
          ∧ Spec.ruleTier Spec.rule3Stated Examples.cmeY = PInf
          ∧ nle (Spec.ruleTier Spec.rule3Stated Examples.cmeY) (Fin 3) = false).
Proof.
  split.
  - split.
    + exists Examples.anX, Examples.simA, "2024-03-01T12:00Z".
      split; [apply list_elem_of_here|].
      split; [apply list_elem_of_further, list_elem_of_here|].
      split; [now left | reflexivity].
    + eexists. split; reflexivity.
  - eexists. repeat split; reflexivity.
Qed.

(** C5: [enhanceCMEData] sets [isPotentiallyEarthDirected] to true
    exactly when some analysis of the CME is flagged most accurate, or
    has at least one ENLIL simulation, or has a note containing "earth"
    in any letter case; without analyses the flag is false. *)
Theorem relevance_flag cme :
  ∃ e, enhanceCMEData cme = Ok e
       ∧ (isPotentiallyEarthDirected e = Some true ↔ Spec.EarthRelevant cme)
       ∧ (Spec.analysesOf cme = [] → isPotentiallyEarthDirected e = Some false).
Proof.
  destruct (enhance_flag_ok cme) as (e & He & _ & Hf).
  exists e. split; [exact He|]. rewrite Hf. split.
  - rewrite <- isPotentiallyEarthRelevant_spec.
    split; [now intros [= ->] | now intros ->].
  - intros H. now rewrite no_analyses_not_relevant.
Qed.

Lemma relevance_flag_witness :
  ∃ e, enhanceCMEData Examples.cmeB = Ok e
       ∧ (isPotentiallyEarthDirected e = Some true ↔ Spec.EarthRelevant Examples.cmeB)
       ∧ (Spec.analysesOf Examples.cmeB = [] → isPotentiallyEarthDirected e = Some false).
Proof. apply (relevance_flag Examples.cmeB). Defined.

(** C6: [enhanceCMEData] returns a record for every CME and never
    raises; for a CME without analyses (the field missing, null or an
    empty array) the score is Infinity, every display field is absent and
    [isPotentiallyEarthDirected] is false. *)
Theorem enrich_total cme :
  (∃ e, enhanceCMEData cme = Ok e)
  ∧ (Spec.analysesOf cme = [] →
     enhanceCMEData cme
     = Ok {| raw := cme; earthImpactScore := Some PInf;
             displayAnalysisSpeed := None; displayAnalysisHalfAngle := None;
             displayAnalysisType := None; displayAnalysisNote := None;
             displayEnlilArrivalTime := None; displayEnlilDuration := None;
             displayEnlilImpactLocations := None;
             isPotentiallyEarthDirected := Some false |}).
Proof.
  split.
  - destruct (enhance_flag_ok cme) as (e & He & _). now exists e.
  - intros H. rewrite enhance_no_analysis by now apply no_analyses_no_relevant.
    now rewrite no_analyses_not_relevant.
Qed.

Lemma enrich_total_witness :
  (∃ e, enhanceCMEData Examples.cmeB = Ok e)
  ∧ enhanceCMEData Examples.cmeB
    = Ok {| raw := Examples.cmeB; earthImpactScore := Some PInf;
            displayAnalysisSpeed := None; displayAnalysisHalfAngle := None;
            displayAnalysisType := None; displayAnalysisNote := None;
            displayEnlilArrivalTime := None; displayEnlilDuration := None;
            displayEnlilImpactLocations := None;
            isPotentiallyEarthDirected := Some false |}.
Proof.
  split.
  - apply (proj1 (enrich_total Examples.cmeB)).
  - apply (proj2 (enrich_total Examples.cmeB)). reflexivity.
Defined.

(** C10: whenever [enhanceCMEData] assigns a finite score, which is then
    one of 1, 2, 3 and 4, the flag [isPotentiallyEarthDirected] is true;
    the converse fails for a CME whose single analysis is flagged most
    accurate and has neither simulations nor a note mentioning "earth":
    its flag is true and its score Infinity. *)
Theorem finite_score_implies_flag :
  (∀ cme, ∃ e, enhanceCMEData cme = Ok e
     ∧ earthImpactScore e
       ∈ [Some (Fin 1); Some (Fin 2); Some (Fin 3); Some (Fin 4); Some PInf]
     ∧ (earthImpactScore e ≠ Some PInf → isPotentiallyEarthDirected e = Some true))
  ∧ (∀ cme a,
       cmeAnalyses cme = Some [a] →
       isMostAccurate a = true →
       Spec.simulationsOf a = [] →
       ¬ Spec.MentionsEarth (an_note a) →
       ∃ e, enhanceCMEData cme = Ok e
            ∧ isPotentiallyEarthDirected e = Some true
            ∧ earthImpactScore e = Some PInf).
Proof.
  split.
  - intros cme.
    assert (Hrel : ∀ a, Spec.relevantAnalysis cme = Some a →
              (nonEmpty (enlilList a) = true ∨ noteMentionsEarth (an_note a) = true) →
              isPotentiallyEarthRelevant cme = true).
    { intros a Ha H. apply isPotentiallyEarthRelevant_spec.
      exists a. split; [now apply relevantAnalysis_elem|]. right.
      destruct H as [H | H].
      - left. unfold Spec.simulationsOf, nonEmpty in *.
        destruct (enlilList a) as [[|]|]; simpl; congruence.
      - right. now apply StringFacts.noteMentionsEarth_spec. }
    destruct (Spec.relevantAnalysis cme) as [a|] eqn:Ha.
    + destruct (Spec.primaryEarthSim a) as [s|] eqn:Hs.
      * eexists. split; [now apply (enhance_primary cme a s)|]. simpl. split.
        -- destruct (truthyOStr _); set_solver.
        -- intros _. f_equal. apply (Hrel a eq_refl). left.
           unfold Spec.primaryEarthSim, Spec.simulationsOf in Hs.
           unfold nonEmpty. now destruct (enlilList a) as [[|]|].
      * destruct (noteMentionsEarth (an_note a)) eqn:Hn.
        -- eexists. split; [now apply (enhance_note cme a)|]. simpl. split.
           ++ set_solver.
           ++ intros _. f_equal. apply (Hrel a eq_refl). now right.
        -- eexists. split; [now apply (enhance_plain cme a)|]. simpl.
           destruct (nonEmpty (enlilList a)) eqn:Hl; split; try set_solver.
           intros _. f_equal. apply (Hrel a eq_refl). now left.
    + eexists. split; [now apply enhance_no_analysis|]. simpl.
      split; [set_solver | congruence].
  - intros cme a Hc Hacc Hsims Hnote.
    assert (Ha : Spec.relevantAnalysis cme = Some a).
    { unfold Spec.relevantAnalysis, Spec.analysesOf. rewrite Hc. simpl.
      now rewrite Hacc. }
    assert (Hs : Spec.primaryEarthSim a = None).
    { unfold Spec.primaryEarthSim. now rewrite Hsims. }
    assert (Hn : noteMentionsEarth (an_note a) = false).
    { destruct (noteMentionsEarth (an_note a)) eqn:E; [|reflexivity].
      now apply StringFacts.noteMentionsEarth_spec in E. }
    eexists. split; [now apply (enhance_plain cme a)|]. simpl. split.
    + f_equal. unfold isPotentiallyEarthRelevant. rewrite Hc. simpl.
      now rewrite Hacc.
    + unfold Spec.simulationsOf, nonEmpty in *.
      now destruct (enlilList a) as [[|]|].
Qed.

Lemma finite_score_implies_flag_witness :
  ∃ e, enhanceCMEData Examples.cmeZ = Ok e
       ∧ isPotentiallyEarthDirected e = Some true
       ∧ earthImpactScore e = Some PInf.
Proof.
  apply (proj2 finite_score_implies_flag Examples.cmeZ Examples.anZ).
  - reflexivity.
  - reflexivity.
  - reflexivity.
  - intros H. apply StringFacts.noteMentionsEarth_spec in H. discriminate H.
Defined.

End EnrichClaims.

(** ** The ranking and partition engine *)

Module RankFacts.
Import Rank.

Section SortFacts.
Context {A : Type} (comparefn : A → A → num).

Lemma insertSorted_perm x l : Permutation (insertSorted comparefn x l) (x :: l).
Proof.
  induction l as [|y l IH]; cbn [insertSorted]; [reflexivity|].
  destruct (ngt (comparefn x y) (Fin 0)); [|reflexivity].
  rewrite IH. apply perm_swap.
Qed.

Lemma sort_perm l : Permutation (sort comparefn l) l.
Proof.
  induction l as [|x l IH]; cbn [sort foldr]; [reflexivity|].
  rewrite insertSorted_perm. now constructor.
Qed.

(** Sortedness, for a comparator that decides a transitive relation [R]
    on the elements satisfying [D]. *)
Context (D : A → Prop) (R : A → A → Prop).
Hypothesis R_le : ∀ x y, D x → D y → ngt (comparefn x y) (Fin 0) = false → R x y.
Hypothesis R_gt : ∀ x y, D x → D y → ngt (comparefn x y) (Fin 0) = true → R y x.
Hypothesis R_trans : ∀ x y z, R x y → R y z → R x z.

Lemma insertSorted_sorted x l :
  D x → Forall D l → StronglySorted R l →
  StronglySorted R (insertSorted comparefn x l).
Proof.
  intros Dx Dl Hs. induction l as [|y l IH]; cbn [insertSorted].
  - repeat constructor.
  - inversion Dl as [|? ? Dy Dl']; subst.
    inversion Hs as [|? ? Hs' Hy]; subst.
    destruct (ngt (comparefn x y) (Fin 0)) eqn:E.
    + constructor; [now apply IH|].
      apply Forall_forall. intros z Hz.
      apply list_elem_of_In in Hz.
      apply (Permutation_in _ (insertSorted_perm x l)) in Hz.
      destruct Hz as [<- | Hz]; [now apply R_gt|].
      rewrite Forall_forall in Hy. apply Hy. now apply list_elem_of_In.
    + constructor; [exact Hs|]. constructor; [now apply R_le|].
      eapply Forall_impl; [exact Hy|]. intros z Hz.
      apply (R_trans x y z); [now apply R_le | exact Hz].
Qed.

Lemma sort_sorted l : Forall D l → StronglySorted R (sort comparefn l).
Proof.
  induction 1 as [|x l Dx Dl IH]; cbn [sort foldr]; [constructor|].
  apply insertSorted_sorted; [exact Dx | | exact IH].
  apply Forall_forall. intros z Hz. rewrite Forall_forall in Dl. apply Dl.
  apply list_elem_of_In. apply list_elem_of_In in Hz.
  now apply (Permutation_in _ (sort_perm l)).
Qed.

End SortFacts.

(** Order facts on numbers. *)
Lemma nlt_trans a b c : nlt a b = true → nlt b c = true → nlt a c = true.
Proof.
  destruct a, b, c; simpl; try congruence. rewrite !Z.ltb_lt. lia.
Qed.

Lemma nle_trans a b c : nle a b = true → nle b c = true → nle a c = true.
Proof.
  unfold nle, nseq.
  destruct a, b, c; simpl; try congruence;
    rewrite ?orb_true_iff, ?bool_decide_eq_true, ?Z.ltb_lt; try tauto.
  intros [H1 | H1] [H2 | H2]; simplify_eq; auto with lia.
Qed.

Lemma RankedBefore_trans getTime x y z :
  Spec.RankedBefore getTime x y → Spec.RankedBefore getTime y z →
  Spec.RankedBefore getTime x z.
Proof.
  intros (sx & sy & Hx & Hy & H1) (sy' & sz & Hy' & Hz & H2).
  rewrite Hy in Hy'. injection Hy' as <-.
  exists sx, sz. split; [exact Hx|]. split; [exact Hz|].
  destruct H1 as [H1 | [-> H1]], H2 as [H2 | [-> H2]].
  - left. eapply nlt_trans; eauto.
  - now left.
  - now left.
  - right. split; [reflexivity|].
    destruct H1 as [[E1 K1] | [E1 K1]], H2 as [[E2 K2] | [E2 K2]].
    + left. split; [exact E1|]. eapply nlt_trans; eauto.
    + left. split; [exact E1|]. now rewrite <- (E2 E1).
    + left. split; [exact E2|]. now rewrite (E1 E2).
    + right. split.
      * intros E. now rewrite (E1 E), (E2 E).
      * eapply nle_trans; eauto.
Qed.

Section Compare.
Variable getTime : string → num.

Lemma earth_score c :
  nle (orInfinity (earthImpactScore c)) (Fin 3) = true →
  ∃ s, earthImpactScore c = Some s ∧ nle s (Fin 3) = true ∧ s ≠ NaN ∧ s ≠ PInf
       ∧ orInfinity (Some s) = s.
Proof.
  destruct (earthImpactScore c) as [s|]; simpl; [|discriminate].
  destruct (truthy s) eqn:E; [|discriminate].
  intros H. exists s. split; [reflexivity|]. split; [exact H|].
  split; [intros ->; discriminate|]. split; [intros ->; discriminate|]. simpl. now rewrite E.
Qed.

Lemma arrival_time c :
  (∀ t, displayEnlilArrivalTime c = Some t → Spec.ValidDate getTime t) →
  match displayEnlilArrivalTime c with
  | Some t => if truthyStr t then getTime t else PInf
  | None => PInf
  end = Spec.arrivalKey getTime c
  ∧ Spec.arrivalKey getTime c ≠ NaN.
Proof.
  intros H. unfold Spec.arrivalKey.
  destruct (displayEnlilArrivalTime c) as [t|]; [|now split].
  destruct (H t eq_refl) as [Hne [z Hz]].
  destruct t; [congruence|]. simpl. rewrite Hz. now split.
Qed.

Lemma nseq_decide a b : a ≠ NaN → b ≠ NaN → nseq a b = bool_decide (a = b).
Proof. destruct a, b; simpl; congruence. Qed.

Lemma ngt_nsub a b :
  a ≠ NaN → b ≠ NaN → a ≠ b → ngt (nsub a b) (Fin 0) = nlt b a.
Proof.
  unfold ngt. destruct a, b; simpl; try congruence.
  intros _ _ H. destruct (0 <? z - z0) eqn:E1, (z0 <? z) eqn:E2; try reflexivity;
    rewrite ?Z.ltb_lt, ?Z.ltb_ge in *; lia.
Qed.

Lemma nlt_total a b :
  a ≠ NaN → b ≠ NaN → a ≠ b → nlt b a = false → nlt a b = true.
Proof.
  destruct a, b; simpl; try congruence.
  intros _ _ H. rewrite Z.ltb_lt, Z.ltb_ge. intros H'.
  assert (z ≠ z0) by congruence. lia.
Qed.

Lemma byStart_sign zx zy :
  (ngt (nsub (Fin zy) (Fin zx)) (Fin 0) = false → nle (Fin zy) (Fin zx) = true)
  ∧ (ngt (nsub (Fin zy) (Fin zx)) (Fin 0) = true → nle (Fin zx) (Fin zy) = true).
Proof.
  unfold ngt, nle, nseq. simpl. rewrite Z.ltb_lt, Z.ltb_ge, !orb_true_iff, !Z.ltb_lt,
    !bool_decide_eq_true.
  split; intros H; destruct (decide (zx = zy)) as [->|]; auto with lia.
Qed.

Lemma compare_sign x y :
  Spec.Rankable getTime x → Spec.Rankable getTime y →
  (ngt (compareCMEs getTime x y) (Fin 0) = false → Spec.RankedBefore getTime x y)
  ∧ (ngt (compareCMEs getTime x y) (Fin 0) = true → Spec.RankedBefore getTime y x).
Proof.
  intros [Vx Sx] [Vy Sy].
  apply earth_score in Sx as (sx & Ex & Lx & Nx & Px & Ox).
  apply earth_score in Sy as (sy & Ey & Ly & Ny & Py & Oy).
  destruct Vx as [[_ [zx Zx]] Ax], Vy as [[_ [zy Zy]] Ay].
  unfold compareCMEs, Spec.RankedBefore, Spec.startKey.
  rewrite Ex, Ey, Ox, Oy, Zx, Zy.
  unfold osne, oseq, nsne.
  rewrite (nseq_decide sx sy), (nseq_decide sx (Fin 1)), (nseq_decide sy (Fin 1))
    by (assumption || discriminate).
  destruct (byStart_sign zx zy) as [B1 B2].
  destruct (decide (sx = sy)) as [<- | Hs].
  - rewrite bool_decide_eq_true_2 by reflexivity. cbn [negb].
    destruct (decide (sx = Fin 1)) as [-> | H1].
    + rewrite bool_decide_eq_true_2 by reflexivity. cbn [andb].
      destruct (arrival_time x (Ax Ex)) as [-> Nkx].
      destruct (arrival_time y (Ay Ey)) as [-> Nky].
      rewrite nseq_decide by assumption.
      destruct (decide (Spec.arrivalKey getTime x = Spec.arrivalKey getTime y))
        as [Hk | Hk].
      * rewrite bool_decide_eq_true_2 by assumption. cbn [negb].
        split; intros H; exists (Fin 1), (Fin 1); repeat split; right;
          (split; [reflexivity|]); right; auto.
      * rewrite bool_decide_eq_false_2 by assumption. cbn [negb].
        rewrite ngt_nsub by assumption.
        split; intros H; exists (Fin 1), (Fin 1); repeat split; right;
          (split; [reflexivity|]); left; (split; [reflexivity|]);
          [apply nlt_total; auto | exact H].
    + rewrite bool_decide_eq_false_2 by assumption. cbn [andb].
      split; intros H; exists sx, sx; repeat split; right;
        (split; [reflexivity|]); right; (split; [congruence | auto]).
  - rewrite bool_decide_eq_false_2 by assumption. cbn [negb].
    rewrite ngt_nsub by assumption.
    split; intros H; [exists sx, sy | exists sy, sx]; repeat split; left;
      [now apply nlt_total | exact H].
Qed.
End Compare.

(** Membership and the two filters. *)
Section PartitionFacts.
Variable getTime : string → num.

Lemma earthDirected_perm (l : list EnhancedCME) :
  Permutation (earthDirectedCMEs getTime l)
    (List.filter (fun cme => nle (orInfinity (earthImpactScore cme)) (Fin 3)) l).
Proof. apply sort_perm. Qed.

Lemma elem_of_earthDirected l c :
  c ∈ earthDirectedCMEs getTime l
  ↔ c ∈ l ∧ nle (orInfinity (earthImpactScore c)) (Fin 3) = true.
Proof.
  rewrite (earthDirected_perm l), !list_elem_of_In. apply filter_In.
Qed.

Lemma same_id_same_cme (l : list EnhancedCME) x y :
  NoDup (map (fun c => activityID (raw c)) l) →
  In x l → In y l → activityID (raw x) = activityID (raw y) → x = y.
Proof.
  induction l as [|z l IH]; simpl; [tauto|].
  intros Hnd [-> | Hx] [-> | Hy] E; apply NoDup_cons in Hnd as [Hz Hnd].
  - reflexivity.
  - exfalso. apply Hz. rewrite E. apply list_elem_of_In, in_map_iff. eauto.
  - exfalso. apply Hz. rewrite <- E. apply list_elem_of_In, in_map_iff. eauto.
  - now apply IH.
Qed.

(** With pairwise distinct activity IDs, [otherCMEs] keeps exactly the
    entries that fail the filter of [earthDirectedCMEs]. *)
Lemma otherCMEs_complement l :
  NoDup (map (fun c => activityID (raw c)) l) →
  otherCMEs getTime l
  = List.filter (fun cme => negb (nle (orInfinity (earthImpactScore cme)) (Fin 3))) l.
Proof.
  intros Hnd. unfold otherCMEs. apply filter_ext_in. intros c Hc. f_equal.
  destruct (nle (orInfinity (earthImpactScore c)) (Fin 3)) eqn:E.
  - apply bool_decide_eq_true.
    destruct (List.find _ (earthDirectedCMEs getTime l)) as [e|] eqn:F; [eauto|].
    exfalso. apply find_none with (x := c) in F.
    + now rewrite String.eqb_refl in F.
    + apply list_elem_of_In, elem_of_earthDirected. split; [|exact E].
      now apply list_elem_of_In.
  - apply bool_decide_eq_false. intros [e F].
    apply find_some in F as [He Hid]. apply String.eqb_eq in Hid.
    apply list_elem_of_In, elem_of_earthDirected in He as [He Hs].
    apply list_elem_of_In in He.
    assert (e = c) by (eapply same_id_same_cme; eauto). congruence.
Qed.

Lemma filter_split_perm {A} (p : A → bool) l :
  Permutation (List.filter p l ++ List.filter (fun x => negb (p x)) l) l.
Proof.
  induction l as [|x l IH]; simpl; [reflexivity|].
  destruct (p x); simpl.
  - now constructor.
  - rewrite <- Permutation_middle. now constructor.
Qed.

Lemma score_filter_spec c :
  Spec.ScoreInRange c →
  nle (orInfinity (earthImpactScore c)) (Fin 3) = true ↔ Spec.ScoreAtMost3 c.
Proof.
  unfold Spec.ScoreInRange, Spec.ScoreAtMost3. intros [-> | H].
  - split; [discriminate | intros (s & H & _); discriminate].
  - repeat (apply elem_of_cons in H as [-> | H]); try (now inversion H); simpl;
      (split; [intros E; try discriminate E; eauto
              | intros (s & [= <-] & E); exact E]).
Qed.

End PartitionFacts.

End RankFacts.

Module RankClaims.
Import Rank RankFacts.

Lemma two_elements_order {A} (l : list A) x y :
  x ∈ l → y ∈ l → x ≠ y →
  (∃ l1 l2 l3, l = l1 ++ x :: l2 ++ y :: l3)
  ∨ (∃ l1 l2 l3, l = l1 ++ y :: l2 ++ x :: l3).
Proof.
  intros Hx Hy Hne.
  apply list_elem_of_split in Hx as (l1 & l2 & ->).
  apply elem_of_app in Hy as [Hy | Hy].
  - right. apply list_elem_of_split in Hy as (k1 & k2 & ->).
    exists k1, k2, l2. now rewrite <- app_assoc.
  - apply elem_of_cons in Hy as [-> | Hy]; [congruence|].
    left. apply list_elem_of_split in Hy as (k1 & k2 & ->). now exists l1, k1, k2.
Qed.

Lemma sorted_earlier_related {A} (R : A → A → Prop) l1 l2 l3 x y :
  StronglySorted R (l1 ++ x :: l2 ++ y :: l3) → R x y.
Proof.
  induction l1 as [|z l1 IH]; simpl; intros H; inversion H as [|? ? Hs Hall]; subst.
  - rewrite Forall_forall in Hall. apply Hall. set_solver.
  - now apply IH.
Qed.

Lemma nlt_irrefl a : nlt a a = false.
Proof. destruct a; simpl; try reflexivity. apply Z.ltb_irrefl. Qed.

(** C3 (as amended): for every list of enhanced CMEs whose activity IDs
    are pairwise distinct, [earthDirectedCMEs] and [otherCMEs] together
    are a rearrangement of the list, each entry occurring exactly once;
    of the entries whose score is within 1, 2, 3, 4, Infinity or absent,
    [earthDirectedCMEs] holds exactly those scoring at most 3 and
    [otherCMEs] exactly those scoring 4 or Infinity (or without score). *)
Theorem partition_complete getTime (l : list EnhancedCME) :
  NoDup (map (fun c => activityID (raw c)) l) →
  Permutation (earthDirectedCMEs getTime l ++ otherCMEs getTime l) l
  ∧ (∀ c, Spec.ScoreInRange c →
          c ∈ earthDirectedCMEs getTime l ↔ c ∈ l ∧ Spec.ScoreAtMost3 c)
  ∧ (∀ c, Spec.ScoreInRange c →
          c ∈ otherCMEs getTime l
          ↔ c ∈ l ∧ earthImpactScore c ∈ [None; Some (Fin 4); Some PInf]).
Proof.
  intros Hnd. split; [|split].
  - rewrite otherCMEs_complement by exact Hnd.
    rewrite earthDirected_perm. apply filter_split_perm.
  - intros c Hr. rewrite elem_of_earthDirected.
    now rewrite (score_filter_spec c Hr).
  - intros c Hr. rewrite otherCMEs_complement by exact Hnd.
    rewrite list_elem_of_In, filter_In, <- list_elem_of_In, negb_true_iff.
    split; intros [Hc E]; (split; [exact Hc|]).
    + destruct Hr as [-> | H]; [set_solver|].
      repeat (apply elem_of_cons in H as [H | H]); try (now inversion H);
        rewrite H in E |- *; try discriminate E; set_solver.
    + repeat (apply elem_of_cons in E as [-> | E]); try (now inversion E);
        reflexivity.
Qed.

Lemma partition_complete_witness :
  Permutation
    (earthDirectedCMEs isoTime [Examples.late; Examples.missA; Examples.early]
     ++ otherCMEs isoTime [Examples.late; Examples.missA; Examples.early])
    [Examples.late; Examples.missA; Examples.early]
  ∧ (Examples.early
       ∈ earthDirectedCMEs isoTime [Examples.late; Examples.missA; Examples.early]
     ↔ Examples.early ∈ [Examples.late; Examples.missA; Examples.early]
       ∧ Spec.ScoreAtMost3 Examples.early)
  ∧ (Examples.missA
       ∈ otherCMEs isoTime [Examples.late; Examples.missA; Examples.early]
     ↔ Examples.missA ∈ [Examples.late; Examples.missA; Examples.early]
       ∧ earthImpactScore Examples.missA ∈ [None; Some (Fin 4); Some PInf]).
Proof.
  assert (Hnd : NoDup (map (fun c => activityID (raw c))
                         [Examples.late; Examples.missA; Examples.early])).
  { simpl. repeat constructor; intros H;
      repeat (apply elem_of_cons in H as [H | H]; [discriminate H|]);
      inversion H. }
  pose proof (partition_complete isoTime
                [Examples.late; Examples.missA; Examples.early] Hnd)
    as (Hperm & Hed & Hother).
  split; [exact Hperm|]. split.
  - apply Hed. right. apply list_elem_of_here.
  - apply Hother. right. do 4 apply list_elem_of_further. apply list_elem_of_here.
Defined.

(** C3 (as stated) fails: the feed delivered two records with activity
    ID ["A"]; one is enhanced to score 1 and the other, without analyses,
    to score Infinity.  The second is in neither partition. *)
Lemma partition_loses_duplicate_id :
  Enrich.enhanceCMEData Examples.cmeA = Ok Examples.hitA
  ∧ Enrich.enhanceCMEData Examples.cmeA2 = Ok Examples.missA
  ∧ earthDirectedCMEs isoTime [Examples.hitA; Examples.missA] = [Examples.hitA]
  ∧ otherCMEs isoTime [Examples.hitA; Examples.missA] = []
  ∧ earthImpactScore Examples.missA = Some PInf
  ∧ ¬ Permutation
        (earthDirectedCMEs isoTime [Examples.hitA; Examples.missA]
         ++ otherCMEs isoTime [Examples.hitA; Examples.missA])
        [Examples.hitA; Examples.missA].
Proof.
  assert (E : earthDirectedCMEs isoTime [Examples.hitA; Examples.missA]
              = [Examples.hitA]) by (vm_compute; reflexivity).
  assert (O : otherCMEs isoTime [Examples.hitA; Examples.missA] = [])
    by (vm_compute; reflexivity).
  split; [reflexivity|]. split; [reflexivity|].
  split; [exact E|]. split; [exact O|]. split; [reflexivity|].
  rewrite E, O. intros H. apply Permutation_length in H. discriminate H.
Qed.

Lemma valid_rankable getTime l c :
  Forall (Spec.ValidTimes getTime) l →
  c ∈ earthDirectedCMEs getTime l → Spec.Rankable getTime c.
Proof.
  intros Hv Hc. apply elem_of_earthDirected in Hc as [Hc Hs].
  rewrite Forall_forall in Hv. split; auto.
Qed.

(** C4 (as amended): when every entry that passes the filter
    [(score || Infinity) <= 3] has a start time that is a valid date,
    and every such entry scoring 1 that has an arrival time has one
    that is a valid date,
    [earthDirectedCMEs] is ordered by ascending score; among
    entries scoring exactly 1 by ascending arrival time, an entry without
    arrival time coming after those with one; and all remaining ties by
    descending start time.  In particular, of two entries scoring 1 with
    arrival times 2024-01-01T10:00Z and 2024-01-01T08:00Z the one
    arriving at 08:00 comes first. *)
Theorem earthDirected_order getTime (l : list EnhancedCME) :
  Forall (fun c => nle (orInfinity (earthImpactScore c)) (Fin 3) = true →
                   Spec.ValidTimes getTime c) l →
  StronglySorted (Spec.RankedBefore getTime) (earthDirectedCMEs getTime l)
  ∧ ∀ a b,
      a ∈ l → b ∈ l →
      earthImpactScore a = Some (Fin 1) →
      earthImpactScore b = Some (Fin 1) →
      displayEnlilArrivalTime a = Some "2024-01-01T10:00Z" →
      displayEnlilArrivalTime b = Some "2024-01-01T08:00Z" →
      nlt (getTime "2024-01-01T08:00Z") (getTime "2024-01-01T10:00Z") = true →
      ∃ l1 l2 l3, earthDirectedCMEs getTime l = l1 ++ b :: l2 ++ a :: l3.
Proof.
  intros Hv.
  assert (Hs : StronglySorted (Spec.RankedBefore getTime)
                 (earthDirectedCMEs getTime l)).
  { unfold earthDirectedCMEs.
    apply (sort_sorted _ (Spec.Rankable getTime)).
    - intros x y Dx Dy. apply (compare_sign getTime x y Dx Dy).
    - intros x y Dx Dy. apply (compare_sign getTime x y Dx Dy).
    - apply RankedBefore_trans.
    - apply Forall_forall. intros c Hc. apply list_elem_of_In, filter_In in Hc as [Hc E].
      rewrite Forall_forall in Hv. split; [|exact E].
      apply Hv; [now apply list_elem_of_In | exact E]. }
  split; [exact Hs|].
  intros a b Ha Hb Sa Sb Ta Tb Hlt.
  assert (Ia : a ∈ earthDirectedCMEs getTime l).
  { apply elem_of_earthDirected. split; [exact Ha|]. now rewrite Sa. }
  assert (Ib : b ∈ earthDirectedCMEs getTime l).
  { apply elem_of_earthDirected. split; [exact Hb|]. now rewrite Sb. }
  assert (Hne : a ≠ b) by (intros ->; congruence).
  destruct (two_elements_order _ a b Ia Ib Hne)
    as [(l1 & l2 & l3 & E) | (l1 & l2 & l3 & E)]; [|eauto].
  exfalso. rewrite E in Hs. apply sorted_earlier_related in Hs.
  destruct Hs as (sa & sb & Ea & Eb & H).
  rewrite Sa in Ea. rewrite Sb in Eb. injection Ea as <-. injection Eb as <-.
  unfold Spec.arrivalKey in H. rewrite Ta, Tb in H.
  destruct H as [H | [_ [[_ H] | [H _]]]].
  - discriminate H.
  - pose proof (nlt_trans _ _ _ H Hlt) as C. now rewrite nlt_irrefl in C.
  - rewrite (H eq_refl), nlt_irrefl in Hlt. discriminate Hlt.
Qed.

Lemma earthDirected_order_witness :
  StronglySorted (Spec.RankedBefore isoTime)
    (earthDirectedCMEs isoTime
       [Examples.late; RankExamples.unrankedBad; Examples.early])
  ∧ ∃ l1 l2 l3,
      earthDirectedCMEs isoTime
        [Examples.late; RankExamples.unrankedBad; Examples.early]
      = l1 ++ Examples.early :: l2 ++ Examples.late :: l3.
Proof.
  assert (V : Forall (fun c => nle (orInfinity (earthImpactScore c)) (Fin 3) = true →
                               Spec.ValidTimes isoTime c)
                [Examples.late; RankExamples.unrankedBad; Examples.early]).
  { apply List.Forall_cons; [|apply List.Forall_cons;
      [|apply List.Forall_cons; [|apply List.Forall_nil]]].
    - intros _. split; [split; [discriminate | eexists; vm_compute; reflexivity]|].
      intros _ t [= <-]. split; [discriminate | eexists; vm_compute; reflexivity].
    - intros H. discriminate H.
    - intros _. split; [split; [discriminate | eexists; vm_compute; reflexivity]|].
      intros _ t [= <-]. split; [discriminate | eexists; vm_compute; reflexivity]. }
  split.
  - apply (proj1 (earthDirected_order isoTime
                    [Examples.late; RankExamples.unrankedBad; Examples.early] V)).
  - apply (proj2 (earthDirected_order isoTime
                    [Examples.late; RankExamples.unrankedBad; Examples.early] V)
             Examples.late Examples.early).
    + apply list_elem_of_here.
    + do 2 apply list_elem_of_further. apply list_elem_of_here.
    + reflexivity.
    + reflexivity.
    + reflexivity.
    + reflexivity.
    + vm_compute. reflexivity.
Defined.

(** C4 (as stated) fails: three entries score 2 and the start time of
    the second is not a date.  Every comparison with it gives NaN, which
    the sort reads as a tie, so the list stays as it was, although the
    third entry started a day after the first and should come before
    it. *)
Lemma invalid_start_breaks_order :
  Forall (fun c => earthImpactScore c = Some (Fin 2))
    [RankExamples.firstDay; RankExamples.badStart; RankExamples.secondDay]
  ∧ isoTime (startTime (raw RankExamples.badStart)) = NaN
  ∧ earthDirectedCMEs isoTime
      [RankExamples.firstDay; RankExamples.badStart; RankExamples.secondDay]
    = [RankExamples.firstDay; RankExamples.badStart; RankExamples.secondDay]
  ∧ nlt (isoTime (startTime (raw RankExamples.firstDay)))
        (isoTime (startTime (raw RankExamples.secondDay))) = true
  ∧ ¬ Spec.RankedBefore isoTime RankExamples.firstDay RankExamples.secondDay
  ∧ ¬ StronglySorted (Spec.RankedBefore isoTime)
        (earthDirectedCMEs isoTime
           [RankExamples.firstDay; RankExamples.badStart; RankExamples.secondDay]).
Proof.
  assert (E : earthDirectedCMEs isoTime
                [RankExamples.firstDay; RankExamples.badStart; RankExamples.secondDay]
              = [RankExamples.firstDay; RankExamples.badStart; RankExamples.secondDay])
    by (vm_compute; reflexivity).
  assert (N : ¬ Spec.RankedBefore isoTime RankExamples.firstDay RankExamples.secondDay).
  { intros (sa & sb & Ea & Eb & H).
    injection Ea as <-. injection Eb as <-.
    destruct H as [H | [_ [[H _] | [_ H]]]].
    - discriminate H.
    - discriminate H.
    - vm_compute in H. discriminate H. }
  split; [repeat constructor|]. split; [vm_compute; reflexivity|].
  split; [exact E|]. split; [vm_compute; reflexivity|]. split; [exact N|].
  rewrite E. intros H. apply StronglySorted_inv in H as [_ H].
  apply Forall_cons in H as [_ H]. apply Forall_cons in H as [H _]. exact (N H).
Qed.

End RankClaims.

(** ** The cross-event correlator *)

Module CorrelateFacts.
Import Correlate.

Lemma bind_run {A B} (m : M A) (f : A → M B) σ :
  (m ≫= f) σ = match m σ with Ok (a, σ') => f a σ' | TypeError => TypeError end.
Proof. reflexivity. Qed.

Lemma resolve_snoc cs c id :
  Spec.resolve (cs ++ [c]) id
  = if String.eqb (activityID (raw c)) id then Some c else Spec.resolve cs id.
Proof.
  unfold Spec.resolve. rewrite List.filter_app. simpl.
  destruct (String.eqb (activityID (raw c)) id).
  - apply last_snoc.
  - now rewrite app_nil_r.
Qed.

Lemma Indexes_preserved σ σ' m cs :
  Spec.PreservesCMEs σ σ' → Spec.Indexes σ m cs → Spec.Indexes σ' m cs.
Proof.
  intros Hp Hi id. specialize (Hi id). destruct (m !! id) as [l|]; [|exact Hi].
  destruct Hi as (c & Hl & Hr). exists c. split; [now apply Hp | exact Hr].
Qed.

Lemma fillCmeMap_spec σ refs cs m pre :
  Spec.Holds σ refs cs → Spec.Indexes σ m pre →
  ∃ m', fillCmeMap refs m σ = Ok (m', σ) ∧ Spec.Indexes σ m' (pre ++ cs).
Proof.
  intros H. revert m pre. induction H as [|l c refs cs Hl _ IH]; intros m pre Hi.
  - exists m. rewrite app_nil_r. now split.
  - cbn [fillCmeMap]. rewrite bind_run. unfold readCME at 1. rewrite Hl.
    destruct (IH (<[activityID (raw c) := l]> m) (pre ++ [c])) as (m' & E & Hi').
    + intros id. rewrite resolve_snoc.
      destruct (String.eqb_spec (activityID (raw c)) id) as [<- | Hne].
      * rewrite lookup_insert_eq. eauto.
      * rewrite lookup_insert_ne by exact Hne. apply Hi.
    + exists m'. split; [exact E|]. now rewrite <- app_assoc in Hi'.
Qed.

Lemma PreservesCMEs_refl σ : Spec.PreservesCMEs σ σ.
Proof. now intros l c H. Qed.

Lemma PreservesCMEs_trans σ1 σ2 σ3 :
  Spec.PreservesCMEs σ1 σ2 → Spec.PreservesCMEs σ2 σ3 → Spec.PreservesCMEs σ1 σ3.
Proof. intros H1 H2 l c H. now apply H2, H1. Qed.

Lemma subseteq_PreservesCMEs (σ σ' : gmap positive cell) :
  σ ⊆ σ' → Spec.PreservesCMEs σ σ'.
Proof. intros H l c Hl. now apply (lookup_weaken σ). Qed.

(** Growing an array in place leaves every enhanced CME alone. *)
Lemma array_update_preserves (σ : gmap positive cell) arr a a' :
  σ !! arr = Some (InfoArray a) →
  Spec.PreservesCMEs σ (<[arr := InfoArray a']> σ).
Proof.
  intros Ha l c Hl. rewrite lookup_insert_ne; [exact Hl|]. congruence.
Qed.

Lemma collectLinked_spec σ m cs arr acc les :
  Spec.Indexes σ m cs →
  σ !! arr = Some (InfoArray acc) →
  collectLinked m arr les σ
  = Ok (tt, <[arr := InfoArray
                (acc ++ Spec.resolvedSummaries cs (le_activityID <$> les))]> σ).
Proof.
  revert σ acc. induction les as [|le les IH]; intros σ acc Hi Ha.
  - simpl. rewrite app_nil_r, insert_id by exact Ha. reflexivity.
  - cbn [collectLinked fmap list_fmap]. unfold Spec.resolvedSummaries. cbn [omap list_omap].
    specialize (Hi (le_activityID le)) as Hid.
    destruct (m !! le_activityID le) as [l|].
    + destruct Hid as (c & Hl & ->). simpl.
      rewrite bind_run. unfold readCME at 1. rewrite Hl.
      rewrite bind_run. unfold push at 1, write. rewrite Ha.
      rewrite (IH _ (acc ++ [Spec.summary c])).
      * rewrite insert_insert_eq, <- app_assoc. reflexivity.
      * eapply Indexes_preserved; [|exact Hi]. eapply array_update_preserves, Ha.
      * apply lookup_insert_eq.
    + rewrite Hid. simpl. now apply IH.
Qed.

Lemma correlateFlare_spec σ m cs flare :
  Spec.Indexes σ m cs →
  let arr := fresh (dom σ) in
  let infos := Spec.resolvedSummaries cs (Spec.linksOf (fl_linkedEvents flare)) in
  correlateFlare m flare σ
  = Ok ({| flrID := flrID flare; beginTime := beginTime flare;
           classType := classType flare; fl_link := fl_link flare;
           fl_linkedEvents := fl_linkedEvents flare;
           associatedCMEs := match infos with [] => None | _ => Some arr end |},
        <[arr := InfoArray infos]> σ).
Proof.
  intros Hi arr infos. unfold correlateFlare.
  rewrite bind_run. unfold alloc at 1. fold arr.
  assert (Hfresh : σ !! arr = None).
  { apply not_elem_of_dom. apply is_fresh. }
  assert (Hi' : Spec.Indexes (<[arr := InfoArray []]> σ) m cs).
  { eapply Indexes_preserved; [|exact Hi].
    apply subseteq_PreservesCMEs. now apply insert_subseteq. }
  rewrite bind_run.
  assert (E : match fl_linkedEvents flare with
              | Some les => collectLinked m arr les
              | None => mret tt
              end (<[arr := InfoArray []]> σ)
              = Ok (tt, <[arr := InfoArray infos]> σ)).
  { unfold infos, Spec.linksOf. destruct (fl_linkedEvents flare) as [les|]; simpl.
    - rewrite (collectLinked_spec _ m cs arr []); [|exact Hi'|apply lookup_insert_eq].
      now rewrite insert_insert_eq.
    - reflexivity. }
  rewrite E. rewrite bind_run. unfold arrayLength at 1. rewrite lookup_insert_eq.
  unfold mret, M_ret. do 3 f_equal. now destruct infos.
Qed.


Lemma FlareAnnotated_weaken cs (σ σ' : gmap positive cell) flare flare' :
  σ ⊆ σ' → Spec.FlareAnnotated cs σ flare flare' →
  Spec.FlareAnnotated cs σ' flare flare'.
Proof.
  intros Hsub (H1 & H2 & H3 & H4 & H5 & H6). repeat split; try assumption.
  destruct (associatedCMEs flare') as [arr|]; [|exact H6].
  destruct H6 as [Ha Hne]. split; [|exact Hne]. now apply (lookup_weaken σ).
Qed.

Lemma mapM_correlateFlare σ m cs flares :
  Spec.Indexes σ m cs →
  ∃ out σ', mapM (correlateFlare m) flares σ = Ok (out, σ')
            ∧ σ ⊆ σ'
            ∧ Forall2 (Spec.FlareAnnotated cs σ') flares out.
Proof.
  revert σ. induction flares as [|flare flares IH]; intros σ Hi.
  - exists [], σ. repeat split; [reflexivity | constructor].
  - cbn [mapM]. rewrite bind_run, (correlateFlare_spec σ m cs flare Hi).
    set (arr := fresh (dom σ)).
    set (infos := Spec.resolvedSummaries cs (Spec.linksOf (fl_linkedEvents flare))).
    assert (Hfresh : σ !! arr = None) by apply not_elem_of_dom, is_fresh.
    assert (Hsub : σ ⊆ <[arr := InfoArray infos]> σ) by now apply insert_subseteq.
    destruct (IH (<[arr := InfoArray infos]> σ)) as (out & σ' & E & Hsub' & Hall).
    { eapply Indexes_preserved; [|exact Hi]. now apply subseteq_PreservesCMEs. }
    rewrite bind_run, E. eexists _, σ'. split; [reflexivity|].
    split; [now transitivity (<[arr := InfoArray infos]> σ)|].
    constructor; [|exact Hall].
    apply (FlareAnnotated_weaken cs (<[arr := InfoArray infos]> σ)); [exact Hsub'|].
    repeat split; simpl. fold infos. destruct infos eqn:Ei; [reflexivity|].
    split; [apply lookup_insert_eq | discriminate].
Qed.

Lemma correlateFlares_spec σ refs cs flares :
  Spec.Holds σ refs cs →
  ∃ out σ', correlateFlares refs flares σ = Ok (out, σ')
            ∧ σ ⊆ σ'
            ∧ Forall2 (Spec.FlareAnnotated cs σ') flares out.
Proof.
  intros H. unfold correlateFlares. rewrite bind_run.
  destruct (fillCmeMap_spec σ refs cs ∅ [] H) as (m & E & Hi).
  { intros id. now rewrite lookup_empty. }
  rewrite E. now apply mapM_correlateFlare.
Qed.

Lemma firstLinked_spec σ m cs les vars :
  Spec.Indexes σ m cs →
  firstLinked m les vars σ
  = Ok (match Spec.causative cs (le_activityID <$> les) with
        | Some c =>
            {| cSpeed := orUndefined (displayAnalysisSpeed c);
               cStartTime := Some (startTime (raw c));
               cLink := Some (link (raw c));
               cActivityID := Some (activityID (raw c)) |}
        | None => vars
        end, σ).
Proof.
  intros Hi. unfold Spec.causative.
  induction les as [|le les IH]; [reflexivity|].
  cbn [firstLinked fmap list_fmap omap list_omap].
  specialize (Hi (le_activityID le)) as Hid.
  destruct (m !! le_activityID le) as [l|].
  - destruct Hid as (c & Hl & ->). simpl.
    rewrite bind_run. unfold readCME at 1. now rewrite Hl.
  - rewrite Hid. exact IH.
Qed.

Lemma correlateShock_spec σ m cs ips :
  Spec.Indexes σ m cs →
  ∃ ips', correlateShock m ips σ = Ok (ips', σ) ∧ Spec.ShockAnnotated cs ips ips'.
Proof.
  intros Hi. unfold correlateShock. cbv zeta. rewrite bind_run.
  unfold Spec.ShockAnnotated, Spec.linksOf.
  destruct (ips_linkedEvents ips) as [les|]; simpl default.
  - rewrite (firstLinked_spec σ m cs les _ Hi).
    eexists. split; [reflexivity|]. simpl.
    destruct (Spec.causative cs (le_activityID <$> les)); now repeat split.
  - eexists. split; [reflexivity|]. now repeat split.
Qed.

Lemma mapM_correlateShock σ m cs shocks :
  Spec.Indexes σ m cs →
  ∃ out, mapM (correlateShock m) shocks σ = Ok (out, σ)
         ∧ Forall2 (Spec.ShockAnnotated cs) shocks out.
Proof.
  intros Hi. induction shocks as [|ips shocks (out & E & Hall)].
  - exists []. split; [reflexivity | constructor].
  - destruct (correlateShock_spec σ m cs ips Hi) as (ips' & E' & Ha).
    exists (ips' :: out). cbn [mapM]. rewrite bind_run, E', bind_run, E.
    split; [reflexivity | now constructor].
Qed.

End CorrelateFacts.

Module CorrelateClaims.
Import Correlate CorrelateFacts.

Lemma resolvedSummaries_fmap cs ids :
  Spec.resolvedSummaries cs ids = Spec.summary <$> omap (Spec.resolve cs) ids.
Proof.
  unfold Spec.resolvedSummaries. induction ids as [|id ids IH]; [reflexivity|].
  cbn [omap list_omap]. destruct (Spec.resolve cs id); simpl; now rewrite IH.
Qed.

Lemma Holds_preserved σ σ' refs cs :
  Spec.PreservesCMEs σ σ' → Spec.Holds σ refs cs → Spec.Holds σ' refs cs.
Proof.
  intros Hp H. induction H; constructor; auto.
Qed.

(** C7: the flare pass visits the linked IDs of a flare in order and
    collects, for each ID that resolves in the lookup, the summary
    (activityID, startTime, note, link, earthImpactScore) of the enhanced
    CME found; unresolved IDs are skipped without error, and a flare
    none of whose IDs resolves gets no annotation.  A flare with three
    links of which two resolve gets exactly those two summaries, in
    the order of the links. *)
Theorem flare_correlation :
  (∀ σ refs cs flares,
     Spec.Holds σ refs cs →
     ∃ out σ', correlateFlares refs flares σ = Ok (out, σ')
               ∧ Forall2 (Spec.FlareAnnotated cs σ') flares out)
  ∧ (∀ σ refs cs flare i1 i2 i3 c1 c2,
       Spec.Holds σ refs cs →
       Spec.linksOf (fl_linkedEvents flare) = [i1; i2; i3] →
       omap (Spec.resolve cs) [i1; i2; i3] = [c1; c2] →
       ∃ flare' arr σ',
         correlateFlares refs [flare] σ = Ok ([flare'], σ')
         ∧ associatedCMEs flare' = Some arr
         ∧ σ' !! arr = Some (InfoArray [Spec.summary c1; Spec.summary c2])).
Proof.
  split.
  - intros σ refs cs flares H.
    destruct (correlateFlares_spec σ refs cs flares H) as (out & σ' & E & _ & Hall).
    now exists out, σ'.
  - intros σ refs cs flare i1 i2 i3 c1 c2 H Hl Hr.
    destruct (correlateFlares_spec σ refs cs [flare] H) as (out & σ' & E & _ & Hall).
    inversion Hall as [|? flare' ? out' Ha Hnil]; subst.
    inversion Hnil; subst.
    destruct Ha as (_ & _ & _ & _ & _ & Ha).
    rewrite Hl, resolvedSummaries_fmap, Hr in Ha. simpl in Ha.
    destruct (associatedCMEs flare') as [arr|] eqn:Ea; [|discriminate Ha].
    destruct Ha as [Ha _]. exists flare', arr, σ'.
    split; [exact E|]. split; [exact Ea | exact Ha].
Qed.

Lemma flare_correlation_witness :
  ∃ flare' arr σ',
    correlateFlares [1%positive; 2%positive] [Examples.flareF] Examples.store0
    = Ok ([flare'], σ')
    ∧ associatedCMEs flare' = Some arr
    ∧ σ' !! arr
      = Some (InfoArray [Spec.summary Examples.hitA; Spec.summary Examples.zedZ]).
Proof.
  apply (proj2 flare_correlation Examples.store0 [1%positive; 2%positive]
           [Examples.hitA; Examples.zedZ] Examples.flareF "A" "Q" "Z").
  - apply List.Forall2_cons; [reflexivity|].
    apply List.Forall2_cons; [reflexivity|]. apply List.Forall2_nil.
  - reflexivity.
  - reflexivity.
Defined.


(** C8 (as amended): the shock pass goes through the linked IDs of a
    shock in order, takes the first ID that resolves to an enhanced CME
    and stops there; it copies the start time, the link and the activity
    ID of that CME, and its display speed when that is a non-zero number
    (a speed of 0, like a missing one, leaves the field absent).  Later
    resolvable IDs are ignored, and a shock none of whose IDs resolves
    gets no causative CME. *)
Theorem shock_correlation :
  (∀ σ refs cs shocks,
     Spec.Holds σ refs cs →
     ∃ out, correlateShocks refs shocks σ = Ok (out, σ)
            ∧ Forall2 (Spec.ShockAnnotated cs) shocks out)
  ∧ (∀ cs before id after c,
       Forall (fun i => Spec.resolve cs i = None) before →
       Spec.resolve cs id = Some c →
       Spec.causative cs (before ++ id :: after) = Some c).
Proof.
  split.
  - intros σ refs cs shocks H. unfold correlateShocks. rewrite bind_run.
    destruct (fillCmeMap_spec σ refs cs ∅ [] H) as (m & E & Hi).
    { intros i. now rewrite lookup_empty. }
    rewrite E. now apply mapM_correlateShock.
  - intros cs before id after c Hb Hr. unfold Spec.causative.
    induction Hb as [|i before Hi _ IH]; cbn [app omap list_omap].
    + now rewrite Hr.
    + rewrite Hi. exact IH.
Qed.

Lemma shock_correlation_witness :
  (∃ out, correlateShocks [1%positive; 2%positive] [Examples.shockI] Examples.store0
          = Ok (out, Examples.store0)
          ∧ Forall2 (Spec.ShockAnnotated [Examples.hitA; Examples.zedZ])
              [Examples.shockI] out)
  ∧ Spec.causative [Examples.hitA; Examples.zedZ] (["Q"] ++ "Z" :: ["A"])
    = Some Examples.zedZ.
Proof.
  split.
  - apply (proj1 shock_correlation Examples.store0 [1%positive; 2%positive]
             [Examples.hitA; Examples.zedZ] [Examples.shockI]).
    apply List.Forall2_cons; [reflexivity|].
    apply List.Forall2_cons; [reflexivity|]. apply List.Forall2_nil.
  - apply (proj2 shock_correlation [Examples.hitA; Examples.zedZ] ["Q"] "Z" ["A"]).
    + apply List.Forall_cons; [reflexivity | apply List.Forall_nil].
    + reflexivity.
Defined.

(** C8 (as stated) fails: the CME [cmeS] is enhanced to a record whose
    display speed is 0; the shock linked to it gets its start time, link
    and activity ID, but no speed. *)
Lemma shock_drops_zero_speed :
  Enrich.enhanceCMEData Examples.cmeS = Ok Examples.slowS
  ∧ displayAnalysisSpeed Examples.slowS = Some (Fin 0)
  ∧ ∃ ips',
      correlateShocks [1%positive] [Examples.shockI] Examples.storeS
      = Ok ([ips'], Examples.storeS)
      ∧ associatedCMEActivityID ips' = Some "S"
      ∧ associatedCMESpeed ips' = None
      ∧ associatedCMESpeed ips' ≠ displayAnalysisSpeed Examples.slowS.
Proof.
  split; [reflexivity|]. split; [reflexivity|].
  eexists. split; [reflexivity|]. split; [reflexivity|].
  split; [reflexivity | discriminate].
Qed.

(** C9: neither correlation pass changes an enhanced CME.  After the
    flare pass every reference of the store that held an enhanced CME
    still holds the same record, field for field (the pass only
    allocates and fills summary arrays, which hold copies); the shock
    pass leaves the whole store as it was. *)
Theorem correlation_preserves_cmes σ refs cs flares shocks :
  Spec.Holds σ refs cs →
  (∃ out σ', correlateFlares refs flares σ = Ok (out, σ')
             ∧ Spec.PreservesCMEs σ σ'
             ∧ Spec.Holds σ' refs cs)
  ∧ (∃ out, correlateShocks refs shocks σ = Ok (out, σ)).
Proof.
  intros H. split.
  - destruct (correlateFlares_spec σ refs cs flares H) as (out & σ' & E & Hsub & _).
    exists out, σ'. split; [exact E|].
    assert (Hp : Spec.PreservesCMEs σ σ') by now apply subseteq_PreservesCMEs.
    split; [exact Hp | now apply (Holds_preserved σ)].
  - unfold correlateShocks. rewrite bind_run.
    destruct (fillCmeMap_spec σ refs cs ∅ [] H) as (m & E & Hi).
    { intros i. now rewrite lookup_empty. }
    rewrite E.
    destruct (mapM_correlateShock σ m cs shocks Hi) as (out & E' & _).
    now exists out.
Qed.

Lemma correlation_preserves_cmes_witness :
  (∃ out σ',
     correlateFlares [1%positive; 2%positive] [Examples.flareF] Examples.store0
     = Ok (out, σ')
     ∧ Spec.PreservesCMEs Examples.store0 σ'
     ∧ Spec.Holds σ' [1%positive; 2%positive] [Examples.hitA; Examples.zedZ])
  ∧ (∃ out,
       correlateShocks [1%positive; 2%positive] [Examples.shockI] Examples.store0
       = Ok (out, Examples.store0)).
Proof.
  apply (correlation_preserves_cmes Examples.store0 [1%positive; 2%positive]
           [Examples.hitA; Examples.zedZ] [Examples.flareF] [Examples.shockI]).
  apply List.Forall2_cons; [reflexivity|].
  apply List.Forall2_cons; [reflexivity|]. apply List.Forall2_nil.
Defined.


(** The flare scenario, from the raw feed records: [cmeA] is enhanced
    into a fresh object, and the flare linked to it is annotated with one
    summary carrying activity ID ["A"] and score 1. *)
Example flare_scenario :
  ∃ refs σ1 flare' arr σ2,
    enhanceAll [Examples.cmeA] ∅ = Ok (refs, σ1)
    ∧ correlateFlares refs [Examples.flareA] σ1 = Ok ([flare'], σ2)
    ∧ associatedCMEs flare' = Some arr
    ∧ σ2 !! arr = Some (InfoArray [Spec.summary Examples.hitA])
    ∧ ai_activityID (Spec.summary Examples.hitA) = "A"
    ∧ ai_earthImpactScore (Spec.summary Examples.hitA) = Some (Fin 1).
Proof.
  eexists _, _, _, _, _. split; [reflexivity|]. split; [reflexivity|].
  split; [reflexivity|]. split; [reflexivity|]. split; reflexivity.
Qed.

End CorrelateClaims.

(** ** Further properties of the enrichment engine *)

Module EnrichExtras.
Import Enrich EnrichFacts.

Lemma RelevantAnalysis_unique cme a b :
  Spec.RelevantAnalysis cme a → Spec.RelevantAnalysis cme b → a = b.
Proof.
  intros Ha Hb. apply relevantAnalysis_spec in Ha, Hb. congruence.
Qed.

Lemma PrimaryEarthSim_unique a s s' :
  Spec.PrimaryEarthSim a s → Spec.PrimaryEarthSim a s' → s = s'.
Proof.
  intros Hs Hs'. apply primaryEarthSim_spec in Hs, Hs'. congruence.
Qed.

Lemma no_primary_spec a :
  Spec.primaryEarthSim a = None
  ↔ ∀ s, s ∈ Spec.simulationsOf a → ¬ Spec.EarthFlagged s.
Proof.
  unfold Spec.primaryEarthSim. rewrite find_none_Forall, Forall_forall.
  split; intros H s Hs.
  - rewrite <- earthFlagged_spec. rewrite (H s Hs). discriminate.
  - destruct (Spec.earthFlagged s) eqn:E; [|reflexivity].
    apply earthFlagged_spec in E. now destruct (H s Hs).
Qed.

Lemma no_relevant_spec cme :
  Spec.relevantAnalysis cme = None ↔ Spec.analysesOf cme = [].
Proof.
  unfold Spec.relevantAnalysis.
  destruct (Spec.analysesOf cme) as [|a l]; simpl; [tauto|].
  destruct (isMostAccurate a); [|destruct (List.find isMostAccurate l)];
    split; discriminate.
Qed.

Lemma not_mentions_spec n :
  noteMentionsEarth n = false ↔ ¬ Spec.MentionsEarth n.
Proof.
  rewrite <- StringFacts.noteMentionsEarth_spec.
  destruct (noteMentionsEarth n); split; congruence.
Qed.

Lemma nonEmpty_simulations a :
  nonEmpty (enlilList a) = true ↔ Spec.simulationsOf a ≠ [].
Proof.
  unfold nonEmpty, Spec.simulationsOf.
  destruct (enlilList a) as [[|]|]; simpl; split; congruence.
Qed.

Lemma truthy_arrival (o : option string) :
  truthyOStr o = true ↔ ∃ t, o = Some t ∧ t ≠ EmptyString.
Proof.
  destruct o as [[|c t]|]; simpl; split; try discriminate.
  - intros (t & [= <-] & H). congruence.
  - intros _. eexists. split; [reflexivity | discriminate].
  - intros (t' & [= <-] & _). reflexivity.
  - intros (t & H & _). discriminate.
Qed.

(** X1: the score [enhanceCMEData] assigns is decided as follows.  It is
    1 exactly when the primary Earth simulation of the relevant analysis
    has a non-empty arrival time, 2 exactly when that simulation exists
    with a null or empty arrival time, 3 exactly when the relevant
    analysis has no Earth-flagged simulation and its note mentions
    "earth", 4 exactly when neither holds and the relevant analysis has
    some simulation, and Infinity exactly when there is no analysis or
    the relevant analysis has no simulation and no such note. *)
Theorem score_characterised cme :
  ∃ e, enhanceCMEData cme = Ok e
    ∧ (earthImpactScore e = Some (Fin 1)
       ↔ ∃ a s t, Spec.RelevantAnalysis cme a ∧ Spec.PrimaryEarthSim a s
                  ∧ estimatedShockArrivalTime s = Some t ∧ t ≠ EmptyString)
    ∧ (earthImpactScore e = Some (Fin 2)
       ↔ ∃ a s, Spec.RelevantAnalysis cme a ∧ Spec.PrimaryEarthSim a s
                ∧ (estimatedShockArrivalTime s = None
                   ∨ estimatedShockArrivalTime s = Some EmptyString))
    ∧ (earthImpactScore e = Some (Fin 3)
       ↔ ∃ a, Spec.RelevantAnalysis cme a
              ∧ (∀ s, s ∈ Spec.simulationsOf a → ¬ Spec.EarthFlagged s)
              ∧ Spec.MentionsEarth (an_note a))
    ∧ (earthImpactScore e = Some (Fin 4)
       ↔ ∃ a, Spec.RelevantAnalysis cme a
              ∧ (∀ s, s ∈ Spec.simulationsOf a → ¬ Spec.EarthFlagged s)
              ∧ ¬ Spec.MentionsEarth (an_note a)
              ∧ Spec.simulationsOf a ≠ [])
    ∧ (earthImpactScore e = Some PInf
       ↔ Spec.analysesOf cme = []
         ∨ ∃ a, Spec.RelevantAnalysis cme a
                ∧ Spec.simulationsOf a = []
                ∧ ¬ Spec.MentionsEarth (an_note a)).
Proof.
  destruct (Spec.relevantAnalysis cme) as [a|] eqn:Ha.
  - assert (Hu : ∀ b, Spec.RelevantAnalysis cme b → b = a).
    { intros b Hb. apply relevantAnalysis_spec in Hb. congruence. }
    assert (Hne : Spec.analysesOf cme ≠ []).
    { intros E. apply no_relevant_spec in E. congruence. }
    pose proof (proj1 (relevantAnalysis_spec cme a) Ha) as Hrel.
    destruct (Spec.primaryEarthSim a) as [s|] eqn:Hs.
    + assert (Hus : ∀ s', Spec.PrimaryEarthSim a s' → s' = s).
      { intros s' H'. apply primaryEarthSim_spec in H'. congruence. }
      pose proof (proj1 (primaryEarthSim_spec a s) Hs) as Hprim.
      assert (Hflag : ¬ ∀ s', s' ∈ Spec.simulationsOf a → ¬ Spec.EarthFlagged s').
      { intros H. apply no_primary_spec in H. congruence. }
      assert (Hsims : Spec.simulationsOf a ≠ []).
      { intros E. unfold Spec.primaryEarthSim in Hs. now rewrite E in Hs. }
      eexists. split; [now apply (enhance_primary cme a s)|]. simpl.
      destruct (truthyOStr (estimatedShockArrivalTime s)) eqn:Et.
      * apply truthy_arrival in Et as (t & Et & Hnt).
        split; [split; [intros _; now exists a, s, t | reflexivity]|].
        split.
        { split; [discriminate|]. intros (b & s' & Hb & Hs' & Ho).
          apply Hu in Hb as ->. apply Hus in Hs' as ->. rewrite Et in Ho.
          destruct Ho as [Ho | [= Ho]]; congruence. }
        split; [split; [discriminate | intros (b & Hb & H & _);
                        apply Hu in Hb as ->; tauto]|].
        split; [split; [discriminate | intros (b & Hb & H & _);
                        apply Hu in Hb as ->; tauto]|].
        split; [discriminate|].
        intros [E | (b & Hb & E & _)]; [tauto|]. apply Hu in Hb as ->. tauto.
      * split.
        { split; [discriminate|]. intros (b & s' & t & Hb & Hs' & Ho & Hnt).
          apply Hu in Hb as ->. apply Hus in Hs' as ->.
          assert (truthyOStr (estimatedShockArrivalTime s) = true)
            by (apply truthy_arrival; eauto). congruence. }
        split.
        { split; [|reflexivity]. intros _. exists a, s.
          split; [exact Hrel|]. split; [exact Hprim|].
          destruct (estimatedShockArrivalTime s) as [[|c t]|];
            [now right | discriminate Et | now left]. }
        split; [split; [discriminate | intros (b & Hb & H & _);
                        apply Hu in Hb as ->; tauto]|].
        split; [split; [discriminate | intros (b & Hb & H & _);
                        apply Hu in Hb as ->; tauto]|].
        split; [discriminate|].
        intros [E | (b & Hb & E & _)]; [tauto|]. apply Hu in Hb as ->. tauto.
    + pose proof (proj1 (no_primary_spec a) Hs) as Hnone.
      assert (Hnp : ∀ s, ¬ Spec.PrimaryEarthSim a s).
      { intros s H. apply primaryEarthSim_spec in H. congruence. }
      destruct (noteMentionsEarth (an_note a)) eqn:Hn.
      * pose proof (proj1 (StringFacts.noteMentionsEarth_spec _) Hn) as Hm.
        eexists. split; [now apply (enhance_note cme a)|]. simpl.
        split; [split; [discriminate | intros (b & s & t & Hb & Hs' & _);
                        apply Hu in Hb as ->; now apply Hnp in Hs']|].
        split; [split; [discriminate | intros (b & s & Hb & Hs' & _);
                        apply Hu in Hb as ->; now apply Hnp in Hs']|].
        split; [split; [intros _; now exists a | reflexivity]|].
        split; [split; [discriminate | intros (b & Hb & _ & H & _);
                        apply Hu in Hb as ->; tauto]|].
        split; [discriminate|].
        intros [E | (b & Hb & _ & H)]; [tauto|]. apply Hu in Hb as ->. tauto.
      * pose proof (proj1 (not_mentions_spec _) Hn) as Hm.
        eexists. split; [now apply (enhance_plain cme a)|]. simpl.
        split; [split; [destruct (nonEmpty _); discriminate
                       | intros (b & s & t & Hb & Hs' & _);
                         apply Hu in Hb as ->; now apply Hnp in Hs']|].
        split; [split; [destruct (nonEmpty _); discriminate
                       | intros (b & s & Hb & Hs' & _);
                         apply Hu in Hb as ->; now apply Hnp in Hs']|].
        split; [split; [destruct (nonEmpty _); discriminate
                       | intros (b & Hb & _ & H); apply Hu in Hb as ->; tauto]|].
        destruct (nonEmpty (enlilList a)) eqn:El.
        -- pose proof (proj1 (nonEmpty_simulations a) El) as Hsims.
           split; [split; [intros _; now exists a | reflexivity]|].
           split; [discriminate|].
           intros [E | (b & Hb & E & _)]; [tauto|]. apply Hu in Hb as ->. tauto.
        -- assert (Hsims : Spec.simulationsOf a = []).
           { destruct (Spec.simulationsOf a) eqn:E; [reflexivity|].
             assert (nonEmpty (enlilList a) = true)
               by (apply nonEmpty_simulations; congruence). congruence. }
           split; [split; [discriminate | intros (b & Hb & _ & _ & H);
                           apply Hu in Hb as ->; tauto]|].
           split; [|reflexivity]. intros _. right. now exists a.
  - pose proof (proj1 (no_relevant_spec cme) Ha) as Hnil.
    assert (Hno : ∀ b, ¬ Spec.RelevantAnalysis cme b).
    { intros b Hb. apply relevantAnalysis_spec in Hb. congruence. }
    eexists. split; [now apply enhance_no_analysis|]. simpl.
    split; [split; [discriminate | intros (b & ? & ? & Hb & _); now apply Hno in Hb]|].
    split; [split; [discriminate | intros (b & ? & Hb & _); now apply Hno in Hb]|].
    split; [split; [discriminate | intros (b & Hb & _); now apply Hno in Hb]|].
    split; [split; [discriminate | intros (b & Hb & _); now apply Hno in Hb]|].
    split; [intros _; now left | reflexivity].
Qed.


(** X2: what the score says about the ENLIL display fields of the
    record [enhanceCMEData] returns.  A record scoring 1 carries a
    non-empty arrival time; one scoring 2 carries a null or empty one;
    both carry an impact-location list.  A record scoring 3 has neither
    duration nor impact locations, and one scoring 4 or Infinity has no
    ENLIL display field at all. *)
Theorem display_fields_by_score cme :
  ∃ e, enhanceCMEData cme = Ok e
    ∧ (earthImpactScore e = Some (Fin 1) →
       ∃ t, displayEnlilArrivalTime e = Some t ∧ t ≠ EmptyString)
    ∧ (earthImpactScore e = Some (Fin 2) →
       displayEnlilArrivalTime e = None
       ∨ displayEnlilArrivalTime e = Some EmptyString)
    ∧ (earthImpactScore e = Some (Fin 1) ∨ earthImpactScore e = Some (Fin 2) →
       is_Some (displayEnlilImpactLocations e))
    ∧ (earthImpactScore e = Some (Fin 3) →
       displayEnlilDuration e = None ∧ displayEnlilImpactLocations e = None)
    ∧ (earthImpactScore e = Some (Fin 4) ∨ earthImpactScore e = Some PInf →
       displayEnlilArrivalTime e = None
       ∧ displayEnlilDuration e = None
       ∧ displayEnlilImpactLocations e = None).
Proof.
  assert (Hsplit : ∀ o : option string,
    truthyOStr o = false → o = None ∨ o = Some EmptyString).
  { intros [[|c t]|] E; [now right | discriminate E | now left]. }
  destruct (Spec.relevantAnalysis cme) as [a|] eqn:Ha.
  - destruct (Spec.primaryEarthSim a) as [s|] eqn:Hs.
    + eexists. split; [now apply (enhance_primary cme a s)|]. simpl.
      destruct (truthyOStr (estimatedShockArrivalTime s)) eqn:Et.
      * apply truthy_arrival in Et as (t & -> & Hnt).
        repeat split; intros;
          repeat match goal with H : _ ∨ _ |- _ => destruct H end;
          try congruence; eauto.
      * apply Hsplit in Et.
        repeat split; intros;
          repeat match goal with H : _ = _ ∨ _ = _ |- _ => destruct H end;
          try congruence; eauto.
    + destruct (noteMentionsEarth (an_note a)) eqn:Hn.
      * eexists. split; [now apply (enhance_note cme a)|]. simpl.
        repeat split; intros;
          repeat match goal with H : _ ∨ _ |- _ => destruct H end;
          try congruence; eauto.
      * eexists. split; [now apply (enhance_plain cme a)|]. simpl.
        destruct (nonEmpty (enlilList a));
          repeat split; intros;
          repeat match goal with H : _ ∨ _ |- _ => destruct H end;
          try congruence; eauto.
  - eexists. split; [now apply enhance_no_analysis|]. simpl.
    repeat split; intros;
      repeat match goal with
             | H : _ ∨ _ |- _ => destruct H
             | H : is_Some None |- _ => destruct H
             end;
      try congruence; eauto.
Qed.

Lemma display_fields_by_score_witness :
  ∃ e, enhanceCMEData Examples.cmeA = Ok e
    ∧ ∃ t, displayEnlilArrivalTime e = Some t ∧ t ≠ EmptyString.
Proof.
  destruct (display_fields_by_score Examples.cmeA) as (e & He & H1 & _).
  exists e. split; [exact He|]. apply H1.
  assert (E : Ok e = Ok Examples.hitA) by (rewrite <- He; reflexivity).
  injection E as ->. reflexivity.
Defined.

(** X3: in the note branch (the relevant analysis has no Earth-flagged
    simulation and its note mentions "earth") the display arrival time
    is the arrival time of the first impact of the first simulation whose
    impact list is not empty, and it is absent when every simulation has
    a missing or empty impact list; duration and impact locations stay
    absent and the score is 3. *)
Theorem note_branch_arrival cme a :
  Spec.RelevantAnalysis cme a →
  (∀ s, s ∈ Spec.simulationsOf a → ¬ Spec.EarthFlagged s) →
  Spec.MentionsEarth (an_note a) →
  ∃ e, enhanceCMEData cme = Ok e
    ∧ earthImpactScore e = Some (Fin 3)
    ∧ displayEnlilDuration e = None
    ∧ displayEnlilImpactLocations e = None
    ∧ (∀ s imp imps,
         Spec.FirstSuch (fun s => Spec.impactsOf s ≠ []) (Spec.simulationsOf a) s →
         Spec.impactsOf s = imp :: imps →
         displayEnlilArrivalTime e = Some (arrivalTime imp))
    ∧ ((∀ s, s ∈ Spec.simulationsOf a → Spec.impactsOf s = []) →
       displayEnlilArrivalTime e = None).
Proof.
  intros Ha Hnone Hm.
  apply relevantAnalysis_spec in Ha. apply no_primary_spec in Hnone.
  apply StringFacts.noteMentionsEarth_spec in Hm.
  eexists. split; [now apply (enhance_note cme a)|]. simpl.
  repeat split.
  - intros s imp imps Hs Hi.
    assert (Hf : List.find (fun e => nonEmpty (impactList e)) (Spec.simulationsOf a)
                 = Some s).
    { apply find_FirstSuch. revert Hs. apply FirstSuch_iff. intros y.
      unfold nonEmpty, Spec.impactsOf.
      destruct (impactList y) as [[|]|]; simpl; split; congruence. }
    rewrite Hf. simpl. now rewrite Hi.
  - intros Hall.
    destruct (List.find _ (Spec.simulationsOf a)) as [s|] eqn:Hf; [|reflexivity].
    apply find_some in Hf as [Hin Hne]. apply list_elem_of_In in Hin.
    specialize (Hall s Hin). unfold nonEmpty, Spec.impactsOf in *.
    destruct (impactList s) as [[|]|]; simpl in *; congruence.
Qed.

Lemma note_branch_arrival_witness :
  ∃ e, enhanceCMEData Examples.cmeY = Ok e
    ∧ earthImpactScore e = Some (Fin 3)
    ∧ displayEnlilDuration e = None
    ∧ displayEnlilImpactLocations e = None
    ∧ displayEnlilArrivalTime e = None.
Proof.
  destruct (note_branch_arrival Examples.cmeY Examples.anY)
    as (e & He & H3 & Hd & Hl & _ & Hnone).
  - right. split; [repeat constructor | reflexivity].
  - intros s Hs. inversion Hs.
  - apply StringFacts.noteMentionsEarth_spec. reflexivity.
  - exists e. repeat split; try assumption. apply Hnone.
    intros s Hs. inversion Hs.
Defined.

(** X4: only the relevant analysis counts.  The four analysis display
    fields are copied from it, the raw record is carried along
    unchanged, and two CMEs with the same relevant analysis get the same
    score and the same seven display fields, whatever their other
    analyses say. *)
Theorem only_relevant_analysis_counts cme cme' a :
  Spec.RelevantAnalysis cme a →
  Spec.RelevantAnalysis cme' a →
  ∃ e e', enhanceCMEData cme = Ok e ∧ enhanceCMEData cme' = Ok e'
    ∧ raw e = cme ∧ raw e' = cme'
    ∧ displayAnalysisSpeed e = Some (speed a)
    ∧ displayAnalysisHalfAngle e = Some (halfAngle a)
    ∧ displayAnalysisType e = Some (type a)
    ∧ displayAnalysisNote e = an_note a
    ∧ earthImpactScore e' = earthImpactScore e
    ∧ displayAnalysisSpeed e' = displayAnalysisSpeed e
    ∧ displayAnalysisHalfAngle e' = displayAnalysisHalfAngle e
    ∧ displayAnalysisType e' = displayAnalysisType e
    ∧ displayAnalysisNote e' = displayAnalysisNote e
    ∧ displayEnlilArrivalTime e' = displayEnlilArrivalTime e
    ∧ displayEnlilDuration e' = displayEnlilDuration e
    ∧ displayEnlilImpactLocations e' = displayEnlilImpactLocations e.
Proof.
  intros Ha Ha'. apply relevantAnalysis_spec in Ha, Ha'.
  destruct (Spec.primaryEarthSim a) as [s|] eqn:Hs.
  - eexists _, _. split; [now apply (enhance_primary cme a s)|].
    split; [now apply (enhance_primary cme' a s)|]. now repeat split.
  - destruct (noteMentionsEarth (an_note a)) eqn:Hn.
    + eexists _, _. split; [now apply (enhance_note cme a)|].
      split; [now apply (enhance_note cme' a)|]. now repeat split.
    + eexists _, _. split; [now apply (enhance_plain cme a)|].
      split; [now apply (enhance_plain cme' a)|]. now repeat split.
Qed.

Lemma only_relevant_analysis_counts_witness :
  ∃ e e', enhanceCMEData Examples.cmeA = Ok e
    ∧ enhanceCMEData LoaderExamples.cmeYA = Ok e'
    ∧ earthImpactScore e = Some (Fin 1)
    ∧ earthImpactScore e' = earthImpactScore e
    ∧ displayEnlilArrivalTime e' = displayEnlilArrivalTime e.
Proof.
  destruct (only_relevant_analysis_counts Examples.cmeA
              LoaderExamples.cmeYA Examples.anA)
    as (e & e' & H1 & H2 & _ & _ & _ & _ & _ & _ & Hs & _ & _ & _ & _ & Ha & _).
  - left. exists [], []. split; [reflexivity|]. split; [reflexivity | constructor].
  - left. exists [Examples.anY], []. split; [reflexivity|]. split; [reflexivity|].
    apply List.Forall_cons; [discriminate | apply List.Forall_nil].
  - exists e, e'. split; [exact H1|]. split; [exact H2|]. split; [|now split].
    assert (E : enhanceCMEData Examples.cmeA = Ok Examples.hitA) by reflexivity.
    rewrite E in H1. now injection H1 as <-.
Defined.

End EnrichExtras.

(** ** The HTTP service *)

Module ServiceFacts.
Import Service ServiceSpec.

Lemma backoffs_snoc d k :
  backoffs d (S k) = backoffs d k ++ [d * 2 ^ Z.of_nat k].
Proof. unfold backoffs. now rewrite seq_S, map_app. Qed.

Lemma total_app l1 l2 : total (l1 ++ l2) = total l1 + total l2.
Proof. induction l1 as [|x l1 IH]; simpl; [reflexivity | rewrite IH; lia]. Qed.

Lemma total_backoffs d k : total (backoffs d k) = d * (2 ^ Z.of_nat k - 1).
Proof.
  induction k as [|k IH]; [simpl; lia|].
  rewrite backoffs_snoc, total_app, IH. simpl.
  rewrite Nat2Z.inj_succ, Z.pow_succ_r by lia. lia.
Qed.

Section Loop.
Context {T : Type}.
Variable url : string.
Variable maxRetries initialDelayMs : Z.
Variable world : nat → Attempt T.

(** One retryable attempt that is not the last: the loop waits and goes
    on. *)
Lemma attemptsFrom_retry n calls lastError waited :
  Z.of_nat calls < maxRetries →
  retryable (world calls) = true →
  attemptsFrom url maxRetries initialDelayMs world (S n) (Z.of_nat calls) calls
    lastError waited
  = attemptsFrom url maxRetries initialDelayMs world n (Z.of_nat (S calls)) (S calls)
      (Some (Error (failureMessage url (world calls))))
      (waited ++ [initialDelayMs * 2 ^ Z.of_nat calls]).
Proof.
  intros Hlt Hr. cbn [attemptsFrom].
  assert (E1 : (Z.of_nat calls =? maxRetries) = false) by (apply Z.eqb_neq; lia).
  assert (E2 : (Z.of_nat calls <? maxRetries) = true) by (apply Z.ltb_lt; lia).
  replace (Z.of_nat (S calls)) with (Z.of_nat calls + 1) by lia.
  rewrite E1. unfold backoff.
  destruct (world calls) as [m | [data | m] | status text ed]; simpl in Hr |- *;
    try discriminate; try reflexivity.
  apply negb_true_iff in Hr. now rewrite Hr, E2.
Qed.

(** [k] retryable attempts in a row, with attempts left after them. *)
Lemma attemptsFrom_retries k :
  Z.of_nat k ≤ maxRetries →
  (∀ j, (j < k)%nat → retryable (world j) = true) →
  ∀ n lastError,
  ∃ lastError',
    attemptsFrom url maxRetries initialDelayMs world (k + n) 0 0 lastError []
    = attemptsFrom url maxRetries initialDelayMs world n (Z.of_nat k) k lastError'
        (backoffs initialDelayMs k)
    ∧ (k = 0%nat → lastError' = lastError)
    ∧ (∀ k', k = S k' →
         lastError' = Some (Error (failureMessage url (world k')))).
Proof.
  induction k as [|k IH]; intros Hk Hr n lastError.
  - exists lastError. repeat split. intros k' E. discriminate E.
  - destruct (IH ltac:(lia) ltac:(intros j Hj; apply Hr; lia) (S n) lastError)
      as (le' & E & _).
    eexists. split; [|split; [discriminate | intros k' [= <-]; reflexivity]].
    replace (S k + n)%nat with (k + S n)%nat by lia.
    rewrite E, attemptsFrom_retry, backoffs_snoc; [reflexivity | lia |].
    apply Hr. lia.
Qed.

End Loop.


Section Bounds.
Context {T : Type}.
Variable url : string.
Variable maxRetries initialDelayMs : Z.
Variable world : nat → Attempt T.

(** One turn of the loop. *)
Lemma attemptsFrom_step n attempt calls lastError waited :
  attemptsFrom url maxRetries initialDelayMs world (S n) attempt calls lastError waited
  = let caught (message : string) : Outcome T :=
      if attempt =? maxRetries then
        {| result := inr (finalError url maxRetries message); requests := S calls;
           slept := waited |}
      else
        attemptsFrom url maxRetries initialDelayMs world n (attempt + 1) (S calls)
          (Some (Error message)) (waited ++ [backoff initialDelayMs attempt]) in
    match world calls with
    | Rejects message => caught message
    | RespondsOk (inl data) =>
        {| result := inl data; requests := S calls; slept := waited |}
    | RespondsOk (inr message) => caught message
    | RespondsError status statusText errorData =>
        let message := httpErrorMessage url status statusText errorData in
        if (400 <=? status) && (status <? 500) then
          {| result := inr (NonRetryableError message); requests := S calls;
             slept := waited |}
        else if attempt <? maxRetries then
          attemptsFrom url maxRetries initialDelayMs world n (attempt + 1) (S calls)
            (Some (Error message)) (waited ++ [backoff initialDelayMs attempt])
        else caught message
    end.
Proof. reflexivity. Qed.

(** The outcome of an attempt that fails for good on the last turn. *)
Lemma Explained_final calls lo message :
  (lo ≤ calls)%nat →
  retryable (world calls) = true →
  failureMessage url (world calls) = message →
  Explained url maxRetries initialDelayMs world lo (S calls)
    {| result := inr (finalError url maxRetries message); requests := S calls;
       slept := backoffs initialDelayMs calls |}.
Proof.
  intros Hlo Hr Hm. unfold Explained. simpl. rewrite Nat.sub_0_r.
  split; [lia|]. split; [reflexivity|].
  unfold finalError. rewrite Hm.
  destruct (includes (toLowerCase message) "failed to fetch"); now repeat split.
Qed.

(** The loop invariant: the attempt counter equals the number of calls
    made, and the delays waited so far are the backoff schedule. *)
Lemma attemptsFrom_explained n calls lastError :
  Z.of_nat calls + Z.of_nat (S n) = maxRetries + 1 →
  Explained url maxRetries initialDelayMs world calls (calls + S n)
    (attemptsFrom url maxRetries initialDelayMs world (S n)
       (Z.of_nat calls) calls lastError (backoffs initialDelayMs calls)).
Proof.
  revert calls lastError. induction n as [|n IH]; intros calls lastError Hinv.
  - assert (E1 : (Z.of_nat calls =? maxRetries) = true) by (apply Z.eqb_eq; lia).
    assert (E2 : (Z.of_nat calls <? maxRetries) = false) by (apply Z.ltb_ge; lia).
    replace (calls + 1)%nat with (S calls) by lia.
    rewrite attemptsFrom_step. cbv zeta. rewrite E1.
    destruct (world calls) as [m | [data | m] | status text ed] eqn:Ew.
    + apply Explained_final; [lia | now rewrite Ew | now rewrite Ew].
    + unfold Explained. simpl. rewrite Nat.sub_0_r, Ew. repeat split; lia.
    + apply Explained_final; [lia | now rewrite Ew | now rewrite Ew].
    + destruct ((400 <=? status) && (status <? 500)) eqn:Es.
      * unfold Explained. simpl. rewrite Nat.sub_0_r, Ew.
        apply andb_true_iff in Es as [H1 H2]. apply Z.leb_le in H1.
        apply Z.ltb_lt in H2. split; [lia|]. split; [reflexivity|]. eauto 10.
      * rewrite E2.
        apply Explained_final; [lia | rewrite Ew; simpl; now rewrite Es
                               | now rewrite Ew].
  - assert (E1 : (Z.of_nat calls =? maxRetries) = false) by (apply Z.eqb_neq; lia).
    assert (E2 : (Z.of_nat calls <? maxRetries) = true) by (apply Z.ltb_lt; lia).
    assert (Hnext : ∀ le',
      Explained url maxRetries initialDelayMs world calls (calls + S (S n))
        (attemptsFrom url maxRetries initialDelayMs world (S n)
           (Z.of_nat calls + 1) (S calls) le'
           (backoffs initialDelayMs calls
            ++ [backoff initialDelayMs (Z.of_nat calls)]))).
    { intros le'. unfold backoff. rewrite <- backoffs_snoc.
      replace (Z.of_nat calls + 1) with (Z.of_nat (S calls)) by lia.
      destruct (IH (S calls) le' ltac:(lia)) as (H1 & H2 & H3).
      split; [lia|]. split; [exact H2|].
      replace (calls + S (S n))%nat with (S calls + S n)%nat by lia. exact H3. }
    rewrite attemptsFrom_step. cbv zeta. rewrite E1.
    destruct (world calls) as [m | [data | m] | status text ed] eqn:Ew.
    + apply Hnext.
    + unfold Explained. simpl. rewrite Nat.sub_0_r, Ew. repeat split; lia.
    + apply Hnext.
    + destruct ((400 <=? status) && (status <? 500)) eqn:Es.
      * unfold Explained. simpl. rewrite Nat.sub_0_r, Ew.
        apply andb_true_iff in Es as [H1 H2]. apply Z.leb_le in H1.
        apply Z.ltb_lt in H2. split; [lia|]. split; [reflexivity|]. eauto 10.
      * rewrite E2. apply Hnext.
Qed.

End Bounds.

End ServiceFacts.

Module ServiceExtras.
Import Service ServiceSpec ServiceFacts.

(** X5: a response with a status from 400 to 499 ends [fetchData] at
    once.  When the first [k] calls failed in a retryable way and call
    [k] (within the allowed attempts) answers with such a status,
    [fetchData] throws a [NonRetryableError] with the API error message,
    having made [k + 1] calls and waited only the [k] backoff delays
    before them: no further call and no further delay. *)
Theorem client_error_not_retried {T} url maxRetries initialDelayMs
    (world : nat → Attempt T) k status statusText errorData :
  Z.of_nat k ≤ maxRetries →
  (∀ j, (j < k)%nat → retryable (world j) = true) →
  world k = RespondsError status statusText errorData →
  400 ≤ status < 500 →
  fetchData url maxRetries initialDelayMs world
  = {| result := inr (NonRetryableError
                        (httpErrorMessage url status statusText errorData));
       requests := S k; slept := backoffs initialDelayMs k |}.
Proof.
  intros Hk Hr Hw Hs. unfold fetchData.
  replace (Z.to_nat (maxRetries + 1)) with (k + S (Z.to_nat maxRetries - k))%nat by lia.
  destruct (attemptsFrom_retries url maxRetries initialDelayMs world k Hk Hr
              (S (Z.to_nat maxRetries - k)) None) as (le & -> & _).
  rewrite attemptsFrom_step, Hw. cbv zeta.
  assert (E : (400 <=? status) && (status <? 500) = true).
  { apply andb_true_iff. split; [apply Z.leb_le | apply Z.ltb_lt]; lia. }
  now rewrite E.
Qed.

(** X6: [fetchData] returns the body of the first response that parses.
    When the first [k] calls failed in a retryable way (rejected fetch,
    status outside 400..499, or unparsable body) and call [k], within the
    allowed attempts, answers with data, that data is the result, after
    [k + 1] calls and the delays [initialDelayMs * 2^i] for [i < k]. *)
Theorem success_after_retries {T} url maxRetries initialDelayMs
    (world : nat → Attempt T) k data :
  Z.of_nat k ≤ maxRetries →
  (∀ j, (j < k)%nat → retryable (world j) = true) →
  world k = RespondsOk (inl data) →
  fetchData url maxRetries initialDelayMs world
  = {| result := inl data; requests := S k; slept := backoffs initialDelayMs k |}.
Proof.
  intros Hk Hr Hw. unfold fetchData.
  replace (Z.to_nat (maxRetries + 1)) with (k + S (Z.to_nat maxRetries - k))%nat by lia.
  destruct (attemptsFrom_retries url maxRetries initialDelayMs world k Hk Hr
              (S (Z.to_nat maxRetries - k)) None) as (le & -> & _).
  now rewrite attemptsFrom_step, Hw.
Qed.

(** X7: when all [maxRetries + 1] calls fail in a retryable way,
    [fetchData] throws the final error built from the failure of the
    last call ("Could not connect ..." when that message contains
    "failed to fetch" in any letter case, "Failed to fetch data ... Last
    error: ..." otherwise); it has waited [maxRetries] delays and does
    not wait after the last call. *)
Theorem retries_exhausted {T} url maxRetries initialDelayMs
    (world : nat → Attempt T) :
  0 ≤ maxRetries →
  (∀ j, (j ≤ Z.to_nat maxRetries)%nat → retryable (world j) = true) →
  fetchData url maxRetries initialDelayMs world
  = {| result := inr (finalError url maxRetries
                        (failureMessage url (world (Z.to_nat maxRetries))));
       requests := S (Z.to_nat maxRetries);
       slept := backoffs initialDelayMs (Z.to_nat maxRetries) |}.
Proof.
  intros Hm Hr. unfold fetchData. set (k := Z.to_nat maxRetries).
  replace (Z.to_nat (maxRetries + 1)) with (k + 1)%nat by lia.
  destruct (attemptsFrom_retries url maxRetries initialDelayMs world k
              ltac:(lia) ltac:(intros j Hj; apply Hr; lia) 1%nat None)
    as (le & -> & _).
  rewrite attemptsFrom_step. cbv zeta.
  assert (E1 : (Z.of_nat k =? maxRetries) = true) by (apply Z.eqb_eq; lia).
  assert (E2 : (Z.of_nat k <? maxRetries) = false) by (apply Z.ltb_ge; lia).
  rewrite E1, E2. specialize (Hr k ltac:(lia)).
  destruct (world k) as [m | [data | m] | status text ed]; simpl in Hr |- *;
    try discriminate; try reflexivity.
  apply negb_true_iff in Hr. now rewrite Hr.
Qed.

(** X8: every run of [fetchData] with [maxRetries >= 0] makes at least
    one and at most [maxRetries + 1] calls, waits exactly the backoff
    delays [initialDelayMs * 2^i] between consecutive calls, so
    [initialDelayMs * (2^(calls-1) - 1)] in total, and ends with what its
    last call decided; the error after the loop ("Exhausted retries ...")
    is never thrown.  With a negative [maxRetries] no call is made and
    that error is the result. *)
Theorem every_run_accounted {T} url maxRetries initialDelayMs
    (world : nat → Attempt T) :
  (0 ≤ maxRetries →
   let o := fetchData url maxRetries initialDelayMs world in
   Explained url maxRetries initialDelayMs world 0 (S (Z.to_nat maxRetries)) o
   ∧ total (slept o) = initialDelayMs * (2 ^ Z.of_nat (requests o - 1) - 1)
   ∧ result o ≠ inr (afterLoop url None))
  ∧ (maxRetries < 0 →
     fetchData url maxRetries initialDelayMs world
     = {| result := inr (afterLoop url None); requests := 0; slept := [] |}).
Proof.
  split.
  - intros Hm o.
    assert (He : Explained url maxRetries initialDelayMs world 0
                   (S (Z.to_nat maxRetries)) o).
    { unfold o, fetchData.
      replace (Z.to_nat (maxRetries + 1)) with (S (Z.to_nat maxRetries)) by lia.
      apply (attemptsFrom_explained url maxRetries initialDelayMs world
               (Z.to_nat maxRetries) 0 None). lia. }
    split; [exact He|]. destruct He as (_ & Hs & Hres).
    split; [rewrite Hs; apply total_backoffs|].
    intros E. rewrite E in Hres. destruct Hres as (_ & _ & Hf).
    unfold afterLoop, finalError in Hf.
    destruct (includes _ "failed to fetch"); discriminate Hf.
  - intros Hm. unfold fetchData.
    replace (Z.to_nat (maxRetries + 1)) with 0%nat by lia. reflexivity.
Qed.


Lemma client_error_not_retried_witness :
  fetchData "u" 2 1000 ServiceExamples.missing
  = {| result := inr (NonRetryableError "API Error (404) from u: No data");
       requests := 2; slept := [1000] |}.
Proof.
  apply (client_error_not_retried "u" 2 1000 ServiceExamples.missing 1 404
           "Not Found" (Some {| ed_message := Some "No data"; ed_error := None |})).
  - lia.
  - intros j Hj. destruct j; [reflexivity | lia].
  - reflexivity.
  - lia.
Defined.

Lemma success_after_retries_witness :
  fetchData "u" 2 1000 ServiceExamples.flaky
  = {| result := inl ["a"; "b"]; requests := 3; slept := [1000; 2000] |}.
Proof.
  apply (success_after_retries "u" 2 1000 ServiceExamples.flaky 2 ["a"; "b"]).
  - lia.
  - intros j Hj. destruct j as [|[|j]]; [reflexivity | reflexivity | lia].
  - reflexivity.
Defined.

Lemma retries_exhausted_witness :
  fetchData "u" 2 1000 ServiceExamples.down
  = {| result := inr (finalError "u" 2 "Failed to fetch");
       requests := 3; slept := [1000; 2000] |}.
Proof.
  apply (retries_exhausted "u" 2 1000 ServiceExamples.down).
  - lia.
  - intros j Hj. reflexivity.
Defined.

Lemma every_run_accounted_witness :
  Explained "u" 2 1000 ServiceExamples.flaky 0 3
    (fetchData "u" 2 1000 ServiceExamples.flaky)
  ∧ total (slept (fetchData "u" 2 1000 ServiceExamples.flaky)) = 3000
  ∧ result (fetchData "u" 2 1000 ServiceExamples.flaky) ≠ inr (afterLoop "u" None).
Proof.
  apply (proj1 (every_run_accounted "u" 2 1000 ServiceExamples.flaky)). lia.
Defined.

End ServiceExtras.


(** ** Loading: the service calls composed with the engines *)

Module LoaderFacts.
Import Service ServiceSpec ServiceFacts Correlate CorrelateFacts Loaders.
Import Rank RankFacts Enrich.

Section TimeOrder.
Variable getTime : string → num.
Context {A : Type} (time : A → string).

Lemma byTimeDesc_sorted (l : list A) :
  Forall (fun a => ∃ z, getTime (time a) = Fin z) l →
  StronglySorted (fun a b => nle (getTime (time b)) (getTime (time a)) = true)
    (sort (byTimeDesc getTime time) l).
Proof.
  apply (sort_sorted _ (fun a => ∃ z, getTime (time a) = Fin z)).
  - intros x y [zx Zx] [zy Zy]. unfold byTimeDesc. rewrite Zx, Zy.
    apply (byStart_sign zx zy).
  - intros x y [zx Zx] [zy Zy]. unfold byTimeDesc. rewrite Zx, Zy.
    apply (byStart_sign zx zy).
  - intros x y z H1 H2. eapply nle_trans; eauto.
Qed.

Lemma byTimeAsc_sorted (l : list A) :
  Forall (fun a => ∃ z, getTime (time a) = Fin z) l →
  StronglySorted (fun a b => nle (getTime (time a)) (getTime (time b)) = true)
    (sort (fun a b => nsub (getTime (time a)) (getTime (time b))) l).
Proof.
  apply (sort_sorted _ (fun a => ∃ z, getTime (time a) = Fin z)).
  - intros x y [zx Zx] [zy Zy]. rewrite Zx, Zy. apply (byStart_sign zy zx).
  - intros x y [zx Zx] [zy Zy]. rewrite Zx, Zy. apply (byStart_sign zy zx).
  - intros x y z H1 H2. eapply nle_trans; eauto.
Qed.

End TimeOrder.

Lemma mapRes_enhance raws :
  ∃ es, mapRes enhanceCMEData raws = Ok es
        ∧ Forall2 (fun cme e => enhanceCMEData cme = Ok e) raws es.
Proof.
  induction raws as [|cme raws (es & E & Hall)].
  - exists []. split; [reflexivity | constructor].
  - destruct (EnrichClaims.enhance_flag_ok cme) as (e & He & _).
    exists (e :: es). cbn [mapRes]. rewrite He. simpl. rewrite E.
    split; [reflexivity | now constructor].
Qed.

Lemma Holds_weaken (σ σ' : gmap positive cell) refs es :
  σ ⊆ σ' → Spec.Holds σ refs es → Spec.Holds σ' refs es.
Proof.
  intros Hsub H. induction H; constructor; [|assumption].
  now apply (lookup_weaken σ).
Qed.

(** Enhancing the raw records allocates one fresh object per record. *)
Lemma enhanceAll_spec raws (σ : gmap positive cell) :
  ∃ refs σ' es,
    enhanceAll raws σ = Ok (refs, σ')
    ∧ σ ⊆ σ'
    ∧ Spec.Holds σ' refs es
    ∧ Forall2 (fun cme e => enhanceCMEData cme = Ok e) raws es
    ∧ Forall (fun l => σ !! l = None) refs.
Proof.
  revert σ. induction raws as [|cme raws IH]; intros σ.
  - exists [], σ, []. split; [reflexivity|]. split; [reflexivity|].
    repeat split; constructor.
  - destruct (EnrichClaims.enhance_flag_ok cme) as (e & He & _).
    set (l := fresh (dom σ)).
    assert (Hl : σ !! l = None) by apply not_elem_of_dom, is_fresh.
    destruct (IH (<[l := CmeObj e]> σ)) as (refs & σ' & es & E & Hsub & Hh & Hall & Hnew).
    assert (Hsub0 : σ ⊆ <[l := CmeObj e]> σ) by now apply insert_subseteq.
    exists (l :: refs), σ', (e :: es).
    split.
    { unfold enhanceAll in *. cbn [mapM]. rewrite bind_run.
      rewrite bind_run. unfold lift at 1. rewrite He.
      unfold alloc at 1. fold l. rewrite bind_run, E. reflexivity. }
    split; [now transitivity (<[l := CmeObj e]> σ)|].
    split.
    { constructor; [|exact Hh]. apply (lookup_weaken (<[l := CmeObj e]> σ));
        [apply lookup_insert_eq | exact Hsub]. }
    split; [now constructor|].
    constructor; [exact Hl|].
    eapply Forall_impl; [exact Hnew|]. intros r Hr.
    destruct (σ !! r) eqn:Er; [|reflexivity].
    apply (lookup_weaken _ _ _ _ Er) in Hsub0. congruence.
Qed.


Lemma enhance_raw cme e : enhanceCMEData cme = Ok e → raw e = cme.
Proof.
  intros He. destruct (EnrichClaims.enhance_flag_ok cme) as (e' & He' & Hraw & _).
  congruence.
Qed.

(** Building the lookup from the raw records never fails. *)
Lemma build_lookup raws (σ : gmap positive cell) :
  ∃ cmeMap σ' es,
    (refs ← enhanceAll raws; fillCmeMap refs ∅) σ = Ok (cmeMap, σ')
    ∧ σ ⊆ σ'
    ∧ Spec.Indexes σ' cmeMap es
    ∧ Forall2 (fun cme e => enhanceCMEData cme = Ok e) raws es.
Proof.
  destruct (enhanceAll_spec raws σ) as (refs & σ' & es & E & Hsub & Hh & Hall & _).
  destruct (fillCmeMap_spec σ' refs es ∅ [] Hh) as (m & Em & Hi).
  { intros id. now rewrite lookup_empty. }
  exists m, σ', es. rewrite bind_run, E, Em. now repeat split.
Qed.

Section Donki.
Context {T : Type}.
Variables base key endpoint : string.
Variables startDate endDate : option string.
Variable world : nat → Attempt (DonkiJson T).

Lemma getDonkiData_explained :
  Explained (donkiUrl base key endpoint startDate endDate) 2 1000 world 0 3
    (fetchData (donkiUrl base key endpoint startDate endDate) 2 1000 world).
Proof.
  apply (attemptsFrom_explained _ 2 1000 world 2 0 None). reflexivity.
Qed.

End Donki.

End LoaderFacts.

Module LoaderExtras.
Import Service ServiceSpec ServiceFacts Correlate CorrelateFacts Loaders.
Import Rank RankFacts Enrich LoaderFacts.

(** X9: [getDonkiData] calls [fetch] at least once and at most three
    times, waits 1000 ms and then 2000 ms between calls (3000 ms at
    most), and always yields a list: an array body as it is, any other
    truthy body as a one-element list, a falsy body as the empty list.
    A 4xx status comes back as the [NonRetryableError], any other
    failure as the final error after the third call. *)
Theorem donki_request_budget {T} base key endpoint startDate endDate
    (world : nat → Attempt (DonkiJson T)) :
  let o := getDonkiData base key endpoint startDate endDate world in
  (1 ≤ requests o ≤ 3)%nat
  ∧ slept o = backoffs 1000 (requests o - 1)
  ∧ total (slept o) ≤ 3000
  ∧ match result o with
    | inl items =>
        world (requests o - 1)%nat = RespondsOk (inl (JsonArray items))
        ∨ (∃ item, items = [item]
                   ∧ world (requests o - 1)%nat = RespondsOk (inl (JsonSingle item)))
        ∨ (items = [] ∧ world (requests o - 1)%nat = RespondsOk (inl JsonFalsy))
    | inr (NonRetryableError _) =>
        ∃ status statusText errorData,
          world (requests o - 1)%nat = RespondsError status statusText errorData
          ∧ 400 ≤ status < 500
    | inr (Error _) =>
        requests o = 3%nat ∧ retryable (world 2%nat) = true
    end.
Proof.
  intros o.
  pose proof (getDonkiData_explained base key endpoint startDate endDate world)
    as (Hr & Hs & Hres).
  unfold o, getDonkiData. cbn [requests slept result].
  split; [lia|]. split; [exact Hs|]. split.
  - rewrite Hs, total_backoffs.
    assert (H : (requests (fetchData (donkiUrl base key endpoint startDate endDate)
                             2 1000 world) - 1 ≤ 2)%nat) by lia.
    revert H. generalize (requests (fetchData (donkiUrl base key endpoint startDate
                                                 endDate) 2 1000 world) - 1)%nat.
    intros [|[|[|n]]] H; simpl; lia.
  - destruct (result (fetchData _ 2 1000 world)) as [[items | item |] | [m | m]].
    + now left.
    + right. left. now exists item.
    + right. right. now split.
    + destruct Hres as (st & tx & ed & Hw & Hst & _). eauto.
    + destruct Hres as (H3 & Hret & _). split; [exact H3|]. now rewrite H3 in Hret.
Qed.


Section Loading.
Variable getTime : string → num.
Variables base key today sevenDaysAgo tenDaysAgo : string.

(** X10: what [loadCMEData] leaves behind.  The loading flag is off.  If
    the CME fetch failed, the list is emptied and the error is the
    message of the fetch error.  If it succeeded, there is no error and
    the list holds exactly the enhanced records of the fetched CMEs, one
    for each, ordered by descending start time when the start times are
    valid dates.  Enhancing never contributes an error. *)
Theorem loadCMEData_outcome (world : nat → Attempt (DonkiJson CME)) :
  let s := loadCMEData getTime base key today sevenDaysAgo world in
  let o := getCMEs base key sevenDaysAgo today world in
  cmeIsLoading s = false
  ∧ cmeError s ≠ Some EngineTypeError
  ∧ (∀ err, result o = inr err →
       processedCMEs s = [] ∧ cmeError s = Some (Message (errorMessageOf err)))
  ∧ (∀ raws, result o = inl raws →
       cmeError s = None
       ∧ ∃ es, Forall2 (fun cme e => enhanceCMEData cme = Ok e) raws es
               ∧ Permutation (processedCMEs s) es
               ∧ (Forall (fun cme => ∃ z, getTime (startTime cme) = Fin z) raws →
                  StronglySorted
                    (fun a b => nle (getTime (startTime (raw b)))
                                    (getTime (startTime (raw a))) = true)
                    (processedCMEs s))).
Proof.
  intros s o. unfold s, loadCMEData. fold o.
  destruct (result o) as [raws | err].
  - destruct (mapRes_enhance raws) as (es & -> & Hall). cbn.
    split; [reflexivity|]. split; [discriminate|].
    split; [intros err [=]|]. intros raws' [= <-]. split; [reflexivity|].
    exists es. split; [exact Hall|]. split; [apply sort_perm|].
    intros Hv. apply (byTimeDesc_sorted getTime (fun e => startTime (raw e))).
    clear -Hall Hv. induction Hall as [|cme e raws es He _ IH]; [constructor|].
    inversion Hv as [|? ? [z Hz] Hv']; subst. constructor; [|now apply IH].
    exists z. now rewrite (enhance_raw cme e He).
  - cbn. split; [reflexivity|]. split; [discriminate|].
    split; [intros err' [= <-]; now split | intros raws [=]].
Qed.

(** X11: what [loadFlareAndCorrelateData] leaves behind, started on any
    store.  It never removes or changes an object of the store.  If the
    CME fetch fails, the flare feed is not requested at all, the flare
    list is emptied and the error is that of the CME fetch.  If the
    flare fetch fails, the list is emptied with its error.  If both
    succeed there is no error, and the list holds, for each fetched
    flare, that flare annotated against the enhanced records of the
    fetched CMEs, ordered by descending begin time when the begin times
    are valid dates. *)
Theorem loadFlares_outcome (cmeWorld : nat → Attempt (DonkiJson CME))
    (flareWorld : nat → Attempt (DonkiJson SolarFlare)) (σ : gmap positive cell) :
  let r := loadFlareAndCorrelateData getTime base key today sevenDaysAgo
             cmeWorld flareWorld σ in
  let oc := getCMEs base key sevenDaysAgo today cmeWorld in
  let ofl := getSolarFlares base key sevenDaysAgo today flareWorld in
  flaresIsLoading (state r) = false
  ∧ flaresError (state r) ≠ Some EngineTypeError
  ∧ σ ⊆ store r
  ∧ (∀ err, result oc = inr err →
       processedFlares (state r) = []
       ∧ flaresError (state r) = Some (Message (errorMessageOf err))
       ∧ eventCalls r = 0%nat
       ∧ store r = σ)
  ∧ (∀ raws err, result oc = inl raws → result ofl = inr err →
       processedFlares (state r) = []
       ∧ flaresError (state r) = Some (Message (errorMessageOf err)))
  ∧ (∀ raws flares, result oc = inl raws → result ofl = inl flares →
       flaresError (state r) = None
       ∧ ∃ es annotated,
           Forall2 (fun cme e => enhanceCMEData cme = Ok e) raws es
           ∧ Forall2 (Spec.FlareAnnotated es (store r)) flares annotated
           ∧ Permutation (processedFlares (state r)) annotated
           ∧ (Forall (fun f => ∃ z, getTime (beginTime f) = Fin z) flares →
              StronglySorted
                (fun a b => nle (getTime (beginTime b)) (getTime (beginTime a)) = true)
                (processedFlares (state r)))).
Proof.
  intros r oc ofl. unfold r, loadFlareAndCorrelateData. fold oc. fold ofl.
  destruct (result oc) as [raws | err].
  - destruct (build_lookup raws σ) as (m & σ1 & es & -> & Hsub & Hi & Hall).
    destruct (result ofl) as [flares | err].
    + destruct (mapM_correlateFlare σ1 m es flares Hi)
        as (annotated & σ2 & -> & Hsub2 & Hann). cbn.
      split; [reflexivity|]. split; [discriminate|].
      split; [now transitivity σ1|]. split; [intros err [=]|].
      split; [intros ? ? _ [=]|]. intros raws' flares' [= <-] [= <-].
      split; [reflexivity|]. exists es, annotated.
      split; [exact Hall|]. split; [exact Hann|]. split; [apply sort_perm|].
      intros Hv. apply (byTimeDesc_sorted getTime beginTime).
      clear -Hann Hv. induction Hann as [|f f' fs fs' Hf _ IH]; [constructor|].
      inversion Hv as [|? ? [z Hz] Hv']; subst. constructor; [|now apply IH].
      destruct Hf as (_ & Hb & _). exists z. now rewrite Hb.
    + cbn. split; [reflexivity|]. split; [discriminate|]. split; [exact Hsub|].
      split; [intros ? [=]|]. split; [|intros ? ? _ [=]].
      intros raws' err' _ [= <-]. now split.
  - cbn. split; [reflexivity|]. split; [discriminate|]. split; [reflexivity|].
    split; [intros err' [= <-]; now repeat split|].
    split; [intros ? ? [=] | intros ? ? [=]].
Qed.

(** X12: what [loadIPSAndCorrelateData] leaves behind.  As for flares, a
    failed CME fetch (here over ten days) means that the shock feed is
    not requested, and either failure empties the list and stores the
    message.  When both succeed there is no error and the list holds
    each fetched shock with its causative-CME fields filled from the
    enhanced records, ordered by descending event time when the event
    times are valid dates. *)
Theorem loadIPS_outcome (cmeWorld : nat → Attempt (DonkiJson CME))
    (ipsWorld : nat → Attempt (DonkiJson InterplanetaryShock))
    (σ : gmap positive cell) :
  let r := loadIPSAndCorrelateData getTime base key today sevenDaysAgo tenDaysAgo
             cmeWorld ipsWorld σ in
  let oc := getCMEs base key tenDaysAgo today cmeWorld in
  let oi := getInterplanetaryShocks base key sevenDaysAgo today ipsWorld in
  ipsIsLoading (state r) = false
  ∧ ipsError (state r) ≠ Some EngineTypeError
  ∧ σ ⊆ store r
  ∧ (∀ err, result oc = inr err →
       processedIPS (state r) = []
       ∧ ipsError (state r) = Some (Message (errorMessageOf err))
       ∧ eventCalls r = 0%nat
       ∧ store r = σ)
  ∧ (∀ raws err, result oc = inl raws → result oi = inr err →
       processedIPS (state r) = []
       ∧ ipsError (state r) = Some (Message (errorMessageOf err)))
  ∧ (∀ raws shocks, result oc = inl raws → result oi = inl shocks →
       ipsError (state r) = None
       ∧ ∃ es annotated,
           Forall2 (fun cme e => enhanceCMEData cme = Ok e) raws es
           ∧ Forall2 (Spec.ShockAnnotated es) shocks annotated
           ∧ Permutation (processedIPS (state r)) annotated
           ∧ (Forall (fun i => ∃ z, getTime (eventTime i) = Fin z) shocks →
              StronglySorted
                (fun a b => nle (getTime (eventTime b)) (getTime (eventTime a)) = true)
                (processedIPS (state r)))).
Proof.
  intros r oc oi. unfold r, loadIPSAndCorrelateData. fold oc. fold oi.
  destruct (result oc) as [raws | err].
  - destruct (build_lookup raws σ) as (m & σ1 & es & -> & Hsub & Hi & Hall).
    destruct (result oi) as [shocks | err].
    + destruct (mapM_correlateShock σ1 m es shocks Hi) as (annotated & -> & Hann).
      cbn. split; [reflexivity|]. split; [discriminate|].
      split; [exact Hsub|]. split; [intros err [=]|].
      split; [intros ? ? _ [=]|]. intros raws' shocks' [= <-] [= <-].
      split; [reflexivity|]. exists es, annotated.
      split; [exact Hall|]. split; [exact Hann|]. split; [apply sort_perm|].
      intros Hv. apply (byTimeDesc_sorted getTime eventTime).
      clear -Hann Hv. induction Hann as [|i i' l l' Hi' _ IH]; [constructor|].
      inversion Hv as [|? ? [z Hz] Hv']; subst. constructor; [|now apply IH].
      destruct Hi' as (_ & Hb & _). exists z. now rewrite Hb.
    + cbn. split; [reflexivity|]. split; [discriminate|]. split; [exact Hsub|].
      split; [intros ? [=]|]. split; [|intros ? ? _ [=]].
      intros raws' err' _ [= <-]. now split.
  - cbn. split; [reflexivity|]. split; [discriminate|]. split; [reflexivity|].
    split; [intros err' [= <-]; now repeat split|].
    split; [intros ? ? [=] | intros ? ? [=]].
Qed.

End Loading.

Lemma loadCMEData_outcome_witness :
  cmeError (loadCMEData isoTime "https://api.nasa.gov/DONKI" "DEMO_KEY"
              "2024-03-01" "2024-02-23" LoaderExamples.cmeFeed) = None
  ∧ (fun e => activityID (raw e))
      <$> processedCMEs (loadCMEData isoTime "https://api.nasa.gov/DONKI" "DEMO_KEY"
                           "2024-03-01" "2024-02-23" LoaderExamples.cmeFeed)
    = ["A"; "B"].
Proof.
  destruct (loadCMEData_outcome isoTime "https://api.nasa.gov/DONKI"
              "DEMO_KEY" "2024-03-01" "2024-02-23" LoaderExamples.cmeFeed)
    as (_ & _ & _ & H).
  destruct (H [Examples.cmeB; Examples.cmeA]) as [He _]; [reflexivity|].
  split; [exact He | vm_compute; reflexivity].
Defined.

Lemma loadFlares_outcome_witness :
  processedFlares (state (loadFlareAndCorrelateData isoTime "https://api.nasa.gov/DONKI"
     "DEMO_KEY" "2024-03-01" "2024-02-23" LoaderExamples.cmeFeedDown
     LoaderExamples.flareFeed ∅)) = []
  ∧ eventCalls (loadFlareAndCorrelateData isoTime "https://api.nasa.gov/DONKI"
     "DEMO_KEY" "2024-03-01" "2024-02-23" LoaderExamples.cmeFeedDown
     LoaderExamples.flareFeed ∅) = 0%nat
  ∧ flaresError (state (loadFlareAndCorrelateData isoTime "https://api.nasa.gov/DONKI"
     "DEMO_KEY" "2024-03-01" "2024-02-23" LoaderExamples.cmeFeed
     LoaderExamples.flareFeed ∅)) = None.
Proof.
  destruct (loadFlares_outcome isoTime "https://api.nasa.gov/DONKI"
              "DEMO_KEY" "2024-03-01" "2024-02-23" LoaderExamples.cmeFeedDown
              LoaderExamples.flareFeed ∅)
    as (_ & _ & _ & Hdown & _).
  destruct (loadFlares_outcome isoTime "https://api.nasa.gov/DONKI"
              "DEMO_KEY" "2024-03-01" "2024-02-23" LoaderExamples.cmeFeed
              LoaderExamples.flareFeed ∅)
    as (_ & _ & _ & _ & _ & Hup).
  edestruct Hdown as (H1 & _ & H2 & _); [vm_compute; reflexivity|].
  destruct (Hup [Examples.cmeB; Examples.cmeA] [Examples.flareF; Examples.flareA])
    as [H3 _]; [reflexivity | reflexivity |].
  split; [exact H1|]. split; [exact H2 | exact H3].
Defined.

Lemma loadIPS_outcome_witness :
  ipsError (state (loadIPSAndCorrelateData isoTime "https://api.nasa.gov/DONKI"
     "DEMO_KEY" "2024-03-01" "2024-02-23" "2024-02-20" LoaderExamples.cmeFeed
     LoaderExamples.shockFeed ∅)) = None
  ∧ associatedCMEActivityID
      <$> processedIPS (state (loadIPSAndCorrelateData isoTime
            "https://api.nasa.gov/DONKI" "DEMO_KEY" "2024-03-01" "2024-02-23"
            "2024-02-20" LoaderExamples.cmeFeed LoaderExamples.shockFeed ∅))
    = [Some "A"].
Proof.
  destruct (loadIPS_outcome isoTime "https://api.nasa.gov/DONKI"
              "DEMO_KEY" "2024-03-01" "2024-02-23" "2024-02-20" LoaderExamples.cmeFeed
              LoaderExamples.shockFeed ∅)
    as (_ & _ & _ & _ & _ & Hup).
  destruct (Hup [Examples.cmeB; Examples.cmeA] [LoaderExamples.shockA])
    as [H3 _]; [reflexivity | vm_compute; reflexivity |].
  split; [exact H3 | vm_compute; reflexivity].
Defined.

End LoaderExtras.


(** ** Presentation: cards, lists and flux displays *)

Module WidgetFacts.
Import Service Widgets.

Lemma length_append (s1 s2 : string) :
  String.length (s1 ++ s2)%string = (String.length s1 + String.length s2)%nat.
Proof. induction s1 as [|c s1 IH]; simpl; [reflexivity | now rewrite IH]. Qed.

(** The first [n] units of a text that has at least [n]. *)
Lemma substring_split (s : string) (n : nat) :
  (n ≤ String.length s)%nat →
  ∃ rest, s = (substring 0 n s ++ rest)%string
          ∧ String.length (substring 0 n s) = n.
Proof.
  revert n. induction s as [|c s IH]; intros [|n] Hn; simpl in *.
  - now exists EmptyString.
  - lia.
  - now exists (String c s).
  - destruct (IH n) as (rest & E & L); [lia|]. exists rest.
    split; [| simpl; now rewrite L].
    change (String c s = String c (substring 0 n s ++ rest)%string). now f_equal.
Qed.

Lemma substring_append (s1 s2 : string) :
  substring 0 (String.length s1) (s1 ++ s2)%string = s1.
Proof. induction s1 as [|c s1 IH]; simpl; [now destruct s2 | now rewrite IH]. Qed.


(** The first entry of a list in descending key order whose key is
    reached. *)
Lemma find_reached_desc {A} (key : A → QArith_base.Q) (flux : QArith_base.Q) (l : list A) :
  StronglySorted (fun a b => QArith_base.Qle (key b) (key a)) l →
  match List.find (fun x => QArith_base.Qle_bool (key x) flux) l with
  | Some x => x ∈ l ∧ QArith_base.Qle (key x) flux
              ∧ ∀ y, y ∈ l → QArith_base.Qle (key y) flux
                     → QArith_base.Qle (key y) (key x)
  | None => ∀ y, y ∈ l → QArith_base.Qlt flux (key y)
  end.
Proof.
  induction 1 as [|x l Hs IH Hall]; simpl.
  - intros y Hy. inversion Hy.
  - destruct (QArith_base.Qle_bool (key x) flux) eqn:E.
    + apply QArith_base.Qle_bool_iff in E. split; [left|]. split; [exact E|].
      intros y Hy _. apply elem_of_cons in Hy as [-> | Hy].
      * apply QArith_base.Qle_refl.
      * rewrite Forall_forall in Hall. now apply Hall.
    + assert (Hx : QArith_base.Qlt flux (key x)).
      { apply QArith_base.Qnot_le_lt. intros H.
        apply QArith_base.Qle_bool_iff in H. congruence. }
      destruct (List.find _ l) as [z|].
      * destruct IH as (Hz & Hle & Hmax). split; [now right|]. split; [exact Hle|].
        intros y Hy Hyf. apply elem_of_cons in Hy as [-> | Hy]; [|now apply Hmax].
        exfalso. apply (QArith_base.Qlt_not_le _ _ Hx Hyf).
      * intros y Hy. apply elem_of_cons in Hy as [-> | Hy]; [exact Hx | now apply IH].
Qed.

(** In ascending key order only the first entry can be the first one
    reached. *)
Lemma find_reached_asc {A} (key : A → QArith_base.Q) (flux : QArith_base.Q) x (l : list A) :
  Forall (fun y => QArith_base.Qle (key x) (key y)) l →
  List.find (fun y => QArith_base.Qle_bool (key y) flux) (x :: l) = Some x
  ∨ List.find (fun y => QArith_base.Qle_bool (key y) flux) (x :: l) = None.
Proof.
  intros Hall. simpl. destruct (QArith_base.Qle_bool (key x) flux) eqn:E; [now left|].
  right. induction Hall as [|y l Hy _ IH]; [reflexivity|]. simpl.
  destruct (QArith_base.Qle_bool (key y) flux) eqn:Ey; [|exact IH].
  apply QArith_base.Qle_bool_iff in Ey.
  assert (QArith_base.Qle_bool (key x) flux = true); [|congruence].
  apply QArith_base.Qle_bool_iff. eapply QArith_base.Qle_trans; eassumption.
Qed.

Lemma last_sorted_max {A} (R : A → A → Prop) (l : list A) p :
  StronglySorted R l → last l = Some p → ∀ q, q ∈ l → q = p ∨ R q p.
Proof.
  induction 1 as [|a l Hs IH Hall]; [discriminate|].
  rewrite last_cons. intros Hp q Hq.
  destruct (last l) as [y|] eqn:El.
  - injection Hp as ->. apply elem_of_cons in Hq as [-> | Hq]; [|now apply IH].
    right. rewrite Forall_forall in Hall. apply Hall. now apply last_Some_elem_of.
  - injection Hp as ->. apply last_None in El. subst l.
    apply elem_of_cons in Hq as [-> | Hq]; [now left | inversion Hq].
Qed.

Lemma sorted_app_cross {A} (R : A → A → Prop) (l1 l2 : list A) :
  StronglySorted R (l1 ++ l2) → ∀ a b, a ∈ l1 → b ∈ l2 → R a b.
Proof.
  induction l1 as [|x l1 IH]; simpl; intros Hs a b Ha Hb; [inversion Ha|].
  apply StronglySorted_inv in Hs as [Hs Hall].
  apply elem_of_cons in Ha as [-> | Ha]; [|now apply IH].
  rewrite Forall_forall in Hall. apply Hall. apply elem_of_app. now right.
Qed.

Lemma elem_of_sort_filter {A} (cmp : A → A → num) (p : A → bool) (l : list A) x :
  x ∈ Rank.sort cmp (List.filter p l) ↔ x ∈ l ∧ p x = true.
Proof.
  rewrite (RankFacts.sort_perm cmp (List.filter p l)), !list_elem_of_In.
  apply filter_In.
Qed.

End WidgetFacts.

Module WidgetExtras.
Import Service Widgets WidgetFacts.

(** X13: [truncateText] with a limit.  A text within the limit is
    returned as it is.  A longer text is cut to its first [maxLength]
    units (none for a negative limit) followed by three dots, so the
    result can be up to three units longer than the limit, and a text
    one or two units over the limit comes back longer than it was.
    Truncating a second time changes nothing. *)
Theorem truncateText_shape (text : string) (maxLength : Z) :
  let r := truncateText text (Some maxLength) in
  (Z.of_nat (String.length text) ≤ maxLength → r = text)
  ∧ (maxLength < Z.of_nat (String.length text) →
     ∃ kept rest, text = (kept ++ rest)%string
       ∧ Z.of_nat (String.length kept) = Z.max maxLength 0
       ∧ r = (kept ++ "...")%string
       ∧ Z.of_nat (String.length r) = Z.max maxLength 0 + 3)
  ∧ Z.of_nat (String.length r) ≤ Z.max maxLength 0 + 3
  ∧ truncateText r (Some maxLength) = r.
Proof.
  intros r. unfold r, truncateText.
  destruct (Z.leb_spec (Z.of_nat (String.length text)) maxLength) as [Hle | Hgt].
  - split; [reflexivity|]. split; [lia|]. split; [lia|].
    destruct (Z.leb_spec (Z.of_nat (String.length text)) maxLength); [reflexivity | lia].
  - destruct (substring_split text (Z.to_nat maxLength)) as (rest & E & L); [lia|].
    set (kept := substring 0 (Z.to_nat maxLength) text) in *.
    assert (Hlen : Z.of_nat (String.length (kept ++ "...")) = Z.max maxLength 0 + 3).
    { rewrite length_append, L. simpl. lia. }
    split; [lia|]. split.
    { intros _. exists kept, rest. repeat split; try assumption. rewrite L. lia. }
    split; [lia|].
    destruct (Z.leb_spec (Z.of_nat (String.length (kept ++ "..."))) maxLength); [lia|].
    rewrite <- L at 1. now rewrite substring_append.
Qed.

Lemma truncateText_shape_witness :
  truncateText "Halo CME" (Some 7) = "Halo CM..."
  ∧ truncateText (truncateText "Halo CME" (Some 7)) (Some 7) = "Halo CM..."
  ∧ truncateText "Halo CME" (Some 8) = "Halo CME".
Proof.
  destruct (truncateText_shape "Halo CME" 7) as (_ & _ & _ & Hidem).
  destruct (truncateText_shape "Halo CME" 8) as (Hsame & _).
  split; [reflexivity|]. split; [exact Hidem|]. apply Hsame. simpl. lia.
Defined.

(** X14: what [EventList] renders, for a non-negative [maxItems].  The
    events shown are the first [maxItems] of those that pass the filter.
    With none to show it renders exactly one placeholder: the spinner
    while loading without an error, the error when there is one, and
    the no-events line otherwise.  The data-not-available line is never
    rendered.  With events to show it renders one card for each, in
    order, flagged by the highlight condition, with the small spinner
    while loading and the error banner when there is an error. *)
Theorem eventList_view {T} (externalEvents : option (list T))
    (externalIsLoading : option bool) (externalError : option string)
    (internalEvents : list T) (internalIsLoading : bool)
    (internalError : option string)
    (customFilter : option (T → bool)) (maxItems : Z)
    (highlightCondition : option (T → bool)) :
  0 ≤ maxItems →
  let events := default internalEvents externalEvents in
  let isLoading := match externalEvents with
                   | Some _ => default false externalIsLoading
                   | None => internalIsLoading
                   end in
  let error := match externalEvents with
               | Some _ => externalError
               | None => internalError
               end in
  let shown := take (Z.to_nat maxItems)
                 (List.filter (default (fun _ => true) customFilter) events) in
  match eventList externalEvents externalIsLoading externalError
          internalEvents internalIsLoading internalError
          customFilter maxItems highlightCondition with
  | LoadingSpinner => shown = [] ∧ isLoading = true ∧ truthyOStr error = false
  | ErrorOnly message =>
      shown = [] ∧ error = Some message ∧ message ≠ EmptyString
  | NoEventsFound => shown = [] ∧ isLoading = false ∧ truthyOStr error = false
  | DataNotAvailable => False
  | Listing updating banner cards =>
      shown ≠ []
      ∧ map fst cards = shown
      ∧ Forall (fun card => snd card
                  = default (fun _ => false) highlightCondition (fst card)) cards
      ∧ (Z.of_nat (length cards) ≤ maxItems)
      ∧ updating = isLoading
      ∧ banner = (if truthyOStr error then error else None)
  end.
Proof.
  intros Hmax events isLoading error shown.
  assert (Hfilter : ∀ l : list T,
            match customFilter with Some f => List.filter f l | None => l end
            = List.filter (default (fun _ => true) customFilter) l).
  { intros l. destruct customFilter; [reflexivity|]. simpl.
    induction l as [|x l IH]; simpl; congruence. }
  assert (Hslice : ∀ l : list T, sliceTo l maxItems = take (Z.to_nat maxItems) l).
  { intros l. unfold sliceTo. destruct (Z.ltb_spec maxItems 0); [lia|].
    destruct (Z.le_ge_cases maxItems (Z.of_nat (length l))).
    - now rewrite Z.min_l.
    - rewrite Z.min_r, Nat2Z.id by assumption. rewrite firstn_all.
      symmetry. apply take_ge. lia. }
  assert (Hrender : eventList externalEvents externalIsLoading externalError
            internalEvents internalIsLoading internalError
            customFilter maxItems highlightCondition
          = render (Some events) isLoading error customFilter maxItems
              highlightCondition).
  { unfold eventList, events, isLoading, error. now destruct externalEvents. }
  rewrite Hrender. unfold render. change (default [] (Some events)) with events.
  rewrite Hfilter, Hslice.
  subst shown.
  set (shown := take (Z.to_nat maxItems) (List.filter _ events)).
  assert (Hcards : ∀ l : list T,
            map fst (map (fun event : T =>
              (event, match highlightCondition with Some h => h event | None => false end)) l) = l
            ∧ Forall (fun card : T * bool => snd card
                  = default (fun _ => false) highlightCondition (fst card))
                (map (fun event : T =>
              (event, match highlightCondition with Some h => h event | None => false end)) l)).
  { intros l. induction l as [|x l [IH1 IH2]]; simpl; [split; [reflexivity|constructor]|].
    split; [now rewrite IH1|]. constructor; [|exact IH2].
    now destruct highlightCondition. }
  assert (Hlen : Z.of_nat (length shown) ≤ maxItems).
  { unfold shown. rewrite length_take. lia. }
  destruct (Nat.eqb_spec (length shown) 0) as [Hempty | Hne].
  - apply nil_length_inv in Hempty. rewrite Hempty.
    destruct isLoading, error as [m|]; simpl;
      try (destruct (truthyStr m) eqn:Hm; simpl);
      repeat split; try reflexivity; try assumption;
      try (intros ->; discriminate).
  - assert (shown ≠ []) by (intros E; now rewrite E in Hne).
    destruct (Hcards shown) as [H1 H2].
    destruct isLoading, error as [m|]; simpl;
      try (destruct (truthyStr m) eqn:Hm; simpl);
      repeat split; try reflexivity; try assumption;
      try (rewrite length_map; assumption).
Qed.


Lemma eventList_view_witness :
  match eventList (Some ["FLR-1"; "FLR-2"; "FLR-3"]) (Some true) None
          [] false None None 2 None with
  | Listing updating banner cards =>
      updating = true ∧ map fst cards = ["FLR-1"; "FLR-2"]
  | _ => False
  end.
Proof.
  pose proof (eventList_view (Some ["FLR-1"; "FLR-2"; "FLR-3"]) (Some true) None
                [] false None None 2 None ltac:(lia)) as H.
  cbv zeta in H. vm_compute in H. vm_compute.
  destruct H as (_ & H2 & _ & _ & H5 & _). split; [exact H5 | exact H2].
Defined.

(** X15: the S-scale level shown for a proton flux is the highest level
    of the scale whose threshold the flux reaches, and no level is shown
    exactly when the flux is below 10 pfu. *)
Theorem sScaleLevel_highest (flux : QArith_base.Q) :
  match sScaleLevel flux with
  | Some l =>
      l ∈ PROTON_FLUX_S_SCALE
      ∧ QArith_base.Qle (threshold l) flux
      ∧ ∀ l', l' ∈ PROTON_FLUX_S_SCALE → QArith_base.Qle (threshold l') flux →
              QArith_base.Qle (threshold l') (threshold l)
  | None => QArith_base.Qlt flux (QArith_base.Qmake 10 1)
  end.
Proof.
  unfold sScaleLevel.
  pose proof (find_reached_desc threshold flux PROTON_FLUX_S_SCALE) as H.
  destruct (List.find _ PROTON_FLUX_S_SCALE) as [l|].
  - apply H. repeat constructor; unfold QArith_base.Qle; simpl; lia.
  - apply (H ltac:(repeat constructor; unfold QArith_base.Qle; simpl; lia)
             {| level := "S1"; threshold := QArith_base.Qmake 10 1;
                description := "Minor"; color := "#90EE90" |}).
    unfold PROTON_FLUX_S_SCALE. do 4 right. left.
Qed.

(** X16: the class line of the X-ray tooltip.  The loop starts at the
    lowest threshold and stops at the first one the flux reaches, so
    whatever the flux is, the class shown is A, in the colour of
    class A. *)
Theorem tooltip_class_always_A (flux : QArith_base.Q) :
  classification flux = "A" ∧ classColor flux = "#ADD8E6".
Proof.
  assert (H : classification flux = "A").
  { unfold classification.
    destruct (find_reached_asc value flux
                {| name := "A"; value := QArith_base.Qmake 1 100000000; t_color := "#ADD8E6" |}
                [ {| name := "B"; value := QArith_base.Qmake 1 10000000; t_color := "#FFFF00" |};
                  {| name := "C"; value := QArith_base.Qmake 1 1000000; t_color := "#FFA500" |};
                  {| name := "M"; value := QArith_base.Qmake 1 100000; t_color := "#FF0000" |};
                  {| name := "X"; value := QArith_base.Qmake 1 10000; t_color := "#FF00FF" |} ])
      as [E | E].
    - repeat constructor; unfold QArith_base.Qle; simpl; lia.
    - change (rev XRAY_FLUX_THRESHOLDS) with
        [ {| name := "A"; value := QArith_base.Qmake 1 100000000; t_color := "#ADD8E6" |};
          {| name := "B"; value := QArith_base.Qmake 1 10000000; t_color := "#FFFF00" |};
          {| name := "C"; value := QArith_base.Qmake 1 1000000; t_color := "#FFA500" |};
          {| name := "M"; value := QArith_base.Qmake 1 100000; t_color := "#FF0000" |};
          {| name := "X"; value := QArith_base.Qmake 1 10000; t_color := "#FF00FF" |} ].
      now rewrite E.
    - change (rev XRAY_FLUX_THRESHOLDS) with
        [ {| name := "A"; value := QArith_base.Qmake 1 100000000; t_color := "#ADD8E6" |};
          {| name := "B"; value := QArith_base.Qmake 1 10000000; t_color := "#FFFF00" |};
          {| name := "C"; value := QArith_base.Qmake 1 1000000; t_color := "#FFA500" |};
          {| name := "M"; value := QArith_base.Qmake 1 100000; t_color := "#FF0000" |};
          {| name := "X"; value := QArith_base.Qmake 1 10000; t_color := "#FF00FF" |} ].
      now rewrite E. }
  split; [exact H|]. unfold classColor. rewrite H. reflexivity.
Qed.

Section FluxData.
Variable getTime : string → num.

(** X17: the proton flux displayed.  When the time tags of the
    [>=10 MeV] points are valid dates, the point displayed is a
    [>=10 MeV] point of the feed and none of them is later; nothing is
    displayed exactly when the feed has no [>=10 MeV] point. *)
Theorem displayed_proton_flux_is_latest (data : list ProtonFluxDataPoint) :
  Forall (fun d => p_energy d = ">=10 MeV" → ∃ z, getTime (p_time_tag d) = Fin z) data →
  match currentFlux (protonPoints getTime data) with
  | Some p =>
      p ∈ data ∧ p_energy p = ">=10 MeV"
      ∧ ∀ q, q ∈ data → p_energy q = ">=10 MeV" →
             nle (getTime (p_time_tag q)) (getTime (p_time_tag p)) = true
  | None => ∀ q, q ∈ data → p_energy q ≠ ">=10 MeV"
  end.
Proof.
  intros Hv. unfold currentFlux, protonPoints.
  set (cmp := fun a b => nsub (getTime (p_time_tag a)) (getTime (p_time_tag b))).
  set (keep := fun d => String.eqb (p_energy d) ">=10 MeV").
  assert (Hvalid : Forall (fun d => ∃ z, getTime (p_time_tag d) = Fin z)
                     (List.filter keep data)).
  { apply Forall_forall. intros d Hd. apply list_elem_of_In, filter_In in Hd as [Hd E].
    rewrite Forall_forall in Hv. apply (Hv d); [now apply list_elem_of_In|].
    now apply String.eqb_eq. }
  pose proof (LoaderFacts.byTimeAsc_sorted getTime p_time_tag _ Hvalid) as Hs.
  fold cmp in Hs.
  destruct (last (Rank.sort cmp (List.filter keep data))) as [p|] eqn:El.
  - pose proof (last_Some_elem_of _ _ El) as Hp.
    apply elem_of_sort_filter in Hp as [Hp Ep]. apply String.eqb_eq in Ep.
    split; [exact Hp|]. split; [exact Ep|]. intros q Hq Eq.
    assert (Hq' : q ∈ Rank.sort cmp (List.filter keep data)).
    { apply elem_of_sort_filter. split; [exact Hq|]. now apply String.eqb_eq. }
    destruct (last_sorted_max _ _ _ Hs El q Hq') as [-> | H]; [|exact H].
    rewrite Forall_forall in Hv. destruct (Hv p Hp Ep) as [z ->]. unfold nle, nseq.
    rewrite bool_decide_eq_true_2 by reflexivity. apply orb_true_r.
  - apply last_None in El. intros q Hq Eq.
    assert (Hq' : q ∈ Rank.sort cmp (List.filter keep data)).
    { apply elem_of_sort_filter. split; [exact Hq|]. now apply String.eqb_eq. }
    rewrite El in Hq'. inversion Hq'.
Qed.

(** X18: the X-ray chart.  When the time tags of the 0.1-0.8 nm points
    are valid dates, [getXRayFlux] yields as many points as the feed has
    in that band, each with [observed_flux] equal to its flux, in
    ascending time order; the chart shows the last 120 of them (all when
    there are fewer), and no point left out is later than a point
    shown. *)
Theorem chart_shows_latest_points (data : list XRayFluxDataPoint) :
  Forall (fun d => x_energy d = "0.1-0.8nm" → ∃ z, getTime (x_time_tag d) = Fin z) data →
  let pts := xrayPoints getTime data in
  let shown := chartData pts in
  length pts = length (List.filter (fun d => String.eqb (x_energy d) "0.1-0.8nm") data)
  ∧ Forall (fun p => x_energy p = "0.1-0.8nm" ∧ observed_flux p = x_flux p) pts
  ∧ StronglySorted
      (fun a b => nle (getTime (x_time_tag a)) (getTime (x_time_tag b)) = true) pts
  ∧ length shown = Nat.min 120 (length pts)
  ∧ ∃ older, pts = older ++ shown
      ∧ ∀ o s, o ∈ older → s ∈ shown →
          nle (getTime (x_time_tag o)) (getTime (x_time_tag s)) = true.
Proof.
  intros Hv pts shown. unfold shown, pts, xrayPoints, chartData. clear shown pts.
  set (cmp := fun a b => nsub (getTime (x_time_tag a)) (getTime (x_time_tag b))).
  set (keep := fun d => String.eqb (x_energy d) "0.1-0.8nm").
  set (obs := fun d => {| x_time_tag := x_time_tag d; x_flux := x_flux d;
                          observed_flux := x_flux d; x_energy := x_energy d |}).
  set (l := map obs (List.filter keep data)).
  assert (Hl : Forall (fun p => (x_energy p = "0.1-0.8nm" ∧ observed_flux p = x_flux p)
                          ∧ ∃ z, getTime (x_time_tag p) = Fin z) l).
  { apply Forall_forall. intros p Hp.
    apply list_elem_of_In, in_map_iff in Hp as (d & <- & Hd).
    apply filter_In in Hd as [Hd E]. apply String.eqb_eq in E. simpl.
    split; [now split|]. rewrite Forall_forall in Hv. apply (Hv d); [|exact E].
    now apply list_elem_of_In. }
  apply Forall_and in Hl as [Hband Hvalid].
  pose proof (LoaderFacts.byTimeAsc_sorted getTime x_time_tag l Hvalid) as Hs.
  fold cmp in Hs.
  pose proof (RankFacts.sort_perm cmp l) as Hperm.
  split. { rewrite (Permutation_length Hperm). unfold l. now rewrite length_map. }
  split. { now rewrite Hperm. }
  split; [exact Hs|].
  split. { rewrite length_drop. lia. }
  exists (take (length (Rank.sort cmp l) - 120) (Rank.sort cmp l)).
  split; [now rewrite take_drop|].
  apply sorted_app_cross. now rewrite take_drop.
Qed.

End FluxData.

Lemma displayed_proton_flux_is_latest_witness :
  match currentFlux (protonPoints Rank.isoTime LoaderExamples.protons) with
  | Some p =>
      p ∈ LoaderExamples.protons ∧ p_energy p = ">=10 MeV"
      ∧ ∀ q, q ∈ LoaderExamples.protons → p_energy q = ">=10 MeV" →
             nle (Rank.isoTime (p_time_tag q)) (Rank.isoTime (p_time_tag p)) = true
  | None => ∀ q, q ∈ LoaderExamples.protons → p_energy q ≠ ">=10 MeV"
  end.
Proof.
  apply (displayed_proton_flux_is_latest Rank.isoTime LoaderExamples.protons).
  apply List.Forall_cons; [intros _; eexists; vm_compute; reflexivity|].
  apply List.Forall_cons; [discriminate|].
  apply List.Forall_cons; [intros _; eexists; vm_compute; reflexivity|].
  apply List.Forall_nil.
Defined.

Lemma chart_shows_latest_points_witness :
  length (xrayPoints Rank.isoTime LoaderExamples.xrays) = 2%nat
  ∧ length (chartData (xrayPoints Rank.isoTime LoaderExamples.xrays)) = 2%nat
  ∧ StronglySorted
      (fun a b => nle (Rank.isoTime (x_time_tag a)) (Rank.isoTime (x_time_tag b)) = true)
      (xrayPoints Rank.isoTime LoaderExamples.xrays).
Proof.
  assert (V : Forall (fun d => x_energy d = "0.1-0.8nm" →
                        ∃ z, Rank.isoTime (x_time_tag d) = Fin z) LoaderExamples.xrays).
  { apply List.Forall_cons; [intros _; eexists; vm_compute; reflexivity|].
    apply List.Forall_cons; [discriminate|].
    apply List.Forall_cons; [intros _; eexists; vm_compute; reflexivity|].
    apply List.Forall_nil. }
  destruct (chart_shows_latest_points Rank.isoTime LoaderExamples.xrays V)
    as (Hlen & _ & Hsorted & Hshown & _).
  split; [exact Hlen|]. split; [|exact Hsorted].
  rewrite Hshown. vm_compute. reflexivity.
Defined.

End WidgetExtras.

Module RankMoreFacts.
Import Rank RankFacts Loaders.

(** A list sorted for [R] splits at the point where a predicate that
    [R] carries backwards stops holding. *)
Lemma sorted_split {A} (R : A → A → Prop) (p : A → bool) (l : list A) :
  StronglySorted R l →
  (∀ a b, a ∈ l → b ∈ l → R a b → p b = true → p a = true) →
  ∃ hi lo, l = hi ++ lo
    ∧ Forall (fun c => p c = true) hi ∧ Forall (fun c => p c = false) lo.
Proof.
  induction 1 as [|a l Hs IH Hall]; intros Hmono.
  - exists [], []. repeat split; constructor.
  - destruct (p a) eqn:Ea.
    + destruct IH as (hi & lo & -> & Hhi & Hlo).
      { intros x y Hx Hy. apply Hmono; now right. }
      exists (a :: hi), lo. repeat split; [|exact Hlo]. now constructor.
    + exists [], (a :: l). split; [reflexivity|]. split; [constructor|].
      constructor; [exact Ea|]. apply Forall_forall. intros b Hb.
      destruct (p b) eqn:Eb; [|reflexivity].
      rewrite Forall_forall in Hall.
      rewrite (Hmono a b) in Ea; [discriminate | left | now right | now apply Hall | exact Eb].
Qed.

Lemma passes_filter_truthy s :
  nle (orInfinity (Some s)) (Fin 3) = true → orInfinity (Some s) = s.
Proof.
  unfold orInfinity. destruct (truthy s); [reflexivity | discriminate].
Qed.

Lemma nlt_nle_trans a b c : nlt a b = true → nle b c = true → nle a c = true.
Proof.
  intros H1 H2. unfold nle in *. apply orb_true_iff in H2 as [H2 | H2].
  - now rewrite (nlt_trans _ _ _ H1 H2).
  - destruct a, b, c; simpl in *; try discriminate; try reflexivity;
      apply bool_decide_eq_true in H2; try discriminate; injection H2 as <-;
      now rewrite H1.
Qed.

End RankMoreFacts.

Module RankExtras.
Import Rank RankFacts Loaders RankMoreFacts.

(** X19: in the Earth-directed list the highlighted cards come first.
    When the times are valid dates, the list is a run of entries that
    meet the highlight condition [(score || Infinity) <= 2] followed by
    a run of entries that do not, and the first run holds exactly the
    processed CMEs that meet the condition. *)
Theorem highlighted_first getTime (l : list EnhancedCME) :
  Forall (Spec.ValidTimes getTime) l →
  ∃ hi lo, earthDirectedCMEs getTime l = hi ++ lo
    ∧ Forall (fun c => highlightCondition c = true) hi
    ∧ Forall (fun c => highlightCondition c = false) lo
    ∧ ∀ c, c ∈ hi ↔ c ∈ l ∧ highlightCondition c = true.
Proof.
  intros Hv.
  assert (Hs : StronglySorted (Spec.RankedBefore getTime)
                 (earthDirectedCMEs getTime l)).
  { unfold earthDirectedCMEs.
    apply (sort_sorted _ (Spec.Rankable getTime)).
    - intros x y Dx Dy. apply (compare_sign getTime x y Dx Dy).
    - intros x y Dx Dy. apply (compare_sign getTime x y Dx Dy).
    - apply RankedBefore_trans.
    - apply Forall_forall. intros c Hc. apply list_elem_of_In, filter_In in Hc as [Hc E].
      rewrite Forall_forall in Hv. split; [|exact E].
      now apply Hv, list_elem_of_In. }
  destruct (sorted_split _ highlightCondition _ Hs) as (hi & lo & E & Hhi & Hlo).
  { intros a b Ha Hb (sa & sb & Ea & Eb & H).
    apply elem_of_earthDirected in Ha as [_ Ha], Hb as [_ Hb].
    unfold highlightCondition. rewrite Ea, Eb in *.
    rewrite (passes_filter_truthy _ Ha), (passes_filter_truthy _ Hb).
    destruct H as [H | [-> _]]; [|tauto]. now apply nlt_nle_trans. }
  exists hi, lo. split; [exact E|]. split; [exact Hhi|]. split; [exact Hlo|].
  intros c. split.
  - intros Hc. rewrite Forall_forall in Hhi. split; [|now apply Hhi].
    assert (H : c ∈ earthDirectedCMEs getTime l).
    { rewrite E. apply elem_of_app. now left. }
    now apply elem_of_earthDirected in H as [H _].
  - intros [Hc Hh].
    assert (H : c ∈ earthDirectedCMEs getTime l).
    { apply elem_of_earthDirected. split; [exact Hc|].
      unfold highlightCondition in Hh.
      destruct (orInfinity (earthImpactScore c)) as [z| | |]; try discriminate Hh.
      - unfold nle in *. apply orb_true_iff in Hh as [Hh | Hh].
        + simpl in Hh. apply Z.ltb_lt in Hh. simpl.
          replace (z <? 3) with true; [reflexivity|]. symmetry. apply Z.ltb_lt. lia.
        + simpl in Hh. apply bool_decide_eq_true in Hh. injection Hh as ->.
          reflexivity.
      - reflexivity. }
    rewrite E in H. apply elem_of_app in H as [H | H]; [exact H|].
    rewrite Forall_forall in Hlo. rewrite (Hlo c H) in Hh. discriminate.
Qed.

Lemma highlighted_first_witness :
  ∃ hi lo,
    earthDirectedCMEs Rank.isoTime [Examples.late; Examples.early] = hi ++ lo
    ∧ Forall (fun c => highlightCondition c = true) hi
    ∧ Forall (fun c => highlightCondition c = false) lo
    ∧ ∀ c, c ∈ hi ↔ c ∈ [Examples.late; Examples.early] ∧ highlightCondition c = true.
Proof.
  apply (highlighted_first Rank.isoTime [Examples.late; Examples.early]).
  apply List.Forall_cons; [|apply List.Forall_cons; [|apply List.Forall_nil]].
  - split; [split; [discriminate | eexists; vm_compute; reflexivity]|].
    intros _ t [= <-]. split; [discriminate | eexists; vm_compute; reflexivity].
  - split; [split; [discriminate | eexists; vm_compute; reflexivity]|].
    intros _ t [= <-]. split; [discriminate | eexists; vm_compute; reflexivity].
Defined.

(** X21: the two partitions, for any list.  [otherCMEs] keeps, in the
    order of the list, exactly the entries whose activity ID is not the
    ID of an entry scoring at most 3; no entry of one partition shares
    its ID with an entry of the other; and an entry is in neither
    partition exactly when it scores above 3 (or has no score) while
    another record with its ID scores at most 3. *)
Theorem partition_by_activity_id getTime (l : list EnhancedCME) :
  let directed c := nle (orInfinity (earthImpactScore c)) (Fin 3) in
  sublist (otherCMEs getTime l) l
  ∧ (∀ c, c ∈ otherCMEs getTime l ↔
          c ∈ l ∧ ∀ d, d ∈ l → directed d = true →
                       activityID (raw d) ≠ activityID (raw c))
  ∧ (∀ c d, c ∈ earthDirectedCMEs getTime l → d ∈ otherCMEs getTime l →
            activityID (raw c) ≠ activityID (raw d))
  ∧ (∀ c, c ∈ l →
          (((c ∉ earthDirectedCMEs getTime l) ∧ (c ∉ otherCMEs getTime l))
           ↔ (directed c = false
              ∧ ∃ d, d ∈ l ∧ directed d = true
                     ∧ activityID (raw d) = activityID (raw c)))).
Proof.
  intros directed.
  assert (Hother : ∀ c, c ∈ otherCMEs getTime l ↔
            c ∈ l ∧ ∀ d, d ∈ l → directed d = true →
                         activityID (raw d) ≠ activityID (raw c)).
  { intros c. unfold otherCMEs. rewrite list_elem_of_In, filter_In, <- list_elem_of_In.
    split; intros [Hc H]; (split; [exact Hc|]).
    - intros d Hd Sd Eid. apply negb_true_iff, bool_decide_eq_false in H.
      apply H.
      destruct (List.find _ (earthDirectedCMEs getTime l)) as [e|] eqn:F; [eauto|].
      exfalso. apply find_none with (x := d) in F.
      + apply String.eqb_neq in F. contradiction.
      + apply list_elem_of_In, elem_of_earthDirected. now split.
    - apply negb_true_iff, bool_decide_eq_false. intros [e F].
      apply find_some in F as [He Hid]. apply String.eqb_eq in Hid.
      apply list_elem_of_In, elem_of_earthDirected in He as [He Hs].
      now apply (H e He Hs). }
  split.
  { clear Hother. unfold otherCMEs. generalize (earthDirectedCMEs getTime l).
    intros ed. induction l as [|x l IH]; simpl; [constructor|].
    destruct (negb _); now constructor. }
  split; [exact Hother|]. split.
  { intros c d Hc Hd. apply elem_of_earthDirected in Hc as [Hc Sc].
    apply Hother in Hd as [_ Hd]. now apply Hd. }
  intros c Hc. split.
  - intros [Hed Hoth].
    assert (Sc : directed c = false).
    { destruct (directed c) eqn:Sc; [|reflexivity]. exfalso. apply Hed.
      apply elem_of_earthDirected. now split. }
    split; [exact Sc|].
    destruct (List.find (fun d => directed d
                && String.eqb (activityID (raw d)) (activityID (raw c))) l)
      as [d|] eqn:F.
    + apply find_some in F as [Hd H]. apply andb_true_iff in H as [Sd Eid].
      apply String.eqb_eq in Eid. exists d. split; [now apply list_elem_of_In|].
      now split.
    + exfalso. apply Hoth, Hother. split; [exact Hc|]. intros d Hd Sd Eid.
      apply find_none with (x := d) in F; [|now apply list_elem_of_In].
      rewrite Sd in F. simpl in F. apply String.eqb_neq in F. contradiction.
  - intros [Sc (d & Hd & Sd & Eid)]. split.
    + intros H. apply elem_of_earthDirected in H as [_ H]. fold (directed c) in H.
      congruence.
    + intros H. apply Hother in H as [_ H]. now apply (H d).
Qed.

End RankExtras.

Module CardFacts.
Import Enrich EnrichFacts.

(** The scores the enrichment engine produces. *)
Lemma enhance_score_cases cme e :
  enhanceCMEData cme = Ok e →
  earthImpactScore e ∈ [Some (Fin 1); Some (Fin 2); Some (Fin 3); Some (Fin 4); Some PInf].
Proof.
  intros He.
  destruct (Spec.relevantAnalysis cme) as [a|] eqn:Ha.
  - destruct (Spec.primaryEarthSim a) as [s|] eqn:Hs.
    + rewrite (enhance_primary cme a s Ha Hs) in He. injection He as <-. simpl.
      destruct (truthyOStr _); [left | right; left].
    + destruct (noteMentionsEarth (an_note a)) eqn:Hn.
      * rewrite (enhance_note cme a Ha Hs Hn) in He. injection He as <-. simpl.
        do 2 right. left.
      * rewrite (enhance_plain cme a Ha Hs Hn) in He. injection He as <-. simpl.
        destruct (nonEmpty _); [do 3 right; left | do 4 right; left].
  - rewrite (enhance_no_analysis cme Ha) in He. injection He as <-. simpl.
    do 4 right. left.
Qed.

End CardFacts.

Module CardExtras.
Import Enrich Loaders Widgets CardFacts.

(** X20: the score line of a CME card agrees with the highlight of the
    list.  For a record produced by the enrichment engine, the card
    shows the score exactly when it is finite (one of 1, 2, 3, 4), marks
    it as of higher concern exactly when the list highlights the card,
    and never renders a bare number; a score of Infinity shows no score
    line and is never highlighted. *)
Theorem badge_matches_highlight cme e :
  enhanceCMEData cme = Ok e →
  match scoreBadge e with
  | Shown b =>
      earthImpactScore e = Some (badgeScore b)
      ∧ badgeScore b ∈ [Fin 1; Fin 2; Fin 3; Fin 4]
      ∧ higherConcern b = highlightCondition e
  | Nothing => earthImpactScore e = Some PInf ∧ highlightCondition e = false
  | StrayNumber _ => False
  end.
Proof.
  intros He. apply enhance_score_cases in He.
  unfold scoreBadge, highlightCondition.
  repeat (apply elem_of_cons in He as [-> | He]); [..|inversion He]; simpl;
    repeat split; try reflexivity.
  - left.
  - right; left.
  - do 2 right; left.
  - do 3 right; left.
Qed.

Lemma badge_matches_highlight_witness :
  match scoreBadge Examples.hitA with
  | Shown b => badgeScore b = Fin 1 ∧ higherConcern b = true
  | _ => False
  end
  ∧ highlightCondition Examples.hitA = true.
Proof.
  assert (He : enhanceCMEData Examples.cmeA = Ok Examples.hitA) by reflexivity.
  pose proof (badge_matches_highlight Examples.cmeA Examples.hitA He) as H.
  split; [|reflexivity]. revert H. vm_compute. intros (H1 & _ & H3).
  split; [congruence | exact H3].
Defined.

Section AssociatedCard.
Variable formatDate : string → string.

(** X24: an associated CME on a flare card is highlighted exactly when
    the CME list highlights that CME.  For the summary of a record
    produced by the enrichment engine, the entry carries the CME's
    activity ID, is highlighted exactly when the score is 1 or 2, shows
    the "Earth-Directed" score line exactly then, and never renders a
    bare number. *)
Theorem associated_cme_highlight_agrees cme e :
  enhanceCMEData cme = Ok e →
  let v := associatedView formatDate (Spec.summary e) in
  av_id v = activityID cme
  ∧ av_highlighted v = highlightCondition e
  ∧ (av_highlighted v = true ↔
       earthImpactScore e = Some (Fin 1) ∨ earthImpactScore e = Some (Fin 2))
  ∧ match av_scoreLabel v with
    | Shown n => av_highlighted v = true ∧ earthImpactScore e = Some n
    | Nothing => av_highlighted v = false
    | StrayNumber _ => False
    end.
Proof.
  intros He v. unfold v. clear v.
  pose proof (LoaderFacts.enhance_raw cme e He) as Hraw.
  apply enhance_score_cases in He.
  unfold associatedView, highlightCondition, Spec.summary. cbn [av_id av_highlighted
    av_scoreLabel ai_activityID ai_earthImpactScore]. rewrite Hraw.
  split; [reflexivity|].
  repeat (apply elem_of_cons in He as [-> | He]); [..|inversion He]; simpl;
    (split; [reflexivity|]); (split; [|now split]);
    (split; [intros H; try discriminate H; auto | intros [H | H]; now inversion H]).
Qed.

End AssociatedCard.

Lemma associated_cme_highlight_agrees_witness :
  av_id (associatedView (fun t => t) (Spec.summary Examples.hitA)) = "A"
  ∧ av_highlighted (associatedView (fun t => t) (Spec.summary Examples.hitA)) = true
  ∧ av_scoreLabel (associatedView (fun t => t) (Spec.summary Examples.hitA))
    = Shown (Fin 1).
Proof.
  assert (He : enhanceCMEData Examples.cmeA = Ok Examples.hitA) by reflexivity.
  destruct (associated_cme_highlight_agrees (fun t => t) Examples.cmeA Examples.hitA He)
    as (H1 & H2 & _).
  split; [exact H1|]. split; [rewrite H2|]; reflexivity.
Defined.

End CardExtras.

Module CorrelateMoreFacts.
Import Store Correlate CorrelateFacts.

(** The arrays allocated by the flare pass are new and pairwise
    distinct. *)
Lemma mapM_correlateFlare_fresh (σ : gmap positive cell) m cs flares out σ' :
  Spec.Indexes σ m cs →
  mapM (correlateFlare m) flares σ = Ok (out, σ') →
  Forall (fun f => ∀ arr, associatedCMEs f = Some arr → σ !! arr = None) out
  ∧ NoDup (omap associatedCMEs out).
Proof.
  revert σ out. induction flares as [|flare flares IH]; intros σ out Hi.
  - intros [= <- <-]. split; constructor.
  - cbn [mapM]. rewrite bind_run, (correlateFlare_spec σ m cs flare Hi).
    set (arr := fresh (dom σ)).
    set (infos := Spec.resolvedSummaries cs (Spec.linksOf (fl_linkedEvents flare))).
    assert (Hfresh : σ !! arr = None) by apply not_elem_of_dom, is_fresh.
    assert (Hsub : σ ⊆ <[arr := InfoArray infos]> σ) by now apply insert_subseteq.
    assert (Hi' : Spec.Indexes (<[arr := InfoArray infos]> σ) m cs).
    { eapply Indexes_preserved; [|exact Hi]. now apply subseteq_PreservesCMEs. }
    rewrite bind_run.
    destruct (mapM (correlateFlare m) flares (<[arr := InfoArray infos]> σ))
      as [[out' σ1]|] eqn:E; [|discriminate].
    intros [= <- <-]. destruct (IH _ _ Hi' E) as [Hnew Hnd].
    assert (Hnew' : Forall (fun f => ∀ a, associatedCMEs f = Some a →
                                 σ !! a = None ∧ a ≠ arr) out').
    { eapply Forall_impl; [exact Hnew|]. intros f Hf a Ha. specialize (Hf a Ha).
      split.
      - destruct (σ !! a) eqn:Ea; [|reflexivity].
        apply (lookup_weaken _ _ _ _ Ea) in Hsub. congruence.
      - intros ->. rewrite lookup_insert_eq in Hf. discriminate. }
    split.
    + constructor.
      * simpl. intros a. destruct infos; [discriminate|]. now intros [= <-].
      * eapply Forall_impl; [exact Hnew'|]. intros f Hf a Ha. now apply Hf.
    + cbn [omap list_omap]. simpl. destruct infos; [exact Hnd|].
      apply NoDup_cons. split; [|exact Hnd].
      intros Hin. apply list_elem_of_omap in Hin as (f & Hf & Ha).
      rewrite Forall_forall in Hnew'. now destruct (Hnew' f Hf arr Ha).
Qed.

Lemma resolve_elem cs id c :
  Spec.resolve cs id = Some c → c ∈ cs ∧ activityID (raw c) = id.
Proof.
  unfold Spec.resolve. intros H. apply last_Some_elem_of in H.
  apply list_elem_of_In, filter_In in H as [H E]. apply String.eqb_eq in E.
  split; [now apply list_elem_of_In | exact E].
Qed.

(** The summaries attached to a flare come from its links, in order. *)
Lemma resolvedSummaries_provenance cs ids :
  sublist (ai_activityID <$> Spec.resolvedSummaries cs ids) ids
  ∧ Forall (fun i => ∃ c, c ∈ cs ∧ i = Spec.summary c)
      (Spec.resolvedSummaries cs ids).
Proof.
  unfold Spec.resolvedSummaries. induction ids as [|id ids [IH1 IH2]]; simpl.
  - split; constructor.
  - destruct (Spec.resolve cs id) as [c|] eqn:E; simpl.
    + apply resolve_elem in E as [Hc <-]. split; [now constructor|].
      constructor; [eauto | exact IH2].
    + split; [now constructor | exact IH2].
Qed.

End CorrelateMoreFacts.

Module CorrelateExtras.
Import Store Correlate CorrelateFacts CorrelateMoreFacts.

(** X22: the arrays of the flare pass.  Run over a store holding the
    enhanced CMEs, the pass gives every annotated flare an array of its
    own: allocated by the pass (no object of the store before), shared
    with no other flare, and non-empty.  The IDs of its entries are a
    sub-sequence of the flare's linked IDs, and every entry is the
    summary of an enhanced CME of the set. *)
Theorem flare_arrays_own_and_sourced (σ : gmap positive cell) refs cs flares :
  Spec.Holds σ refs cs →
  ∃ out σ',
    correlateFlares refs flares σ = Ok (out, σ')
    ∧ length out = length flares
    ∧ NoDup (omap associatedCMEs out)
    ∧ Forall (fun f => ∀ arr, associatedCMEs f = Some arr →
        σ !! arr = None
        ∧ ∃ infos, σ' !! arr = Some (InfoArray infos)
            ∧ infos ≠ []
            ∧ sublist (ai_activityID <$> infos) (Spec.linksOf (fl_linkedEvents f))
            ∧ Forall (fun i => ∃ c, c ∈ cs ∧ i = Spec.summary c) infos) out.
Proof.
  intros H. unfold correlateFlares.
  destruct (fillCmeMap_spec σ refs cs ∅ [] H) as (m & E & Hi).
  { intros id. now rewrite lookup_empty. }
  simpl in Hi.
  destruct (mapM_correlateFlare σ m cs flares Hi) as (out & σ' & Em & _ & Hall).
  destruct (mapM_correlateFlare_fresh σ m cs flares out σ' Hi Em) as [Hnew Hnd].
  exists out, σ'. rewrite bind_run, E. split; [exact Em|].
  split; [symmetry; apply (Forall2_length _ _ _ Hall)|]. split; [exact Hnd|].
  clear -Hall Hnew. induction Hall as [|flare f flares out Hf _ IH]; [constructor|].
  apply Forall_cons in Hnew as [Hn Hnew]. constructor; [|now apply IH].
  intros arr Ha. split; [now apply Hn|].
  destruct Hf as (_ & _ & _ & _ & Hle & Hf). rewrite Ha in Hf.
  destruct Hf as [Hs Hne]. eexists. split; [exact Hs|]. split; [exact Hne|].
  rewrite Hle. apply resolvedSummaries_provenance.
Qed.

Lemma flare_arrays_own_and_sourced_witness :
  ∃ out σ',
    correlateFlares [1%positive; 2%positive] [Examples.flareF; Examples.flareA]
      Examples.store0 = Ok (out, σ')
    ∧ length out = length [Examples.flareF; Examples.flareA]
    ∧ NoDup (omap associatedCMEs out)
    ∧ Forall (fun f => ∀ arr, associatedCMEs f = Some arr →
        Examples.store0 !! arr = None
        ∧ ∃ infos, σ' !! arr = Some (InfoArray infos)
            ∧ infos ≠ []
            ∧ sublist (ai_activityID <$> infos) (Spec.linksOf (fl_linkedEvents f))
            ∧ Forall (fun i => ∃ c, c ∈ [Examples.hitA; Examples.zedZ]
                                    ∧ i = Spec.summary c) infos) out.
Proof.
  apply (flare_arrays_own_and_sourced Examples.store0 [1%positive; 2%positive]
           [Examples.hitA; Examples.zedZ] [Examples.flareF; Examples.flareA]).
  apply List.Forall2_cons; [reflexivity|].
  apply List.Forall2_cons; [reflexivity|]. apply List.Forall2_nil.
Defined.

(** X23: the causative-CME fields of a shock.  After the shock pass,
    which leaves the store as it was, the start time, the link and the
    activity ID of a shock are present together or absent together.
    When present they are those of one enhanced CME of the set, whose ID
    is among the shock's linked IDs; the speed is present only then, is
    that CME's display speed, and is neither 0 nor NaN. *)
Theorem shock_fields_together (σ : gmap positive cell) refs cs shocks :
  Spec.Holds σ refs cs →
  ∃ out,
    correlateShocks refs shocks σ = Ok (out, σ)
    ∧ length out = length shocks
    ∧ Forall (fun i =>
        match associatedCMEActivityID i with
        | Some id =>
            id ∈ Spec.linksOf (ips_linkedEvents i)
            ∧ ∃ c, c ∈ cs ∧ activityID (raw c) = id
                ∧ associatedCMEStartTime i = Some (startTime (raw c))
                ∧ associatedCMELink i = Some (link (raw c))
                ∧ match associatedCMESpeed i with
                  | Some v => displayAnalysisSpeed c = Some v ∧ truthy v = true
                  | None => True
                  end
        | None =>
            associatedCMEStartTime i = None ∧ associatedCMELink i = None
            ∧ associatedCMESpeed i = None
        end) out.
Proof.
  intros H. unfold correlateShocks.
  destruct (fillCmeMap_spec σ refs cs ∅ [] H) as (m & E & Hi).
  { intros id. now rewrite lookup_empty. }
  simpl in Hi.
  destruct (mapM_correlateShock σ m cs shocks Hi) as (out & Em & Hall).
  exists out. rewrite bind_run, E. split; [exact Em|].
  split; [symmetry; apply (Forall2_length _ _ _ Hall)|].
  clear -Hall. induction Hall as [|ips i shocks out Hs _ IH]; constructor; [|exact IH].
  destruct Hs as (_ & _ & _ & Hle & Hs). rewrite Hle. unfold Spec.causative in Hs.
  destruct (head _) as [c|] eqn:Hc.
  - destruct Hs as (Hv & Ht & Hl & Hid). rewrite Hid.
    apply head_Some_elem_of, list_elem_of_omap in Hc as (id & Hin & Hr).
    apply resolve_elem in Hr as [Hcs <-].
    split; [exact Hin|]. exists c. repeat split; try assumption.
    rewrite Hv. unfold orUndefined. destruct (displayAnalysisSpeed c) as [v|]; [|exact I].
    destruct (truthy v) eqn:Tv; [now split | exact I].
  - destruct Hs as (Hv & Ht & Hl & Hid). rewrite Hid. now repeat split.
Qed.

Lemma shock_fields_together_witness :
  ∃ out,
    correlateShocks [1%positive; 2%positive] [LoaderExamples.shockA; Examples.shockI]
      Examples.store0 = Ok (out, Examples.store0)
    ∧ (associatedCMEActivityID <$> out) = [Some "A"; None]
    ∧ (associatedCMESpeed <$> out) = [Some (Fin 820); None].
Proof.
  destruct (shock_fields_together Examples.store0 [1%positive; 2%positive]
              [Examples.hitA; Examples.zedZ] [LoaderExamples.shockA; Examples.shockI])
    as (out & E & _).
  - apply List.Forall2_cons; [reflexivity|].
    apply List.Forall2_cons; [reflexivity|]. apply List.Forall2_nil.
  - exists out. split; [exact E|].
    assert (E' : Ok (out, Examples.store0)
                 = correlateShocks [1%positive; 2%positive]
                     [LoaderExamples.shockA; Examples.shockI] Examples.store0)
      by (symmetry; exact E).
    vm_compute in E'. injection E' as ->. split; reflexivity.
Defined.

End CorrelateExtras.
